(** * tag-to-acg: the TAG to ACG compiler of [acgtag.py]

    A shallow embedding of the compiler and the proofs of its specified
    properties.

    Modelling conventions.
    - A Python [str] is a Rocq [string] of ASCII characters; [isupper] is
      the ASCII test ['A' <= c <= 'Z'].
    - A Python exception is a value of [exn]; a computation that may raise
      returns a [res].
    - A [Tree] object is a reference [ref] into the store together with the
      fields that are assigned in [Tree.__init__] and never again ([root],
      [children], [nonadjoining], [footnode]).  The two fields that are
      assigned after construction ([identifier] by [TAG.numberTrees],
      [varname] by [varTraverse]) live in the store, indexed by [ref], so
      that two references to one object see one another's writes.
    - The store is a list of cells; a new object takes the next index.
    - A [dict] is an association list in insertion order, the order in
      which Python iterates over it.
    - [copy.deepcopy] makes a new object for every node; its memo table,
      which only matters for an object that is reached twice, is left out:
      the trees that the parser builds share no object.
    - [sexpdata.loads] is an external library: it is a parameter [loads] of
      the development, returning the parsed S-expression.
    - The [print] calls write progress messages to the terminal and are left
      out; the output document is the text written by [ACG.output].
    - The recursion limit of the interpreter is left out: on a tree too
      deep for it the program raises [RecursionError] where the model goes
      on.  The properties are about the runs that the limit does not cut:
      what a run returns, and what follows when it returns or raises one of
      the exceptions of [exn]. *)

From Stdlib Require Import Ascii.
From stdpp Require Import base list strings pretty.

(** ** Exceptions and results *)

Inductive exn : Set := IndexError | KeyError | AttributeError | TypeError.

Inductive res (A : Type) : Type :=
  | Ok (a : A)
  | Raise (e : exn).
Arguments Ok {A} a.
Arguments Raise {A} e.

Global Instance res_ret : MRet res := λ A a, Ok a.
Global Instance res_bind : MBind res := λ A B f m,
  match m with Ok a => f a | Raise e => Raise e end.

(** ** Python strings *)

Module Py.

(** [c.isupper()] for a single ASCII character. *)
Definition isupper (c : ascii) : bool :=
  let n := nat_of_ascii c in (65 <=? n) && (n <=? 90).

(** [c in chars] *)
Fixpoint char_in (c : ascii) (chars : string) : bool :=
  match chars with
  | EmptyString => false
  | String d chars' => if Ascii.eqb c d then true else char_in c chars'
  end.

(** [s.endswith(suffix)] *)
Fixpoint endswith (s suffix : string) : bool :=
  if String.eqb s suffix then true
  else match s with
       | EmptyString => false
       | String _ s' => endswith s' suffix
       end.

(** [s.startswith(prefix)] *)
Definition startswith (s prefix : string) : bool := String.prefix prefix s.

(** [s.rstrip(chars)]: drops the longest suffix made of characters of
    [chars] (a set of characters, not a suffix). *)
Fixpoint rstrip (s chars : string) : string :=
  match s with
  | EmptyString => EmptyString
  | String c s' =>
      match rstrip s' chars with
      | EmptyString => if char_in c chars then EmptyString else String c EmptyString
      | r => String c r
      end
  end.

(** [sep.join(items)] on a list of strings. *)
Fixpoint join (sep : string) (items : list string) : string :=
  match items with
  | [] => ""
  | [x] => x
  | x :: rest => x +:+ sep +:+ join sep rest
  end.

(** A Python value that is a [str] or [None]. *)
Abbreviation value := (option string) (only parsing).

(** [f"{v}"] *)
Definition fmt (v : value) : string := default "None" v.

(** [sep.join(items)] where an item may be [None]: raises [TypeError]. *)
Definition join_values (sep : string) (items : list value) : res string :=
  match mapM (M := option) id items with
  | Some l => Ok (join sep l)
  | None => Raise TypeError
  end.

(** [f"{n}"] for a non-negative integer. *)
Definition str (n : nat) : string := pretty n.

End Py.

(** ** The store *)

Abbreviation addr := nat (only parsing).

Record cell : Type := mkCell {
  identifier : Py.value;  (* unique identifier to define trees *)
  varname : Py.value      (* var name for generating lambda expressions *)
}.

Abbreviation store := (list cell) (only parsing).

(** Computations that read and write the store and may raise. *)
Definition M (A : Type) : Type := store → res (A * store).

Global Instance M_ret : MRet M := λ A a σ, Ok (a, σ).
Global Instance M_bind : MBind M := λ A B f m σ,
  match m σ with Ok (a, σ') => f a σ' | Raise e => Raise e end.

(** A computation that does not touch the store. *)
Definition lift {A} (r : res A) : M A := λ σ,
  match r with Ok a => Ok (a, σ) | Raise e => Raise e end.

(** A new object. *)
Definition alloc (c : cell) : M addr := λ σ, Ok (length σ, σ ++ [c]).

Section folds.
Context {A B : Type}.

(** [for x in l: acc = f(x, acc)] in [res]. *)
Definition foldR (f : A → B → res B) : list A → B → res B :=
  fix go l b := match l with [] => Ok b | x :: l' => b' ← f x b; go l' b' end.

(** [for x in l: acc = f(x, acc)] in [M]. *)
Definition foldM (f : A → B → M B) : list A → B → M B :=
  fix go l b := match l with [] => mret b | x :: l' => b' ← f x b; go l' b' end.

(** [[f(x) for x in l]] in [M]. *)
Definition forM (f : A → M B) : list A → M (list B) :=
  fix go l := match l with
              | [] => mret []
              | x :: l' => y ← f x; ys ← go l'; mret (y :: ys)
              end.
End folds.

(** ** Trees *)

Set Warnings "-register-all".
Inductive Tree : Type := mkTree {
  ref : addr;
  children : list Tree;
  nonadjoining : bool;
  footnode : bool;
  root : string
}.

(** [tree.identifier], [tree.identifier = v], [tree.varname] and
    [tree.varname = v] *)
Definition get_identifier (tree : Tree) : M Py.value := λ σ,
  Ok (σ !! ref tree ≫= identifier, σ).
Definition set_identifier (tree : Tree) (v : string) : M unit := λ σ,
  Ok (tt, alter (λ c, mkCell (Some v) (varname c)) (ref tree) σ).
Definition get_varname (tree : Tree) : M Py.value := λ σ,
  Ok (σ !! ref tree ≫= varname, σ).
Definition set_varname (tree : Tree) (v : string) : M unit := λ σ,
  Ok (tt, alter (λ c, mkCell (identifier c) (Some v)) (ref tree) σ).

(** [ACG.is_nonterminal]: [node[0].isupper()] *)
Definition is_nonterminal (node : string) : res bool :=
  match node with
  | EmptyString => Raise IndexError
  | String c _ => Ok (Py.isupper c)
  end.

(** [Tree.__init__] *)
Definition Tree_init (root : string) (children : list Tree) : M Tree :=
  self ← alloc (mkCell None None);
  nt ← lift (is_nonterminal root);
  (* check for nonadjoining *)
  let '(root, nonadjoining) :=
    if nt && Py.endswith root "_NA"
    then (Py.rstrip root "_NA", true) else (root, false) in
  (* If root ends with a *, it's a foot node *)
  let '(root, footnode) :=
    if Py.endswith root "*"
    then (Py.rstrip root "*", true) else (root, false) in
  mret (mkTree self children nonadjoining footnode root).

(** ** The grammar ([class TAG]) *)

(** The data returned by [sexpdata.loads]: a symbol, a list, or another atom
    (a number, a string literal), which has no [value()] method. *)
Inductive sexp : Type :=
  | Symbol (s : string)
  | SList (l : list sexp)
  | Atom.

(** [x.value()] *)
Definition value_of (x : sexp) : res string :=
  match x with
  | Symbol s => Ok s
  | _ => Raise AttributeError
  end.

(** The input record read from the JSON file. *)
Record Contents : Type := mkContents {
  c_terminals : list string;
  c_nonterminals : list string;
  c_initials : list string;
  c_auxiliaries : list string;
  c_distinguished : string
}.

Record TAG : Type := mkTAG {
  terminals : list string;
  nonterminals : list string;
  initials : list Tree;
  auxiliaries : list Tree;
  distinguished : string
}.

(** [parseSymList], the local function of [TAG.parseTree] *)
Fixpoint parseSymList (symList : sexp) : M Tree :=
  match symList with
  | SList l =>
      match l with
      | [] => lift (Raise IndexError)
      | hd :: tl =>
          root ← lift (value_of hd);
          children ← forM parseSymList tl;
          Tree_init root children
      end
  | _ =>
      root ← lift (value_of symList);
      Tree_init root []
  end.

(** [TAG.numberTrees]: assigns a unique identifying number to each tree. *)
Definition numberTrees (self : TAG) : M unit :=
  count ← foldM (λ tree count,
             _ ← set_identifier tree ("C_TI" +:+ Py.str count);
             mret (count + 1)) (initials self) 0;
  count ← foldM (λ tree count,
             _ ← set_identifier tree ("C_TA" +:+ Py.str count);
             mret (count + 1)) (auxiliaries self) count;
  mret tt.

Section Parser.
(** [sexpdata.loads] *)
Variable loads : string → res sexp.

(** [TAG.parseTree]: parses tree as text as S-expression into nested lists. *)
Definition parseTree (tree : string) : M Tree :=
  let tree :=
    if negb (Py.startswith tree "(" && Py.endswith tree ")")
    then "(" +:+ tree +:+ ")" else tree in
  data ← lift (loads tree);
  parseSymList data.

(** [TAG.parseTrees] *)
Definition parseTrees (trees : list string) : M (list Tree) :=
  forM parseTree trees.

(** [TAG.__init__] *)
Definition TAG_init (contents : Contents) : M TAG :=
  initials ← parseTrees (c_initials contents);
  auxiliaries ← parseTrees (c_auxiliaries contents);
  let self := mkTAG (c_terminals contents) (c_nonterminals contents)
                    initials auxiliaries (c_distinguished contents) in
  _ ← numberTrees self;
  mret self.
End Parser.

(** ** Signatures and lexicons *)

Definition nl : string := String (ascii_of_nat 10) EmptyString.

Record Signature : Type := mkSignature {
  sig_name : string;
  types : list string;
  constants : list (Py.value * string)  (* tuples of (constant, type) *)
}.

Definition Signature_init (name : string) : Signature := mkSignature name [] [].

Definition addType (self : Signature) (t : string) : Signature :=
  mkSignature (sig_name self) (types self ++ [t]) (constants self).

Definition addConstant (self : Signature) (constant : Py.value) (t : string) : Signature :=
  mkSignature (sig_name self) (types self) (constants self ++ [(constant, t)]).

(** [for x in l: f.write(line(x))] *)
Definition write_all {A} (line : A → string) (l : list A) : string :=
  foldr (λ x out, line x +:+ out) "" l.

Definition outputName (self : Signature) : string :=
  "signature " +:+ sig_name self +:+ " = " +:+ nl.

Definition outputTypes (self : Signature) : string :=
  write_all (λ t, "    " +:+ t +:+ ": type;" +:+ nl) (types self) +:+ nl.

Definition outputConstants (self : Signature) : string :=
  write_all (λ '(constant, t), "    " +:+ Py.fmt constant +:+ ": " +:+ t +:+ ";" +:+ nl)
            (constants self).

Definition outputClosing (self : Signature) : string := "end" +:+ nl +:+ nl.

(** [Signature.output] *)
Definition Signature_output (self : Signature) : string :=
  outputName self +:+ outputTypes self +:+ outputConstants self +:+ outputClosing self.

(** [Lexicon] and [ComposedLexicon] objects *)
Inductive LexiconObj : Type :=
  | Lexicon (name first second : string) (mappings : list (Py.value * string))
  | ComposedLexicon (name first second : string).

Definition Lexicon_init (name first second : string) : LexiconObj :=
  Lexicon name first second [].

Definition addMapping (self : LexiconObj) (key : Py.value) (value : string) : LexiconObj :=
  match self with
  | Lexicon name first second mappings => Lexicon name first second (mappings ++ [(key, value)])
  | ComposedLexicon name first second => self
  end.

(** [Lexicon.output] and [ComposedLexicon.output] *)
Definition Lexicon_output (self : LexiconObj) : string :=
  match self with
  | Lexicon name first second mappings =>
      "lexicon " +:+ name +:+ "(" +:+ first +:+ "): " +:+ second +:+ " = " +:+ nl +:+
      write_all (λ '(key, value), "    " +:+ Py.fmt key +:+ " := " +:+ value +:+ ";" +:+ nl)
                mappings +:+
      "end" +:+ nl +:+ nl
  | ComposedLexicon name first second =>
      "lexicon " +:+ name +:+ " = " +:+ second +:+ " << " +:+ first +:+ nl +:+ nl
  end.

(** ** Dictionaries, in insertion order *)

Section dict.
Context {V : Type}.

Definition dict := list (string * V).

(** [d[k]] *)
Fixpoint dict_get (d : dict) (k : string) : res V :=
  match d with
  | [] => Raise KeyError
  | (k', v) :: d' => if String.eqb k k' then Ok v else dict_get d' k
  end.

(** [d[k] = v]: an existing key keeps its place, a new key goes last. *)
Fixpoint dict_set (d : dict) (k : string) (v : V) : dict :=
  match d with
  | [] => [(k, v)]
  | (k', v') :: d' =>
      if String.eqb k k' then (k', v) :: d' else (k', v') :: dict_set d' k v
  end.
End dict.
Arguments dict V : clear implicits.

(** ** The compiler ([class ACG]) *)

(** An entry of [metadata["derivedTreeConstants"]]. *)
Record Constant : Type := mkConstant { symbol : string; size : nat }.

Record ACG : Type := mkACG {
  tag : TAG;
  signatures : list Signature;
  lexicons : list LexiconObj;
  metadata : dict (list Constant)  (* metadata to store data to be reused *)
}.

(** *** Type inference *)

(** The variables that the local function [traverse] of [typeForTree]
    shares with it. *)
Record TypeState : Type := mkTypeState {
  interior_nodes : list string;
  substitution_nodes : list string;
  footnodeIsNonadjoining : bool
}.

(** [traverse], the local function of [ACG.typeForTree] *)
Fixpoint traverse (tree : Tree) (st : TypeState) : res TypeState :=
  nt ← is_nonterminal (root tree);
  let st :=
    if nt && negb (footnode tree) then
      if 0 <? length (children tree) then
        if negb (nonadjoining tree)
        then mkTypeState (interior_nodes st ++ [root tree +:+ "_A"])
                         (substitution_nodes st) (footnodeIsNonadjoining st)
        else st
      else
        if negb (nonadjoining tree)
        then mkTypeState (interior_nodes st)
                         (substitution_nodes st ++ [root tree +:+ "_S"])
                         (footnodeIsNonadjoining st)
        else st
    else st in
  st ← foldR traverse (children tree) st;
  (* While doing the DFS, check for a nonadjoining footnode. *)
  Ok (if footnode tree && nonadjoining tree
      then mkTypeState (interior_nodes st) (substitution_nodes st) true
      else st).

(** The list [nodes] that [ACG.typeForTree] joins. *)
Definition typeNodes (tree : Tree) (initial : bool) : res (list string) :=
  st ← traverse tree (mkTypeState [] [] false);
  let root :=
    if initial then [root tree +:+ "_S"]
    else if footnodeIsNonadjoining st then [root tree +:+ "_A"]
    else [root tree +:+ "_A -> " +:+ root tree +:+ "_A"] in
  Ok (interior_nodes st ++ substitution_nodes st ++ root).

(** [ACG.typeForTree] *)
Definition typeForTree (tree : Tree) (initial : bool) : res string :=
  nodes ← typeNodes tree initial;
  Ok (Py.join " -> " nodes).

(** [ACG.generateDerivationTrees] *)
Definition generateDerivationTrees (self : ACG) : M ACG :=
  let signature := Signature_init "Derivation_trees" in
  (* Nonterminal nodes each become two types *)
  let signature :=
    foldl (λ signature nonterminal,
             addType (addType signature (nonterminal +:+ "_S")) (nonterminal +:+ "_A"))
          signature (nonterminals (tag self)) in
  (* Define constants for initial trees *)
  signature ← foldM (λ tree signature,
                 constant ← get_identifier tree;
                 t ← lift (typeForTree tree true);
                 mret (addConstant signature constant t))
               (initials (tag self)) signature;
  signature ← foldM (λ tree signature,
                 constant ← get_identifier tree;
                 t ← lift (typeForTree tree false);
                 mret (addConstant signature constant t))
               (auxiliaries (tag self)) signature;
  let signature :=
    foldl (λ signature nonterminal,
             addConstant signature (Some ("I_" +:+ nonterminal)) (nonterminal +:+ "_A"))
          signature (nonterminals (tag self)) in
  mret (mkACG (tag self) (signatures self ++ [signature]) (lexicons self) (metadata self)).

(** *** Branching analysis *)

(** [traverse], the local function of [ACG.generateDerivedTreeConstants]:
    a DFS of the tree that identifies maximal branching. *)
Fixpoint traverseBranching (tree : Tree) (branching : dict nat) : res (dict nat) :=
  nt ← is_nonterminal (root tree);
  if (nt : bool) then
    let numChildren := length (children tree) in
    let root := root tree in
    cur ← dict_get branching root;
    let branching :=
      if cur <? numChildren then dict_set branching root numChildren else branching in
    foldR traverseBranching (children tree) branching
  else Ok branching.

(** The dictionary [branching] once every tree is traversed. *)
Definition maximalBranching (self : ACG) : res (dict nat) :=
  let branching := foldl (λ d nonterminal, dict_set d nonterminal 0) ([] : dict nat)
                         (nonterminals (tag self)) in
  foldR traverseBranching (initials (tag self) ++ auxiliaries (tag self)) branching.

(** [ACG.generateDerivedTreeConstants] *)
Definition generateDerivedTreeConstants (self : ACG) : res ACG :=
  branching ← maximalBranching self;
  let constants :=
    flat_map (λ '(nonterminal, n),
                (λ i, mkConstant (nonterminal +:+ "_" +:+ Py.str i) i) <$> seq 1 n)
             branching in
  Ok (mkACG (tag self) (signatures self) (lexicons self)
            (dict_set (metadata self) "derivedTreeConstants" constants)).

(** [ACG.treeTypeOfLength] *)
Definition treeTypeOfLength (x : nat) : string :=
  let trees := replicate x "tree" in
  Py.join " -> " trees.

(** [ACG.generateDerivedTrees] *)
Definition generateDerivedTrees (self : ACG) : res ACG :=
  let signature := Signature_init "Derived_trees" in
  let TREE := treeTypeOfLength 1 in
  let signature := addType signature TREE in
  (* constants of type T for every terminal symbol *)
  let signature :=
    foldl (λ signature terminal, addConstant signature (Some terminal) TREE)
          signature (terminals (tag self)) in
  derived ← dict_get (metadata self) "derivedTreeConstants";
  let signature :=
    foldl (λ signature constant,
             addConstant signature (Some (symbol constant))
                         (treeTypeOfLength (size constant + 1)))
          signature derived in
  let signature := addConstant signature (Some "Empty") TREE in
  Ok (mkACG (tag self) (signatures self ++ [signature]) (lexicons self) (metadata self)).

(** [ACG.generateStringSignature] *)
Definition generateStringSignature (self : ACG) : ACG :=
  let signature := Signature_init "Strings" in
  let signature := addType signature "o" in
  let signature := addType signature "string = o->o" in
  let signature := addConstant signature (Some "infix + = lambda x y z. x (y z)")
                               "string -> string -> string" in
  let signature :=
    foldl (λ signature terminal, addConstant signature (Some terminal) "string")
          signature (terminals (tag self)) in
  let signature := addConstant signature (Some "E = lambda lvar. lvar") "string" in
  mkACG (tag self) (signatures self ++ [signature]) (lexicons self) (metadata self).

(** *** Term realization *)

(** [copy.deepcopy] of a tree: a new object for every node, with the same
    field values. *)
Fixpoint deepcopy (tree : Tree) : M Tree :=
  identifier ← get_identifier tree;
  varname ← get_varname tree;
  y ← alloc (mkCell identifier varname);
  children ← forM deepcopy (children tree);
  mret (mkTree y children (nonadjoining tree) (footnode tree) (root tree)).

(** The variables that the local function [varTraverse] of
    [lambdaRealizationOfTree] shares with it. *)
Record VarState : Type := mkVarState {
  interiorVars : list Py.value;
  substitutionVars : list Py.value;
  i : nat
}.

(** [varTraverse], a local function of [ACG.lambdaRealizationOfTree] *)
Fixpoint varTraverse (tree : Tree) (st : VarState) : M VarState :=
  _ ← set_varname tree ("lvar" +:+ Py.str (i st));
  nt ← lift (is_nonterminal (root tree));
  st ← (if (nt : bool) then
          st ← (if 0 <? length (children tree) then
                  if negb (nonadjoining tree) then
                    v ← get_varname tree;
                    mret (mkVarState (interiorVars st ++ [v]) (substitutionVars st) (i st))
                  else mret st
                else
                  if negb (nonadjoining tree) then
                    v ← get_varname tree;
                    mret (mkVarState (interiorVars st) (substitutionVars st ++ [v]) (i st))
                  else mret st);
          mret (mkVarState (interiorVars st) (substitutionVars st) (i st + 1))
        else mret st);
  foldM varTraverse (children tree) st.

(** [constructExpression], a local function of [ACG.lambdaRealizationOfTree] *)
Fixpoint constructExpression (tree : Tree) : M string :=
  nt ← lift (is_nonterminal (root tree));
  (* For terminal symbols, just return the symbol *)
  if negb nt then mret (root tree)
  (* If it's a footnode, use special footnode var *)
  else if footnode tree then
    if nonadjoining tree then mret "lvar"
    else
      v ← get_varname tree;
      mret (Py.fmt v +:+ " lvar")
  else
    (* For nonterminal symbols, we need an expression *)
    childExpressions ← forM (λ child,
                          e ← constructExpression child;
                          mret ("(" +:+ e +:+ ")")) (children tree);
    if nonadjoining tree then
      mret ("(" +:+ root tree +:+ "_" +:+ Py.str (length childExpressions) +:+ " "
            +:+ Py.join " " childExpressions +:+ ")")
    else
      v ← get_varname tree;
      mret (Py.fmt v +:+ " (" +:+ root tree +:+ "_" +:+ Py.str (length childExpressions)
            +:+ " " +:+ Py.join " " childExpressions +:+ ")").

(** The list [allVars] of [ACG.lambdaRealizationOfTree], built on the copy
    [tree] of the tree. *)
Definition allVarsOfCopy (tree : Tree) (initial : bool) : M (list Py.value) :=
  (* Get variables *)
  st ← varTraverse tree (mkVarState [] [] 0);
  (* Auxiliary trees need a special footnode variable *)
  let footnodeVars := if initial then [] else [Some "lvar"] in
  mret (interiorVars st ++ substitutionVars st ++ footnodeVars).

(** [ACG.lambdaRealizationOfTree]: returns lambda expression encoding a tree. *)
Definition lambdaRealizationOfTree (tree : Tree) (initial : bool) : M string :=
  (* Use a copy of the tree because we'll mutate it to add vars *)
  tree ← deepcopy tree;
  allVars ← allVarsOfCopy tree initial;
  joined ← lift (Py.join_values " " allVars);
  let lambdaVars := "lambda " +:+ joined +:+ "." in
  expr ← constructExpression tree;
  mret (lambdaVars +:+ " " +:+ expr).

(** [ACG.generateAbsLexicon] *)
Definition generateAbsLexicon (self : ACG) : M ACG :=
  let lexicon := Lexicon_init "Abs" "Derivation_trees" "Derived_trees" in
  let lexicon :=
    foldl (λ lexicon nonterminal,
             addMapping (addMapping lexicon (Some (nonterminal +:+ "_S")) "tree")
                        (Some (nonterminal +:+ "_A")) "tree -> tree")
          lexicon (nonterminals (tag self)) in
  lexicon ← foldM (λ tree lexicon,
               expr ← lambdaRealizationOfTree tree true;
               identifier ← get_identifier tree;
               mret (addMapping lexicon identifier expr))
             (initials (tag self)) lexicon;
  lexicon ← foldM (λ tree lexicon,
               expr ← lambdaRealizationOfTree tree false;
               identifier ← get_identifier tree;
               mret (addMapping lexicon identifier expr))
             (auxiliaries (tag self)) lexicon;
  let identity := "lambda lvar. lvar" in
  let lexicon :=
    foldl (λ lexicon nonterminal,
             addMapping lexicon (Some ("I_" +:+ nonterminal)) identity)
          lexicon (nonterminals (tag self)) in
  mret (mkACG (tag self) (signatures self) (lexicons self ++ [lexicon]) (metadata self)).

(** [concatFunctionOfLength], the local function of [ACG.generateYieldLexicons] *)
Definition concatFunctionOfLength (length : nat) : string :=
  let variables := (λ i, "x" +:+ Py.str i) <$> seq 0 length in
  "lambda " +:+ Py.join " " variables +:+ ". " +:+ Py.join " + " variables.

(** [ACG.generateYieldLexicons] *)
Definition generateYieldLexicons (self : ACG) : res ACG :=
  let lexicon := Lexicon_init "Yield" "Derived_trees" "Strings" in
  let lexicon := addMapping lexicon (Some "tree") "string" in
  let lexicon :=
    foldl (λ lexicon terminal, addMapping lexicon (Some terminal) terminal)
          lexicon (terminals (tag self)) in
  derived ← dict_get (metadata self) "derivedTreeConstants";
  let lexicon :=
    foldl (λ lexicon constant,
             addMapping lexicon (Some (symbol constant))
                        (concatFunctionOfLength (size constant)))
          lexicon derived in
  let lexicon := addMapping lexicon (Some "Empty") "E" in
  Ok (mkACG (tag self) (signatures self) (lexicons self ++ [lexicon]) (metadata self)).

(** [ACG.generateFullLexicon] *)
Definition generateFullLexicon (self : ACG) : ACG :=
  let lexicon := ComposedLexicon "Full" "Abs" "Yield" in
  mkACG (tag self) (signatures self) (lexicons self ++ [lexicon]) (metadata self).

(** [ACG.generateACG] *)
Definition generateACG (self : ACG) : M ACG :=
  self ← generateDerivationTrees self;
  self ← lift (generateDerivedTreeConstants self);
  self ← lift (generateDerivedTrees self);
  let self := generateStringSignature self in
  self ← generateAbsLexicon self;
  self ← lift (generateYieldLexicons self);
  mret (generateFullLexicon self).

(** [ACG.__init__] *)
Definition ACG_init (tag : TAG) : M ACG :=
  generateACG (mkACG tag [] [] []).

(** [ACG.output]: the text written to the output file. *)
Definition ACG_output (self : ACG) : string :=
  write_all Signature_output (signatures self) +:+
  write_all Lexicon_output (lexicons self).

Section Main.
Variable loads : string → res sexp.

(** [main], from the record read from the input file to the text written
    to the output file. *)
Definition main (contents : Contents) : M string :=
  tag ← TAG_init loads contents;
  acg ← ACG_init tag;
  mret (ACG_output acg).

(** The output document of a run that starts in store [σ]. *)
Definition document (contents : Contents) (σ : store) : res string :=
  match main contents σ with
  | Ok (text, _) => Ok text
  | Raise e => Raise e
  end.

(** The signatures and the lexicons of a run that starts in store [σ], in
    the order of their declaration. *)
Definition compiled (contents : Contents) (σ : store) :
    res (list Signature * list LexiconObj) :=
  match (tag ← TAG_init loads contents; ACG_init tag) σ with
  | Ok (acg, _) => Ok (signatures acg, lexicons acg)
  | Raise e => Raise e
  end.
End Main.

(** ** Vocabulary of the specification *)

(** *** Symbols *)

(** A symbol that [is_nonterminal] classifies as a nonterminal. *)
Definition upper_initial (s : string) : bool :=
  match s with
  | EmptyString => false
  | String c _ => Py.isupper c
  end.

Fixpoint last_char (s : string) : option ascii :=
  match s with
  | EmptyString => None
  | String c s' => match last_char s' with None => Some c | Some d => Some d end
  end.

(** The last character of [s], if any, is none of [chars]. *)
Definition clean_end (s chars : string) : bool :=
  match last_char s with
  | Some c => negb (Py.char_in c chars)
  | None => true
  end.

(** *** Trees and their objects *)

(** The nodes of a tree, in depth-first pre-order. *)
Fixpoint nodes (t : Tree) : list Tree :=
  t :: flat_map nodes (children t).

(** The references of the objects of a tree. *)
Definition refs (t : Tree) : list addr := ref <$> nodes t.

(** Every symbol of the tree has a first character. *)
Definition nonempty_roots (t : Tree) : Prop :=
  Forall (λ n, root n ≠ "") (nodes t).

(** Every object of the tree is in the store. *)
Definition allocated (σ : store) (t : Tree) : Prop :=
  Forall (λ a, a < length σ) (refs t).

(** What the traversals read of a node: its symbol, its flags and the
    number of its children. *)
Definition label (n : Tree) : string * bool * bool * nat :=
  (root n, nonadjoining n, footnode n, length (children n)).

(** The tree with every reference moved by [k]. *)
Fixpoint shift (k : nat) (t : Tree) : Tree :=
  mkTree (k + ref t) (shift k <$> children t) (nonadjoining t) (footnode t) (root t).

(** The grammar with every reference moved by [k]. *)
Definition shift_tag (k : nat) (self : TAG) : TAG :=
  mkTAG (terminals self) (nonterminals self)
        (shift k <$> initials self) (shift k <$> auxiliaries self)
        (distinguished self).

(** The compiler state with every reference moved by [k]. *)
Definition shift_acg (k : nat) (self : ACG) : ACG :=
  mkACG (shift_tag k (tag self)) (signatures self) (lexicons self) (metadata self).

(** *** Sites of a tree *)

(** Adjunction sites: nonterminal, non-footnode, non-nonadjoining nodes
    with children. *)
Definition is_adjunction_site (n : Tree) : bool :=
  upper_initial (root n) && negb (footnode n) && negb (nonadjoining n)
  && (0 <? length (children n)).

(** Substitution sites: nonterminal, non-footnode, non-nonadjoining leaves. *)
Definition is_substitution_site (n : Tree) : bool :=
  upper_initial (root n) && negb (footnode n) && negb (nonadjoining n)
  && (length (children n) =? 0).

(** The adjunction sites and the substitution sites of a tree, in
    depth-first pre-order. *)
Definition adjunction_sites (t : Tree) : list Tree :=
  filter (λ n, is_adjunction_site n = true) (nodes t).

Definition substitution_sites (t : Tree) : list Tree :=
  filter (λ n, is_substitution_site n = true) (nodes t).

(** Some footnode of the tree is marked nonadjoining. *)
Definition has_nonadjoining_footnode (t : Tree) : bool :=
  existsb (λ n, footnode n && nonadjoining n) (nodes t).

(** The nodes that receive a bound variable of their own: nonterminal nodes
    that are not marked nonadjoining. *)
Definition is_variable_site (n : Tree) : bool :=
  upper_initial (root n) && negb (nonadjoining n).

Definition variable_sites (t : Tree) : list Tree :=
  filter (λ n, is_variable_site n = true) (nodes t).

(** The nodes that C2 counts: nonterminal nodes that are neither footnodes
    nor marked nonadjoining. *)
Definition is_plain_site (n : Tree) : bool :=
  upper_initial (root n) && negb (footnode n) && negb (nonadjoining n).

Definition plain_sites (t : Tree) : list Tree :=
  filter (λ n, is_plain_site n = true) (nodes t).

(** *** Branching *)

(** The nodes that the branching analysis visits: those all of whose
    ancestors, and themselves, are nonterminals. *)
Fixpoint analysed (t : Tree) : list Tree :=
  if upper_initial (root t) then t :: flat_map analysed (children t) else [].

(** The largest number of children of a node labelled [N] among [ns]. *)
Definition max_arity (ns : list Tree) (N : string) : nat :=
  max_list_with (λ n, length (children n)) (filter (λ n, root n = N) ns).

(** [maxChildren(N)] over the nodes that the analysis visits. *)
Definition maxChildren (self : ACG) (N : string) : nat :=
  max_arity (flat_map analysed (initials (tag self) ++ auxiliaries (tag self))) N.

(** [maxChildren(N)] over all the nodes of all the trees. *)
Definition maxChildrenAll (self : ACG) (N : string) : nat :=
  max_arity (flat_map nodes (initials (tag self) ++ auxiliaries (tag self))) N.

(** *** Reading the text of a term or of a type *)

(** [s] without the prefix [p], if it starts with it. *)
Fixpoint strip_prefix (p s : string) : option string :=
  match p, s with
  | EmptyString, _ => Some s
  | String c p', String d s' => if Ascii.eqb c d then strip_prefix p' s' else None
  | String _ _, EmptyString => None
  end.

(** The part of [s] before the first occurrence of [c]. *)
Fixpoint before (c : ascii) (s : string) : string :=
  match s with
  | EmptyString => EmptyString
  | String d s' => if Ascii.eqb d c then EmptyString else String d (before c s')
  end.

(** [s.split(sep)] for a one-character separator. *)
Fixpoint split_on (sep : ascii) (s : string) : list string :=
  match s with
  | EmptyString => [EmptyString]
  | String c s' =>
      if Ascii.eqb c sep then EmptyString :: split_on sep s'
      else match split_on sep s' with
           | w :: ws => String c w :: ws
           | [] => [String c EmptyString]
           end
  end.

(** [s.split()]: the words of [s] between spaces. *)
Definition words (s : string) : list string :=
  filter (λ w, w ≠ EmptyString) (split_on " " s).

(** The variables bound by the prefix [lambda v1 ... vn.] of a term. *)
Definition bound_variables (term : string) : list string :=
  match strip_prefix "lambda " term with
  | Some rest => words (before "." rest)
  | None => []
  end.

(** Every character of [s] satisfies [P]. *)
Fixpoint all_chars (P : ascii → bool) (s : string) : bool :=
  match s with
  | EmptyString => true
  | String c s' => P c && all_chars P s'
  end.

(** A decimal digit; a character of a name. *)
Definition is_digit (c : ascii) : bool := Py.char_in c "0123456789".

Definition name_char (c : ascii) : bool :=
  negb (Ascii.eqb c " ") && negb (Ascii.eqb c ".").

(** A variable name: not empty, without a space or a dot. *)
Definition name_ok (s : string) : bool :=
  negb (String.eqb s "") && all_chars name_char s.

(** A value that is a variable name. *)
Definition is_name_value (v : Py.value) : Prop :=
  ∃ s, v = Some s ∧ name_ok s = true.

(** The words of an arrow type. *)
Fixpoint arrow_words (l : list string) : list string :=
  match l with
  | [] => []
  | [x] => [x]
  | x :: rest => x :: "->" :: arrow_words rest
  end.

(** ** What the traversals guarantee *)

(** The argument types that [traverse] records over the trees [ts], and the
    state that it reaches. *)
Definition adjunction_types (ts : list Tree) : list string :=
  (λ n, root n +:+ "_A") <$> filter (λ n, is_adjunction_site n = true) (flat_map nodes ts).

Definition substitution_types (ts : list Tree) : list string :=
  (λ n, root n +:+ "_S") <$> filter (λ n, is_substitution_site n = true) (flat_map nodes ts).

Definition nonadjoining_footnode_in (ts : list Tree) : bool :=
  existsb (λ n, footnode n && nonadjoining n) (flat_map nodes ts).

Definition traversed (ts : list Tree) (st : TypeState) : TypeState :=
  mkTypeState (interior_nodes st ++ adjunction_types ts)
              (substitution_nodes st ++ substitution_types ts)
              (footnodeIsNonadjoining st || nonadjoining_footnode_in ts).

(** What [varTraverse] does at one node, on the variables it shares. *)
Definition var_step (st : VarState) (n : Tree) : VarState :=
  if upper_initial (root n) then
    let v := Some ("lvar" +:+ Py.str (i st)) in
    if nonadjoining n then mkVarState (interiorVars st) (substitutionVars st) (i st + 1)
    else if 0 <? length (children n)
    then mkVarState (interiorVars st ++ [v]) (substitutionVars st) (i st + 1)
    else mkVarState (interiorVars st) (substitutionVars st ++ [v]) (i st + 1)
  else st.

(** The copy of a list of trees: new objects only, with the labels of the
    originals. *)
Definition copies (σ : store) (ts ts' : list Tree) (new : list cell) : Prop :=
  length ts' = length ts ∧
  label <$> flat_map nodes ts' = label <$> flat_map nodes ts ∧
  Forall (λ a, length σ ≤ a < length σ + length new) (ref <$> flat_map nodes ts').

(** What a run of [varTraverse] over the trees [ts] guarantees. *)
Definition var_post (ts : list Tree) (st : VarState) (σ : store)
    (r : res (VarState * store)) : Prop :=
  match r with
  | Ok (st', σ') =>
      length σ' = length σ ∧
      (∀ a, a ∉ ref <$> flat_map nodes ts → σ' !! a = σ !! a) ∧
      (Forall (λ a, a < length σ) (ref <$> flat_map nodes ts) →
       st' = foldl var_step st (flat_map nodes ts))
  | Raise _ => ¬ Forall (λ n, root n ≠ "") (flat_map nodes ts)
  end.

(** What a run of [constructExpression] guarantees: the store is read only,
    and the run raises only at a symbol without a first character. *)
Definition expr_post {A} (ts : list Tree) (σ : store) (r : res (A * store)) : Prop :=
  match r with
  | Ok (_, σ') => σ' = σ
  | Raise _ => ¬ Forall (λ n, root n ≠ "") (flat_map nodes ts)
  end.

(** The entry of [N] in [branching], [0] when there is none. *)
Definition bval (d : dict nat) (N : string) : nat :=
  match dict_get d N with Ok v => v | Raise _ => 0 end.

(** What a run of the branching analysis over the trees [ts] guarantees. *)
Definition branching_post (ts : list Tree) (b : dict nat) (r : res (dict nat)) : Prop :=
  match r with
  | Ok b' =>
      b'.*1 = b.*1 ∧
      (∀ N, bval b' N = bval b N `max` max_arity (flat_map analysed ts) N) ∧
      Forall (λ n, root n ∈ b.*1) (flat_map analysed ts)
  | Raise KeyError => Exists (λ n, root n ∉ b.*1) (flat_map analysed ts)
  | Raise IndexError => ¬ Forall (λ n, root n ≠ "") (flat_map nodes ts)
  | Raise _ => False
  end.

(** The result of a run, with its value mapped. *)
Definition res_map {A B} (h : A → B) (r : res A) : res B :=
  match r with Ok a => Ok (h a) | Raise e => Raise e end.

(** The outcome of a run, seen from a store that has [pre] before it. *)
Definition shifted_run {A} (pre : store) (h : A → A) (r : res (A * store)) :
    res (A * store) :=
  match r with
  | Ok (a, σ') => Ok (h a, pre ++ σ')
  | Raise e => Raise e
  end.

(** ** The grammars of the scenarios *)

(** The tree [S (NP) (VP (sleeps))] *)
Definition tree_S_NP_VP : Tree :=
  mkTree 3 [mkTree 0 [] false false "NP";
            mkTree 2 [mkTree 1 [] false false "sleeps"] false false "VP"]
         false false "S".

(** The tree [NP (john)] *)
Definition tree_NP_john : Tree :=
  mkTree 5 [mkTree 4 [] false false "john"] false false "NP".

(** The tree [VP (adv) (VP* )], whose second child is a footnode *)
Definition tree_VP_adv_foot : Tree :=
  mkTree 2 [mkTree 0 [] false false "adv"; mkTree 1 [] false true "VP"]
         false false "VP".

(** The tree [S (VP (adv) (VP*_NA ))], whose footnode is nonadjoining *)
Definition tree_S_VP_adv_footNA : Tree :=
  mkTree 3 [mkTree 2 [mkTree 0 [] false false "adv"; mkTree 1 [] true true "VP"]
                   false false "VP"]
         false false "S".

(** A store that holds a tree of up to four nodes. *)
Definition store4 : store := replicate 4 (mkCell None None).

(** The grammar of scenario 1, once parsed. *)
Definition tag_john_sleeps : TAG :=
  mkTAG ["john"; "sleeps"] ["S"; "NP"; "VP"] [tree_S_NP_VP; tree_NP_john] [] "S".

(** A grammar whose only tree is [a (NP (b) (c))]: a nonterminal with two
    children below a lowercase symbol. *)
Definition tag_below_terminal : TAG :=
  mkTAG ["a"; "b"; "c"] ["NP"]
        [mkTree 3 [mkTree 2 [mkTree 0 [] false false "b"; mkTree 1 [] false false "c"]
                          false false "NP"]
                false false "a"]
        [] "NP".

(** A grammar whose only tree is [a (B)], where [B] is not declared. *)
Definition tag_undeclared_below_terminal : TAG :=
  mkTAG ["a"] [] [mkTree 1 [mkTree 0 [] false false "B"] false false "a"] [] "S".

(** A grammar whose only tree is the tree of the description [*]: a
    footnode whose symbol is empty. *)
Definition tag_empty_symbol : TAG :=
  mkTAG [] [] [mkTree 0 [] false true ""] [] "S".

(** A grammar whose only tree is [S (B)], where [B] is not declared. *)
Definition tag_undeclared : TAG :=
  mkTAG [] ["S"] [mkTree 1 [mkTree 0 [] false false "B"] false false "S"] [] "S".

(** What [sexpdata.loads] returns on the tree descriptions of the
    scenarios. *)
Definition loads_scenarios (text : string) : res sexp :=
  if String.eqb text "(S (NP) (VP (sleeps)))" then
    Ok (SList [Symbol "S"; SList [Symbol "NP"];
               SList [Symbol "VP"; SList [Symbol "sleeps"]]])
  else if String.eqb text "(NP (john))" then
    Ok (SList [Symbol "NP"; SList [Symbol "john"]])
  else if String.eqb text "(VP (adv) (VP*))" then
    Ok (SList [Symbol "VP"; SList [Symbol "adv"]; SList [Symbol "VP*"]])
  else Raise AttributeError.

(** The input record of scenario 1. *)
Definition contents_scenario1 : Contents :=
  mkContents ["john"; "sleeps"] ["S"; "NP"; "VP"]
             ["S (NP) (VP (sleeps))"; "NP (john)"] [] "S".

(** Scenario 1 with an auxiliary tree. *)
Definition contents_with_auxiliary : Contents :=
  mkContents ["john"; "sleeps"; "adv"] ["S"; "NP"; "VP"]
             ["S (NP) (VP (sleeps))"; "NP (john)"] ["VP (adv) (VP*)"] "S".

(** ** Vocabulary of the further properties *)

(** *** The parser and the grammar object *)

(** A symbol that the parser accepts: a list starts with a symbol, and no
    symbol is empty. *)
Fixpoint wf_sexp (s : sexp) : bool :=
  match s with
  | Symbol x => negb (String.eqb x "")
  | SList (Symbol x :: tl) => negb (String.eqb x "") && forallb wf_sexp tl
  | _ => false
  end.

(** The text that [parseTree] hands to [sexpdata.loads]. *)
Definition parenthesised (tree : string) : string :=
  if Py.startswith tree "(" && Py.endswith tree ")" then tree
  else "(" +:+ tree +:+ ")".

(** The tree descriptions that the parser turns into a tree. *)
Definition accepted (loads : string → res sexp) (tree : string) : bool :=
  match loads (parenthesised tree) with
  | Ok data => wf_sexp data
  | Raise _ => false
  end.

(** The trees of a grammar, initial trees first. *)
Definition trees (self : TAG) : list Tree := initials self ++ auxiliaries self.

(** The identifier of a tree in a store. *)
Definition identifier_of (σ : store) (t : Tree) : Py.value := σ !! ref t ≫= identifier.

(** *** Binders *)

(** The nonterminal nodes of a tree in depth-first pre-order, each with its
    rank: the value of the counter [i] of [varTraverse] when it reaches the
    node. *)
Definition ranked (c : nat) (ns : list Tree) : list (nat * Tree) :=
  let ups := filter (λ n, upper_initial (root n) = true) ns in
  zip (seq c (length ups)) ups.

(** The name of a ranked node. *)
Definition lvar_of (p : nat * Tree) : string := "lvar" +:+ Py.str p.1.

(** The ranked nodes that get a variable in [interiorVars] and in
    [substitutionVars]. *)
Definition is_interior_var (p : nat * Tree) : bool :=
  negb (nonadjoining p.2) && (0 <? length (children p.2)).

Definition is_leaf_var (p : nat * Tree) : bool :=
  negb (nonadjoining p.2) && negb (0 <? length (children p.2)).

(** The variables of the binder of the term of a tree: the nonterminal
    nodes that are not marked nonadjoining, those with children first, then
    the leaves, each named after its rank, then [lvar] for an auxiliary
    tree. *)
Definition binder (t : Tree) (initial : bool) : list string :=
  let sites := ranked 0 (nodes t) in
  (lvar_of <$> filter (λ p, is_interior_var p = true) sites) ++
  (lvar_of <$> filter (λ p, is_leaf_var p = true) sites) ++
  (if initial then [] else ["lvar"]).

(** *** The generated signatures and lexicons *)

(** The text of the type of a tree, empty when none is inferred. *)
Definition type_text (t : Tree) (initial : bool) : string :=
  match typeForTree t initial with Ok ty => ty | Raise _ => "" end.

(** The [Derivation_trees] signature of a grammar whose objects are in the
    store [σ]. *)
Definition derivation_signature (self : TAG) (σ : store) : Signature :=
  mkSignature "Derivation_trees"
    (flat_map (λ N, [N +:+ "_S"; N +:+ "_A"]) (nonterminals self))
    (((λ t, (identifier_of σ t, type_text t true)) <$> initials self) ++
     ((λ t, (identifier_of σ t, type_text t false)) <$> auxiliaries self) ++
     ((λ N, (Some ("I_" +:+ N), N +:+ "_A")) <$> nonterminals self)).

(** The [Derived_trees] signature for the constructor constants [derived]. *)
Definition derived_signature (self : TAG) (derived : list Constant) : Signature :=
  mkSignature "Derived_trees" ["tree"]
    (((λ t, (Some t, "tree")) <$> terminals self) ++
     ((λ c, (Some (symbol c), treeTypeOfLength (size c + 1))) <$> derived) ++
     [(Some "Empty", "tree")]).

(** The [Strings] signature. *)
Definition strings_signature (self : TAG) : Signature :=
  mkSignature "Strings" ["o"; "string = o->o"]
    ([(Some "infix + = lambda x y z. x (y z)", "string -> string -> string")] ++
     ((λ t, (Some t, "string")) <$> terminals self) ++
     [(Some "E = lambda lvar. lvar", "string")]).

(** The [Yield] lexicon for the constructor constants [derived]. *)
Definition yield_lexicon (self : TAG) (derived : list Constant) : LexiconObj :=
  Lexicon "Yield" "Derived_trees" "Strings"
    ([(Some "tree", "string")] ++
     ((λ t, (Some t, t)) <$> terminals self) ++
     ((λ c, (Some (symbol c), concatFunctionOfLength (size c))) <$> derived) ++
     [(Some "Empty", "E")]).

(** The constructor constants of a dictionary [branching]. *)
Definition constants_of (branching : dict nat) : list Constant :=
  flat_map (λ '(nonterminal, n),
              (λ i, mkConstant (nonterminal +:+ "_" +:+ Py.str i) i) <$> seq 1 n)
           branching.

(** *** Parentheses *)

(** Neither an opening nor a closing parenthesis. *)
Definition no_paren (c : ascii) : bool :=
  negb (Ascii.eqb c "(") && negb (Ascii.eqb c ")").

(** A text without parentheses. *)
Definition paren_free (s : string) : bool := all_chars no_paren s.

(** The nesting depth after reading [s] from depth [d]; [None] when a
    closing parenthesis has no opening one. *)
Fixpoint paren_depth (s : string) (d : nat) : option nat :=
  match s with
  | EmptyString => Some d
  | String c s' =>
      if Ascii.eqb c "(" then paren_depth s' (S d)
      else if Ascii.eqb c ")" then
        match d with 0 => None | S d' => paren_depth s' d' end
      else paren_depth s' d
  end.

(** A text whose parentheses match. *)
Definition balanced (s : string) : Prop := paren_depth s 0 = Some 0.

(** The variable name of the object at [a] has no parenthesis. *)
Definition named (σ : store) (a : addr) : Prop :=
  paren_free (Py.fmt (σ !! a ≫= varname)) = true.

(** * Properties *)

(** ** Python strings *)

Local Arguments String.append !_ _ / : simpl nomatch.

Section strings.
Implicit Types s b suf chars : string.


Lemma app_assoc s1 s2 s3 : (s1 +:+ s2) +:+ s3 = s1 +:+ s2 +:+ s3.
Proof. induction s1 as [|c s1 IH]; simpl; [done | by rewrite IH]. Qed.

Lemma endswith_app b suf : Py.endswith (b +:+ suf) suf = true.
Proof.
  induction b as [|c b IH]; cbn [Py.endswith String.append].
  - destruct suf; cbn [Py.endswith]; by rewrite String.eqb_refl.
  - rewrite IH. by destruct (String.eqb _ _).
Qed.

Lemma endswith_inv s suf : Py.endswith s suf = true → ∃ p, s = p +:+ suf.
Proof.
  induction s as [|c s IH].
  - destruct suf; simpl; [by exists "" | done].
  - cbn [Py.endswith]. destruct (String.eqb (String c s) suf) eqn:E.
    + apply String.eqb_eq in E as <-. by exists "".
    + intros [p ->]%IH. by exists (String c p).
Qed.

Lemma last_char_app b suf :
  suf ≠ "" → last_char (b +:+ suf) = last_char suf.
Proof.
  intros Hsuf. induction b as [|c b IH]; simpl; [done|].
  rewrite IH. destruct suf; [done|]. simpl. by destruct (last_char suf).
Qed.

Lemma endswith_last_char s suf :
  suf ≠ "" → Py.endswith s suf = true → last_char s = last_char suf.
Proof. intros Hsuf [p ->]%endswith_inv. by apply last_char_app. Qed.

Lemma endswith_clean_end s suf chars c :
  last_char suf = Some c → Py.char_in c chars = true →
  clean_end s chars = true → Py.endswith s suf = false.
Proof.
  intros Hc Hin Hs. destruct (Py.endswith s suf) eqn:E; [|done].
  apply endswith_last_char in E; [|by intros ->].
  unfold clean_end in Hs. rewrite E, Hc, Hin in Hs. done.
Qed.

Lemma rstrip_all suf chars :
  Forall (λ c, Py.char_in c chars = true) (String.list_ascii_of_string suf) →
  Py.rstrip suf chars = "".
Proof.
  induction suf as [|c suf IH]; simpl; [done|].
  intros [Hc Hsuf]%Forall_cons. by rewrite IH, Hc.
Qed.

Lemma rstrip_app b suf chars :
  Forall (λ c, Py.char_in c chars = true) (String.list_ascii_of_string suf) →
  Py.rstrip (b +:+ suf) chars = Py.rstrip b chars.
Proof.
  intros Hsuf. induction b as [|c b IH]; simpl.
  - by apply rstrip_all.
  - by rewrite IH.
Qed.

Lemma rstrip_clean b chars : clean_end b chars = true → Py.rstrip b chars = b.
Proof.
  unfold clean_end. induction b as [|c b IH]; simpl; [done|].
  destruct (last_char b) as [d|] eqn:E.
  - intros Hd. rewrite IH by done. destruct b; [done | done].
  - destruct b; [|by simpl in E; destruct (last_char b)].
    simpl. by intros ->%negb_true_iff.
Qed.

Lemma upper_initial_app b s : upper_initial b = true → upper_initial (b +:+ s) = true.
Proof. by destruct b. Qed.

Lemma is_nonterminal_upper s :
  s ≠ "" → is_nonterminal s = Ok (upper_initial s).
Proof. by destruct s. Qed.

Lemma clean_end_app b suf chars :
  suf ≠ "" → clean_end (b +:+ suf) chars = clean_end suf chars.
Proof. intros. unfold clean_end. by rewrite last_char_app. Qed.
End strings.

(** ** The monads *)

Ltac munfold :=
  cbv [mbind M_bind res_bind mret M_ret res_ret lift alloc
       get_identifier set_identifier get_varname set_varname].

Tactic Notation "munfold" "in" hyp(H) :=
  cbv [mbind M_bind res_bind mret M_ret res_ret lift alloc
       get_identifier set_identifier get_varname set_varname] in H.

Lemma M_bind_eq {A B} (m : M A) (f : A → M B) σ :
  (m ≫= f) σ = match m σ with Ok (a, σ') => f a σ' | Raise e => Raise e end.
Proof. reflexivity. Qed.

Lemma res_bind_eq {A B} (m : res A) (f : A → res B) :
  m ≫= f = match m with Ok a => f a | Raise e => Raise e end.
Proof. reflexivity. Qed.

Lemma forM_cons {A B} (f : A → M B) x l σ :
  forM f (x :: l) σ =
    match f x σ with
    | Ok (y, σ1) =>
        match forM f l σ1 with
        | Ok (ys, σ2) => Ok (y :: ys, σ2)
        | Raise e => Raise e
        end
    | Raise e => Raise e
    end.
Proof. cbn [forM]. munfold. destruct (f x σ) as [[y σ1]|]; [|done]. by destruct (forM f l σ1) as [[]|]. Qed.

Lemma foldM_cons {A B} (f : A → B → M B) x l b σ :
  foldM f (x :: l) b σ =
    match f x b σ with
    | Ok (b', σ1) => foldM f l b' σ1
    | Raise e => Raise e
    end.
Proof. cbn [foldM]. munfold. by destruct (f x b σ) as [[]|]. Qed.

Lemma foldR_cons {A B} (f : A → B → res B) x l b :
  foldR f (x :: l) b =
    match f x b with
    | Ok b' => foldR f l b'
    | Raise e => Raise e
    end.
Proof. reflexivity. Qed.

Lemma Tree_ind' (P : Tree → Prop) :
  (∀ a cs na fn r, Forall P cs → P (mkTree a cs na fn r)) → ∀ t, P t.
Proof.
  intros H. fix IH 1. intros [a cs na fn r]. apply H.
  induction cs as [|c cs IHcs]; constructor; [apply IH | apply IHcs].
Qed.

(** ** Tree construction: the [_NA] and [*] suffixes (C3) *)

Lemma Tree_init_eq sym cs σ :
  sym ≠ "" →
  Tree_init sym cs σ =
    let nonadjoining := upper_initial sym && Py.endswith sym "_NA" in
    let root := if nonadjoining then Py.rstrip sym "_NA" else sym in
    let footnode := Py.endswith root "*" in
    let root := if footnode then Py.rstrip root "*" else root in
    Ok (mkTree (length σ) cs nonadjoining footnode root, σ ++ [mkCell None None]).
Proof.
  intros Hsym. unfold Tree_init. munfold.
  rewrite is_nonterminal_upper by done.
  destruct (upper_initial sym && Py.endswith sym "_NA"); cbv zeta;
    by destruct (Py.endswith _ "*").
Qed.

Lemma Tree_init_empty cs σ : Tree_init "" cs σ = Raise IndexError.
Proof. reflexivity. Qed.

Lemma rstrip_suffix s chars :
  ∃ stripped, s = Py.rstrip s chars +:+ stripped ∧
              all_chars (λ c, Py.char_in c chars) stripped = true.
Proof.
  induction s as [|c s (suf & Hs & Hsuf)]; [by exists ""|].
  cbn [Py.rstrip]. destruct (Py.rstrip s chars) as [|d r] eqn:E.
  - cbn [String.append] in Hs. subst s. destruct (Py.char_in c chars) eqn:Hc.
    + exists (String c suf). cbn [all_chars String.append]. by rewrite Hc, Hsuf.
    + by exists suf.
  - exists suf. split; [|done]. cbn [String.append] in Hs |- *. by f_equal.
Qed.

Lemma app_empty_r s : s +:+ "" = s.
Proof. induction s as [|c s IH]; cbn [String.append]; [done | by rewrite IH]. Qed.

Lemma endswith_star_NA x : Py.endswith (x +:+ "*") "_NA" = false.
Proof.
  apply (endswith_clean_end _ "_NA" "_NA" "A"); [done | done |].
  by rewrite clean_end_app.
Qed.

Lemma endswith_NA_star x : Py.endswith (x +:+ "_NA") "*" = false.
Proof.
  apply (endswith_clean_end _ "*" "*" "*"); [done | done |].
  by rewrite clean_end_app.
Qed.

(** C3, as the code has it.  The flags: a trailing [_NA] sets the
    nonadjoining flag exactly on a symbol that starts with an uppercase
    letter; the footnode flag is set exactly by a trailing [*], of the
    symbol when the node is not nonadjoining, and of what precedes [_NA]
    when it is (unless that part ends in a [*] followed by a run of the
    characters [_], [N], [A]); no flag is set otherwise.  The root: a
    symbol that sets no flag is its own root, [_NA] included when the
    symbol does not start with an uppercase letter; [b*] has the root [b]
    for every [b] that does not end in [*]; for [b] that starts with an
    uppercase letter, [b*_NA] has the root [b] when [b] does not end in
    [*], and [b_NA] has the root [b] when [b] ends in none of [_], [N],
    [A], [*]. *)
Theorem Tree_init_suffixes (b : string) (cs : list Tree) (σ : store) :
  let σ' := σ ++ [mkCell None None] in
  (b ≠ "" → Py.endswith b "*" = false →
   upper_initial b && Py.endswith b "_NA" = false →
   Tree_init b cs σ = Ok (mkTree (length σ) cs false false b, σ')) ∧
  (clean_end b "*" = true →
   Tree_init (b +:+ "*") cs σ = Ok (mkTree (length σ) cs false true b, σ')) ∧
  (upper_initial b = true → clean_end b "_NA*" = true →
   Tree_init (b +:+ "_NA") cs σ = Ok (mkTree (length σ) cs true false b, σ')) ∧
  (upper_initial b = true → clean_end b "*" = true →
   Tree_init (b +:+ "*_NA") cs σ = Ok (mkTree (length σ) cs true true b, σ')) ∧
  (upper_initial b = false →
   Tree_init (b +:+ "_NA") cs σ =
     Ok (mkTree (length σ) cs false false (b +:+ "_NA"), σ')) ∧
  (∀ sym t σ1 σ2, Tree_init sym cs σ1 = Ok (t, σ2) →
     (nonadjoining t = true ↔
        upper_initial sym = true ∧ Py.endswith sym "_NA" = true) ∧
     (nonadjoining t = false →
        (footnode t = true ↔ Py.endswith sym "*" = true)) ∧
     (nonadjoining t = false → footnode t = false → root t = sym) ∧
     (nonadjoining t = true →
        ∀ p, sym = p +:+ "_NA" →
             ((∀ r w, p = r +:+ "*" +:+ w →
                      all_chars (λ c, Py.char_in c "_NA") w = true → w = "") →
              (footnode t = true ↔ Py.endswith p "*" = true)) ∧
             (clean_end p "_NA" = true → footnode t = false → root t = p)) ∧
     (footnode t = true →
        ∀ q, sym = q +:+ "*" ∨ sym = q +:+ "*_NA" → clean_end q "*" = true →
             root t = q)).
Proof.
  intros σ'.
  assert (Hsplit : ∀ x, x +:+ "*_NA" = (x +:+ "*") +:+ "_NA")
    by (intros x; by rewrite app_assoc).
  split_and!.
  - intros Hb Hstar HNA. rewrite Tree_init_eq by done. cbv zeta.
    by rewrite HNA, Hstar.
  - intros Hclean. rewrite Tree_init_eq by (by destruct b). cbv zeta.
    rewrite endswith_star_NA, andb_false_r.
    rewrite endswith_app, rstrip_app by (repeat constructor).
    by rewrite rstrip_clean.
  - intros Hup Hclean.
    assert (HNA : clean_end b "_NA" = true).
    { unfold clean_end in *. destruct (last_char b) as [c|]; [|done].
      cbn [Py.char_in] in *. repeat destruct (Ascii.eqb c _); done. }
    assert (Hbstar : Py.endswith b "*" = false).
    { apply (endswith_clean_end b "*" "*" "*"); [done | done |].
      unfold clean_end in *. destruct (last_char b) as [c|]; [|done].
      cbn [Py.char_in] in *. repeat destruct (Ascii.eqb c _); done. }
    rewrite Tree_init_eq by (by destruct b). cbv zeta.
    rewrite upper_initial_app, endswith_app by done. cbn [andb].
    rewrite rstrip_app by (repeat constructor).
    by rewrite rstrip_clean, Hbstar.
  - intros Hup Hclean. rewrite Tree_init_eq by (by destruct b). cbv zeta.
    rewrite Hsplit, upper_initial_app, endswith_app; [|by apply upper_initial_app].
    cbn [andb]. rewrite rstrip_app by (repeat constructor).
    rewrite (rstrip_clean (b +:+ "*")) by (by rewrite clean_end_app).
    rewrite endswith_app, rstrip_app by (repeat constructor).
    by rewrite rstrip_clean.
  - intros Hup. rewrite Tree_init_eq by (by destruct b). cbv zeta.
    assert (upper_initial (b +:+ "_NA") = false) as -> by (by destruct b).
    cbn [andb]. by rewrite endswith_NA_star.
  - intros s t σ1 σ2. destruct (decide (s = "")) as [->|Hs]; [done|].
    rewrite Tree_init_eq by done. cbv zeta. intros Heq. injection Heq as <- _.
    cbn [nonadjoining footnode root]. split_and!.
    + by rewrite andb_true_iff.
    + by intros ->.
    + intros ->. by intros ->.
    + intros -> p Hp. rewrite Hp. rewrite rstrip_app by (repeat constructor).
      split.
      * intros Hform. split.
        -- intros [r Hr]%endswith_inv.
           destruct (rstrip_suffix p "_NA") as (w & Hw & Hall).
           rewrite Hr, app_assoc in Hw. rewrite (Hform r w Hw Hall), app_empty_r in Hw.
           rewrite Hw. apply endswith_app.
        -- intros Hstar. rewrite rstrip_clean; [done|].
           unfold clean_end. by rewrite (endswith_last_char p "*").
      * intros Hclean. rewrite rstrip_clean by done. by intros ->.
    + intros Hfoot q [Hq|Hq] Hclean; rewrite Hq in Hfoot |- *.
      * rewrite endswith_star_NA, andb_false_r in Hfoot |- *.
        rewrite endswith_app, rstrip_app by (repeat constructor).
        by rewrite rstrip_clean.
      * rewrite Hsplit in Hfoot |- *.
        destruct (upper_initial ((q +:+ "*") +:+ "_NA")).
        -- rewrite endswith_app in Hfoot |- *. cbn [andb] in Hfoot |- *.
           rewrite rstrip_app by (repeat constructor).
           rewrite (rstrip_clean (q +:+ "*")) by (by rewrite clean_end_app).
           rewrite endswith_app, rstrip_app by (repeat constructor).
           by rewrite rstrip_clean.
        -- cbn [andb] in Hfoot. by rewrite endswith_NA_star in Hfoot.
Qed.

Lemma Tree_init_suffixes_witness :
  let blank := [mkCell None None] in
  Tree_init "NP" [] [] = Ok (mkTree 0 [] false false "NP", blank) ∧
  Tree_init "NP*" [] [] = Ok (mkTree 0 [] false true "NP", blank) ∧
  Tree_init "NP_NA" [] [] = Ok (mkTree 0 [] true false "NP", blank) ∧
  Tree_init "NP*_NA" [] [] = Ok (mkTree 0 [] true true "NP", blank) ∧
  Tree_init "N" [] [] = Ok (mkTree 0 [] false false "N", blank) ∧
  Tree_init "N*" [] [] = Ok (mkTree 0 [] false true "N", blank) ∧
  Tree_init "N*_NA" [] [] = Ok (mkTree 0 [] true true "N", blank) ∧
  Tree_init "john*" [] [] = Ok (mkTree 0 [] false true "john", blank) ∧
  Tree_init "john_NA" [] [] = Ok (mkTree 0 [] false false "john_NA", blank).
Proof.
  intros blank.
  destruct (Tree_init_suffixes "NP" [] []) as (H1 & H2 & H3 & H4 & _).
  destruct (Tree_init_suffixes "N" [] []) as (H5 & H6 & _ & H7 & _).
  destruct (Tree_init_suffixes "john" [] []) as (_ & H8 & _ & _ & H9 & _).
  split; [exact (H1 ltac:(done) eq_refl eq_refl)|].
  split; [exact (H2 eq_refl)|].
  split; [exact (H3 eq_refl eq_refl)|].
  split; [exact (H4 eq_refl eq_refl)|].
  split; [exact (H5 ltac:(done) eq_refl eq_refl)|].
  split; [exact (H6 eq_refl)|].
  split; [exact (H7 eq_refl eq_refl)|].
  split; [exact (H8 eq_refl) | exact (H9 eq_refl)].
Defined.

(** C3 as stated fails on a symbol that starts with a lowercase letter:
    [john_NA] is not marked nonadjoining and keeps its suffix. *)
Lemma Tree_init_lowercase_NA :
  ∃ t σ', Tree_init ("john" +:+ "_NA") [] [] = Ok (t, σ') ∧
          nonadjoining t = false ∧ root t ≠ "john".
Proof. eexists _, _. split; [reflexivity|]. by split. Qed.

(** [rstrip] takes a set of characters: a base name that ends in [_], [N]
    or [A] loses more than the suffix. *)
Example Tree_init_N_NA :
  Tree_init "N_NA" [] [] = Ok (mkTree 0 [] true false "", [mkCell None None]).
Proof. reflexivity. Qed.

(** The suffixes are tested in one order: [_NA] is not trailing in [NP_NA*],
    which is a footnode of symbol [NP_NA], not marked nonadjoining. *)
Example Tree_init_NA_star :
  Tree_init "NP_NA*" [] [] = Ok (mkTree 0 [] false true "NP_NA", [mkCell None None]).
Proof. reflexivity. Qed.

(** The flags of [NPA_NA] are those that its suffix names, though its root
    is cut short. *)
Example Tree_init_NPA_NA :
  Tree_init "NPA_NA" [] [] = Ok (mkTree 0 [] true false "NP", [mkCell None None]).
Proof. reflexivity. Qed.

Example Tree_init_DNA_NA :
  Tree_init "DNA_NA" [] [] = Ok (mkTree 0 [] true false "D", [mkCell None None]).
Proof. reflexivity. Qed.

(** ** Nodes of a tree *)

Lemma nodes_eq t : nodes t = t :: flat_map nodes (children t).
Proof. by destruct t. Qed.

Lemma Forall_flat_map {A B} (P : B → Prop) (f : A → list B) (l : list A) :
  Forall P (flat_map f l) ↔ Forall (λ x, Forall P (f x)) l.
Proof.
  induction l as [|x l IH]; simpl.
  - split; constructor.
  - rewrite Forall_app, Forall_cons. by rewrite IH.
Qed.

Lemma nonempty_roots_eq t :
  nonempty_roots t ↔ root t ≠ "" ∧ Forall nonempty_roots (children t).
Proof.
  unfold nonempty_roots at 1. rewrite nodes_eq, Forall_cons.
  by rewrite Forall_flat_map.
Qed.

Lemma filter_flat_map_cons {A B} (P : B → Prop) `{∀ x, Decision (P x)}
    (f : A → list B) (x : A) (l : list A) :
  filter P (flat_map f (x :: l)) = filter P (f x) ++ filter P (flat_map f l).
Proof. simpl. by rewrite filter_app. Qed.

(** ** Type inference (C4, C5) *)

Lemma traversed_nil st : traversed [] st = st.
Proof.
  destruct st. unfold traversed, adjunction_types, substitution_types,
    nonadjoining_footnode_in. simpl. by rewrite !app_nil_r, orb_false_r.
Qed.

Lemma traversed_cons t ts st : traversed ts (traversed [t] st) = traversed (t :: ts) st.
Proof.
  unfold traversed, adjunction_types, substitution_types, nonadjoining_footnode_in.
  cbn [interior_nodes substitution_nodes footnodeIsNonadjoining].
  rewrite !(filter_flat_map_cons _ _ t ts). cbn [flat_map].
  rewrite !app_nil_r, !fmap_app, !existsb_app, <-!(assoc_L (++)), <-!orb_assoc.
  done.
Qed.

Lemma foldR_traverse ts :
  Forall (λ t, ∀ st, nonempty_roots t → traverse t st = Ok (traversed [t] st)) ts →
  ∀ st, Forall nonempty_roots ts → foldR traverse ts st = Ok (traversed ts st).
Proof.
  induction 1 as [|t ts Ht _ IH]; intros st Hne; cbn [foldR].
  - by rewrite traversed_nil.
  - apply Forall_cons in Hne as [Hne1 Hne2].
    rewrite Ht by done. rewrite res_bind_eq, IH by done.
    by rewrite traversed_cons.
Qed.

Lemma traverse_traversed t :
  ∀ st, nonempty_roots t → traverse t st = Ok (traversed [t] st).
Proof.
  induction t as [a cs na fn r IH] using Tree_ind'.
  intros st [Hr Hcs]%nonempty_roots_eq. cbn [root children] in Hr, Hcs.
  cbn [traverse root children footnode nonadjoining].
  rewrite is_nonterminal_upper, !res_bind_eq by done.
  rewrite foldR_traverse by done. f_equal.
  unfold traversed, adjunction_types, substitution_types, nonadjoining_footnode_in.
  cbn [flat_map]. rewrite !app_nil_r, !nodes_eq. cbn [children].
  rewrite !filter_cons. cbn [existsb].
  unfold is_adjunction_site, is_substitution_site.
  cbn [root children footnode nonadjoining interior_nodes substitution_nodes
       footnodeIsNonadjoining].
  destruct st as [int sub flag]; cbn [interior_nodes substitution_nodes footnodeIsNonadjoining].
  destruct (upper_initial r), fn, na, cs as [|c cs'];
    cbn [andb negb length Nat.ltb Nat.leb Nat.eqb];
    repeat case_decide; try done;
    cbn [interior_nodes substitution_nodes footnodeIsNonadjoining root
         fmap list_fmap app orb];
    rewrite <-?(assoc_L (++)); cbn [app];
    rewrite ?orb_true_r, ?orb_false_r; try done;
    by destruct flag.
Qed.

Lemma foldR_traverse_Ok ts :
  Forall (λ t, ∀ st st', traverse t st = Ok st' → nonempty_roots t) ts →
  ∀ st st', foldR traverse ts st = Ok st' → Forall nonempty_roots ts.
Proof.
  induction 1 as [|t ts Ht _ IH]; intros st st'; [constructor|].
  rewrite foldR_cons. destruct (traverse t st) as [st1|] eqn:E; [|done].
  intros Hts. constructor; [by eapply Ht | by eapply IH].
Qed.

Lemma traverse_Ok t : ∀ st st', traverse t st = Ok st' → nonempty_roots t.
Proof.
  induction t as [a cs na fn r IH] using Tree_ind'. intros st st'.
  cbn [traverse root children footnode nonadjoining].
  destruct r as [|c r]; [done|]. cbn [is_nonterminal]. rewrite !res_bind_eq.
  destruct (foldR traverse cs _) as [st1|] eqn:E; [|done]. intros _.
  apply nonempty_roots_eq. split; [done|]. cbn [children].
  by eapply foldR_traverse_Ok.
Qed.

(** A type is inferred exactly for the trees without an empty symbol. *)
Lemma typeForTree_returns t initial :
  (∃ ty, typeForTree t initial = Ok ty) ↔ nonempty_roots t.
Proof.
  split.
  - intros [ty Hty]. unfold typeForTree, typeNodes in Hty. rewrite !res_bind_eq in Hty.
    destruct (traverse t _) as [st|] eqn:E; [|done]. by eapply traverse_Ok.
  - intros Ht. unfold typeForTree, typeNodes.
    rewrite traverse_traversed by done. by eexists.
Qed.

Lemma typeNodes_eq t initial :
  nonempty_roots t →
  typeNodes t initial =
    Ok (adjunction_types [t] ++ substitution_types [t] ++
        [if initial then root t +:+ "_S"
         else if has_nonadjoining_footnode t then root t +:+ "_A"
         else root t +:+ "_A -> " +:+ root t +:+ "_A"]).
Proof.
  intros Ht. unfold typeNodes. rewrite traverse_traversed, res_bind_eq by done.
  cbn [traversed interior_nodes substitution_nodes footnodeIsNonadjoining app orb].
  unfold has_nonadjoining_footnode, nonadjoining_footnode_in.
  cbn [flat_map]. rewrite app_nil_r.
  destruct initial; [done|].
  by destruct (existsb (λ n, footnode n && nonadjoining n) (nodes t)).
Qed.

Lemma adjunction_types_eq t :
  adjunction_types [t] = (λ n, root n +:+ "_A") <$> adjunction_sites t.
Proof. unfold adjunction_types, adjunction_sites. cbn [flat_map]. by rewrite app_nil_r. Qed.

Lemma substitution_types_eq t :
  substitution_types [t] = (λ n, root n +:+ "_S") <$> substitution_sites t.
Proof. unfold substitution_types, substitution_sites. cbn [flat_map]. by rewrite app_nil_r. Qed.

(** C5: the type inferred for an initial tree is the list of the types
    [<root>_A] of its adjunction sites, in depth-first order, then the types
    [<root>_S] of its substitution sites, in depth-first order, then the
    single result type [<root>_S] of the tree: [a + s] argument types and
    one result type. *)
Theorem typeForTree_initial (t : Tree) :
  nonempty_roots t →
  let args := ((λ n, root n +:+ "_A") <$> adjunction_sites t) ++
              ((λ n, root n +:+ "_S") <$> substitution_sites t) in
  typeNodes t true = Ok (args ++ [root t +:+ "_S"]) ∧
  typeForTree t true = Ok (Py.join " -> " (args ++ [root t +:+ "_S"])) ∧
  length args = length (adjunction_sites t) + length (substitution_sites t).
Proof.
  intros Ht args. unfold typeForTree. rewrite typeNodes_eq by done.
  rewrite adjunction_types_eq, substitution_types_eq, (assoc_L (++)).
  split_and!; [done | done |].
  unfold args. by rewrite length_app, !length_fmap.
Qed.

(** C4: the result type of an auxiliary tree is [<root>_A] if some footnode
    of the tree, at any depth, is marked nonadjoining, and
    [<root>_A -> <root>_A] otherwise. *)
Theorem typeForTree_auxiliary (t : Tree) :
  nonempty_roots t →
  let args := ((λ n, root n +:+ "_A") <$> adjunction_sites t) ++
              ((λ n, root n +:+ "_S") <$> substitution_sites t) in
  let result := if has_nonadjoining_footnode t then root t +:+ "_A"
                else root t +:+ "_A -> " +:+ root t +:+ "_A" in
  typeNodes t false = Ok (args ++ [result]) ∧
  typeForTree t false = Ok (Py.join " -> " (args ++ [result])).
Proof.
  intros Ht args result. unfold typeForTree. rewrite typeNodes_eq by done.
  by rewrite adjunction_types_eq, substitution_types_eq, (assoc_L (++)).
Qed.

Lemma typeForTree_initial_witness :
  nonempty_roots tree_S_NP_VP ∧
  typeForTree tree_S_NP_VP true = Ok "S_A -> VP_A -> NP_S -> S_S".
Proof.
  assert (H : nonempty_roots tree_S_NP_VP) by (by repeat constructor).
  split; [exact H|].
  destruct (typeForTree_initial tree_S_NP_VP H) as (_ & H2 & _). exact H2.
Defined.

Lemma typeForTree_auxiliary_witness :
  nonempty_roots tree_S_VP_adv_footNA ∧
  typeForTree tree_S_VP_adv_footNA false = Ok "S_A -> VP_A -> S_A" ∧
  nonempty_roots tree_VP_adv_foot ∧
  typeForTree tree_VP_adv_foot false = Ok "VP_A -> VP_A -> VP_A".
Proof.
  assert (H : nonempty_roots tree_S_VP_adv_footNA) by (by repeat constructor).
  assert (H' : nonempty_roots tree_VP_adv_foot) by (by repeat constructor).
  split; [exact H|]. split; [exact (proj2 (typeForTree_auxiliary _ H))|].
  split; [exact H'|]. exact (proj2 (typeForTree_auxiliary _ H')).
Defined.

(** ** Reading the bound variables of a term *)

Section reading.
Implicit Types s w rest : string.

Lemma all_chars_app P s1 s2 :
  all_chars P (s1 +:+ s2) = all_chars P s1 && all_chars P s2.
Proof.
  induction s1 as [|c s1 IH]; cbn [all_chars String.append]; [done|].
  by rewrite IH, andb_assoc.
Qed.

Lemma all_chars_impl (P Q : ascii → bool) s :
  (∀ c, P c = true → Q c = true) → all_chars P s = true → all_chars Q s = true.
Proof.
  intros HPQ. induction s as [|c s IH]; cbn [all_chars]; [done|].
  intros [Hc Hs]%andb_true_iff. by rewrite HPQ, IH.
Qed.

Lemma pretty_N_char_digit x : is_digit (pretty_N_char x) = true.
Proof. unfold pretty_N_char. by repeat case_match. Qed.

Lemma pretty_N_go_digits x s :
  all_chars is_digit s = true → all_chars is_digit (pretty_N_go x s) = true.
Proof.
  revert s. induction (N.lt_wf_0 x) as [x _ IH]; intros s Hs.
  assert (x = 0 ∨ 0 < x)%N as [->|Hx] by lia.
  - by rewrite pretty_N_go_0.
  - rewrite pretty_N_go_step by done. apply IH.
    + by apply N.div_lt.
    + cbn [all_chars]. by rewrite pretty_N_char_digit, Hs.
Qed.

Lemma str_digits n : all_chars is_digit (Py.str n) = true.
Proof.
  unfold Py.str, pretty, pretty_nat, pretty, pretty_N.
  case_decide; [done|]. by apply pretty_N_go_digits.
Qed.



Lemma digit_name_char c : is_digit c = true → name_char c = true.
Proof.
  unfold is_digit, name_char. cbn [Py.char_in].
  destruct (Ascii.eqb_spec c " ") as [->|]; [done|].
  destruct (Ascii.eqb_spec c ".") as [->|]; done.
Qed.

Lemma lvar_name_ok n : name_ok ("lvar" +:+ Py.str n) = true.
Proof.
  unfold name_ok. cbn [String.append String.eqb negb andb all_chars].
  apply andb_true_iff; split; [done|].
  apply (all_chars_impl is_digit); [apply digit_name_char | apply str_digits].
Qed.

Lemma strip_prefix_app p s : strip_prefix p (p +:+ s) = Some s.
Proof.
  induction p as [|c p IH]; cbn [strip_prefix String.append]; [by destruct s|].
  by rewrite Ascii.eqb_refl.
Qed.

Lemma before_app c s rest :
  all_chars (λ d, negb (Ascii.eqb d c)) s = true →
  before c (s +:+ String c rest) = s.
Proof.
  induction s as [|d s IH]; cbn [all_chars before String.append].
  - by rewrite Ascii.eqb_refl.
  - intros [Hd Hs]%andb_true_iff. apply negb_true_iff in Hd. by rewrite Hd, IH.
Qed.

Lemma split_on_word sep w :
  all_chars (λ d, negb (Ascii.eqb d sep)) w = true → split_on sep w = [w].
Proof.
  induction w as [|d w IH]; cbn [all_chars split_on]; [done|].
  intros [Hd Hw]%andb_true_iff. apply negb_true_iff in Hd. by rewrite Hd, IH.
Qed.

Lemma split_on_app sep w rest :
  all_chars (λ d, negb (Ascii.eqb d sep)) w = true →
  split_on sep (w +:+ String sep rest) = w :: split_on sep rest.
Proof.
  induction w as [|d w IH]; cbn [all_chars split_on String.append].
  - by rewrite Ascii.eqb_refl.
  - intros [Hd Hw]%andb_true_iff. apply negb_true_iff in Hd. by rewrite Hd, IH.
Qed.

Lemma split_on_join sep names :
  names ≠ [] →
  Forall (λ w, all_chars (λ d, negb (Ascii.eqb d sep)) w = true) names →
  split_on sep (Py.join (String sep "") names) = names.
Proof.
  induction names as [|w [|w' names] IH]; [done| |]; intros _ Hall.
  - apply Forall_cons in Hall as [Hw _]. by apply split_on_word.
  - apply Forall_cons in Hall as [Hw Hall].
    change (Py.join (String sep "") (w :: w' :: names))
      with (w +:+ String sep (Py.join (String sep "") (w' :: names))).
    rewrite split_on_app by done. by rewrite IH.
Qed.

Lemma name_ok_inv w :
  name_ok w = true →
  w ≠ "" ∧ all_chars (λ d, negb (Ascii.eqb d " ")) w = true
         ∧ all_chars (λ d, negb (Ascii.eqb d ".")) w = true.
Proof.
  unfold name_ok. intros [Hne Hall]%andb_true_iff. split_and!.
  - intros ->. done.
  - revert Hall. apply all_chars_impl. unfold name_char. by intros c [??]%andb_true_iff.
  - revert Hall. apply all_chars_impl. unfold name_char. by intros c [??]%andb_true_iff.
Qed.

Lemma words_join names :
  Forall (λ w, name_ok w = true) names → words (Py.join " " names) = names.
Proof.
  intros Hall. unfold words. destruct names as [|w names]; [done|].
  rewrite split_on_join; [|done|].
  - induction Hall as [|x l Hx _ IH]; [done|].
    apply name_ok_inv in Hx as (? & _ & _).
    rewrite filter_cons_True by done. by rewrite IH.
  - eapply Forall_impl; [done|]. intros x Hx. by apply name_ok_inv in Hx as (_ & ? & _).
Qed.

Lemma join_no_dot names :
  Forall (λ w, name_ok w = true) names →
  all_chars (λ d, negb (Ascii.eqb d ".")) (Py.join " " names) = true.
Proof.
  induction names as [|w [|w' names] IH]; intros Hall; [done| |].
  - apply Forall_cons in Hall as [Hw _]. by apply name_ok_inv in Hw as (_ & _ & ?).
  - apply Forall_cons in Hall as [Hw Hall].
    change (Py.join " " (w :: w' :: names))
      with (w +:+ " " +:+ Py.join " " (w' :: names)).
    rewrite !all_chars_app, IH by done.
    apply name_ok_inv in Hw as (_ & _ & ->). done.
Qed.

Lemma bound_variables_lambda names rest :
  Forall (λ w, name_ok w = true) names →
  bound_variables (("lambda " +:+ Py.join " " names +:+ ".") +:+ rest) = names.
Proof.
  intros Hall. unfold bound_variables.
  rewrite !app_assoc, strip_prefix_app.
  change ("." +:+ rest) with (String "." rest).
  rewrite before_app by (by apply join_no_dot).
  by apply words_join.
Qed.
End reading.

(** ** Copies of a tree *)

Lemma deepcopy_eq t σ :
  deepcopy t σ =
    match forM deepcopy (children t)
               (σ ++ [mkCell (σ !! ref t ≫= identifier) (σ !! ref t ≫= varname)]) with
    | Ok (cs, σ') => Ok (mkTree (length σ) cs (nonadjoining t) (footnode t) (root t), σ')
    | Raise e => Raise e
    end.
Proof.
  destruct t as [a cs na fn r]. cbn [deepcopy]. munfold.
  cbn [ref children nonadjoining footnode root].
  by destruct (forM deepcopy cs _) as [[]|].
Qed.

Lemma flat_map_cons_eq {A B} (f : A → list B) x l :
  flat_map f (x :: l) = f x ++ flat_map f l.
Proof. reflexivity. Qed.

Lemma flat_map_one {A B} (f : A → list B) x : flat_map f [x] = f x.
Proof. cbn. by rewrite app_nil_r. Qed.

Lemma label_mk a cs na fn r : label (mkTree a cs na fn r) = (r, na, fn, length cs).
Proof. reflexivity. Qed.

Lemma forM_deepcopy ts :
  Forall (λ t, ∀ σ, ∃ t' new, deepcopy t σ = Ok (t', σ ++ new) ∧ copies σ [t] [t'] new) ts →
  ∀ σ, ∃ ts' new, forM deepcopy ts σ = Ok (ts', σ ++ new) ∧ copies σ ts ts' new.
Proof.
  induction 1 as [|t ts Ht _ IH]; intros σ.
  - exists [], []. rewrite app_nil_r. by repeat split.
  - destruct (Ht σ) as (t' & new1 & Eq1 & Hlen1 & Hlab1 & Hr1).
    destruct (IH (σ ++ new1)) as (ts' & new2 & Eq2 & Hlen2 & Hlab2 & Hr2).
    exists (t' :: ts'), (new1 ++ new2).
    rewrite forM_cons, Eq1, Eq2, (assoc_L (++)). split; [done|].
    unfold copies. rewrite !flat_map_cons_eq. rewrite !flat_map_one in *.
    split_and!.
    + cbn [length]. by rewrite Hlen2.
    + by rewrite !fmap_app, Hlab1, Hlab2.
    + rewrite fmap_app, Forall_app. rewrite !length_app in *. split.
      * eapply Forall_impl; [exact Hr1|]. intros a ?; cbn beta in *. lia.
      * eapply Forall_impl; [exact Hr2|]. intros a ?; cbn beta in *. lia.
Qed.

Lemma deepcopy_copies t :
  ∀ σ, ∃ t' new, deepcopy t σ = Ok (t', σ ++ new) ∧ copies σ [t] [t'] new.
Proof.
  induction t as [a cs na fn r IH] using Tree_ind'. intros σ.
  rewrite deepcopy_eq. cbn [ref children nonadjoining footnode root].
  set (c := mkCell _ _).
  destruct (forM_deepcopy cs IH (σ ++ [c])) as (cs' & new & -> & Hlen & Hlab & Hr).
  exists (mkTree (length σ) cs' na fn r), (c :: new).
  rewrite <-(assoc_L (++)). split; [done|].
  unfold copies. rewrite !flat_map_one, !nodes_eq, !fmap_cons, !label_mk.
  cbn [children ref].
  rewrite Hlen, Hlab. split_and!; [done | done |].
  constructor; [cbn [length]; lia|].
  eapply Forall_impl; [exact Hr|]. intros x. rewrite length_app. cbn [length]. lia.
Qed.

(** ** Variable names *)

Lemma varTraverse_eq t st σ :
  varTraverse t st σ =
    let σ1 := alter (λ c, mkCell (identifier c) (Some ("lvar" +:+ Py.str (i st))))
                    (ref t) σ in
    match is_nonterminal (root t) with
    | Raise e => Raise e
    | Ok nt =>
        let v := σ1 !! ref t ≫= varname in
        let st1 :=
          if (nt : bool) then
            if nonadjoining t
            then mkVarState (interiorVars st) (substitutionVars st) (i st + 1)
            else if 0 <? length (children t)
            then mkVarState (interiorVars st ++ [v]) (substitutionVars st) (i st + 1)
            else mkVarState (interiorVars st) (substitutionVars st ++ [v]) (i st + 1)
          else st in
        foldM varTraverse (children t) st1 σ1
    end.
Proof.
  destruct t as [a cs na fn r]. cbn [varTraverse]. munfold.
  cbn [ref children nonadjoining footnode root].
  destruct (is_nonterminal r) as [[]|]; [| done | done].
  by destruct (0 <? length cs), na.
Qed.

Lemma foldM_varTraverse ts :
  Forall (λ t, ∀ st σ, var_post [t] st σ (varTraverse t st σ)) ts →
  ∀ st σ, var_post ts st σ (foldM varTraverse ts st σ).
Proof.
  induction 1 as [|t ts Ht _ IH]; intros st σ.
  - cbn. by repeat split.
  - rewrite foldM_cons. specialize (Ht st σ).
    destruct (varTraverse t st σ) as [[st1 σ1]|e]; unfold var_post in Ht |- *;
      rewrite flat_map_one in Ht; rewrite flat_map_cons_eq.
    + destruct Ht as (Hlen1 & Hfr1 & Hst1). specialize (IH st1 σ1).
      destruct (foldM varTraverse ts st1 σ1) as [[st2 σ2]|e]; unfold var_post in IH.
      * destruct IH as (Hlen2 & Hfr2 & Hst2). split_and!.
        -- congruence.
        -- intros a Ha. rewrite fmap_app, elem_of_app in Ha.
           rewrite Hfr2, Hfr1; [done | |]; tauto.
        -- rewrite fmap_app, Forall_app, foldl_app. intros [H1 H2].
           rewrite Hst2, Hst1; [done | done |]. by rewrite Hlen1.
      * rewrite Forall_app. tauto.
    + rewrite Forall_app. tauto.
Qed.

Lemma varTraverse_post t : ∀ st σ, var_post [t] st σ (varTraverse t st σ).
Proof.
  induction t as [a cs na fn r IH] using Tree_ind'. intros st σ.
  rewrite varTraverse_eq. cbn [ref children nonadjoining footnode root]. cbv zeta.
  unfold var_post. rewrite flat_map_one, nodes_eq. cbn [children].
  destruct r as [|c r].
  { cbn [is_nonterminal]. rewrite Forall_cons. cbn [root]. tauto. }
  cbn [is_nonterminal].
  set (σ1 := alter _ a σ). set (st1 := if Py.isupper c then _ else _).
  pose proof (foldM_varTraverse cs IH st1 σ1) as Hcs.
  assert (length σ1 = length σ) as Hl1 by apply length_alter.
  destruct (foldM varTraverse cs st1 σ1) as [[st2 σ2]|e]; unfold var_post in Hcs.
  - destruct Hcs as (Hlen & Hfr & Hst). split_and!.
    + by rewrite Hlen.
    + intros x Hx. rewrite fmap_cons, not_elem_of_cons in Hx.
      destruct Hx as [Hxa Hx]. cbn [ref] in Hxa.
      rewrite Hfr by done. by apply list_lookup_alter_ne.
    + rewrite fmap_cons, Forall_cons. cbn [ref foldl]. intros [Ha Hcs].
      rewrite Hst by (by rewrite Hl1). f_equal.
      unfold st1, var_step. cbn [root nonadjoining children upper_initial].
      assert (σ1 !! a ≫= varname = Some ("lvar" +:+ Py.str (i st))) as ->; [|done].
      unfold σ1. rewrite list_lookup_alter_eq.
      destruct (lookup_lt_is_Some_2 σ a Ha) as [x ->]. done.
  - rewrite Forall_cons. tauto.
Qed.

(** ** The body of a term *)

Lemma constructExpression_eq t σ :
  constructExpression t σ =
    match is_nonterminal (root t) with
    | Raise e => Raise e
    | Ok nt =>
        if negb nt then Ok (root t, σ)
        else if footnode t then
          if nonadjoining t then Ok ("lvar", σ)
          else Ok (Py.fmt (σ !! ref t ≫= varname) +:+ " lvar", σ)
        else
          match forM (λ child, e ← constructExpression child; mret ("(" +:+ e +:+ ")"))
                     (children t) σ with
          | Raise e => Raise e
          | Ok (childExpressions, σ') =>
              let application :=
                "(" +:+ root t +:+ "_" +:+ Py.str (length childExpressions) +:+ " "
                +:+ Py.join " " childExpressions +:+ ")" in
              if nonadjoining t then Ok (application, σ')
              else Ok (Py.fmt (σ' !! ref t ≫= varname) +:+ " " +:+ application, σ')
          end
    end.
Proof.
  destruct t as [a cs na fn r]. cbn [constructExpression]. munfold.
  cbn [ref children nonadjoining footnode root].
  destruct (is_nonterminal r) as [[]|]; [| done | done]. cbn [negb].
  destruct fn; [by destruct na|].
  destruct (forM _ cs σ) as [[ces σ']|]; [|done].
  by destruct na.
Qed.

Lemma forM_constructExpression ts :
  Forall (λ t, ∀ σ, expr_post [t] σ (constructExpression t σ)) ts →
  ∀ σ, expr_post ts σ
         (forM (λ child, e ← constructExpression child; mret ("(" +:+ e +:+ ")")) ts σ).
Proof.
  induction 1 as [|t ts Ht _ IH]; intros σ; [done|].
  rewrite forM_cons, M_bind_eq. specialize (Ht σ). unfold expr_post in *.
  destruct (constructExpression t σ) as [[e σ1]|].
  - subst σ1. cbv [mret M_ret]. specialize (IH σ).
    destruct (forM _ ts σ) as [[es σ2]|]; [done|].
    rewrite flat_map_cons_eq, Forall_app. tauto.
  - rewrite flat_map_one in Ht. rewrite flat_map_cons_eq, Forall_app. tauto.
Qed.

Lemma constructExpression_post t : ∀ σ, expr_post [t] σ (constructExpression t σ).
Proof.
  induction t as [a cs na fn r IH] using Tree_ind'. intros σ.
  rewrite constructExpression_eq. cbn [ref children nonadjoining footnode root].
  unfold expr_post.
  assert (Hraise : root (mkTree a cs na fn r) = "" ∨
                   ¬ Forall (λ n, root n ≠ "") (flat_map nodes cs) →
                   ¬ Forall (λ n, root n ≠ "") (flat_map nodes [mkTree a cs na fn r])).
  { rewrite flat_map_one, nodes_eq, Forall_cons. cbn [children]. tauto. }
  destruct r as [|c r]; cbn [is_nonterminal]; [by apply Hraise; left|].
  destruct (negb (Py.isupper c)); [done|].
  destruct fn; [by destruct na|].
  pose proof (forM_constructExpression cs IH σ) as Hcs. unfold expr_post in Hcs.
  destruct (forM _ cs σ) as [[es σ']|]; [by destruct na|].
  apply Hraise. by right.
Qed.

(** ** Term realization (C2, C8) *)

Lemma foldl_var_step ns : ∀ st,
  Forall is_name_value (interiorVars st) →
  Forall is_name_value (substitutionVars st) →
  let st' := foldl var_step st ns in
  Forall is_name_value (interiorVars st') ∧
  Forall is_name_value (substitutionVars st') ∧
  length (interiorVars st') + length (substitutionVars st') =
    length (interiorVars st) + length (substitutionVars st) +
    length (filter (λ n, is_variable_site n = true) ns).
Proof.
  induction ns as [|n ns IH]; intros st Hi Hs; cbn [foldl].
  - cbn. split_and!; [done | done | lia].
  - assert (Hv : is_name_value (Some ("lvar" +:+ Py.str (i st)))).
    { eexists. split; [done|]. apply lvar_name_ok. }
    specialize (IH (var_step st n)). cbv zeta in IH.
    unfold var_step, is_variable_site in *. rewrite filter_cons.
    destruct (upper_initial (root n)), (nonadjoining n), (0 <? length (children n));
      cbn [andb negb interiorVars substitutionVars] in *;
      case_decide; try done;
      destruct IH as (? & ? & ?); rewrite ?Forall_app, ?Forall_singleton; try done;
      split_and!; try done; rewrite ?length_app in *; cbn [length] in *; lia.
Qed.

Lemma is_name_values l :
  Forall is_name_value l →
  ∃ names, l = Some <$> names ∧ Forall (λ w, name_ok w = true) names.
Proof.
  induction 1 as [|v l (s & -> & Hs) _ (names & -> & Hnames)].
  - by exists [].
  - exists (s :: names). split; [done | by constructor].
Qed.

Lemma join_values_Some sep names :
  Py.join_values sep (Some <$> names) = Ok (Py.join sep names).
Proof.
  unfold Py.join_values.
  assert (mapM (M := option) id (Some <$> names) = Some names) as ->; [|done].
  induction names as [|w names IH]; [done|].
  cbn [fmap list_fmap mapM]. fold (fmap (M := list) (@Some string)).
  by rewrite IH.
Qed.

Lemma copies_variable_sites σ t t' new :
  copies σ [t] [t'] new →
  length (variable_sites t') = length (variable_sites t).
Proof.
  intros (_ & Hlab & _). rewrite !flat_map_one in Hlab.
  unfold variable_sites.
  pose (P := λ lb : string * bool * bool * nat, upper_initial lb.1.1.1 && negb lb.1.1.2 = true).
  assert (∀ l, length (filter (λ n, is_variable_site n = true) l)
               = length (filter P (label <$> l))) as Hfil.
  { intros l. induction l as [|n l IH]; [done|].
    rewrite fmap_cons, !filter_cons. unfold P at 1, is_variable_site at 1, label at 1.
    cbn [fst snd]. repeat case_decide; try done; cbn [length]; by rewrite IH. }
  by rewrite !Hfil, Hlab.
Qed.

Lemma copies_nonempty_roots σ t t' new :
  copies σ [t] [t'] new → nonempty_roots t → nonempty_roots t'.
Proof.
  intros (_ & Hlab & _). rewrite !flat_map_one in Hlab. unfold nonempty_roots.
  assert (∀ l, Forall (λ n, root n ≠ "") l
               ↔ Forall (λ lb : string * bool * bool * nat, lb.1.1.1 ≠ "") (label <$> l)) as Hall.
  { intros l. by rewrite Forall_fmap. }
  by rewrite !Hall, Hlab.
Qed.

Lemma store_extension (σ σ' : store) :
  length σ ≤ length σ' → (∀ a, a < length σ → σ' !! a = σ !! a) →
  ∃ new, σ' = σ ++ new.
Proof.
  intros Hlen Hsame. exists (drop (length σ) σ').
  rewrite <-(take_drop (length σ) σ') at 1. f_equal.
  apply list_eq. intros a. destruct (decide (a < length σ)).
  - rewrite lookup_take_lt by done. by apply Hsame.
  - rewrite lookup_take_ge, lookup_ge_None_2 by lia. done.
Qed.

(** A run of [lambdaRealizationOfTree]: the store it is given is kept, the
    term binds one valid name for each variable site and one more for an
    auxiliary tree, and the run raises only at a symbol without a first
    character. *)
Lemma lambdaRealizationOfTree_run t initial σ :
  match lambdaRealizationOfTree t initial σ with
  | Ok (expr, σ') =>
      (∃ new, σ' = σ ++ new) ∧
      ∃ names body,
        expr = ("lambda " +:+ Py.join " " names +:+ ".") +:+ " " +:+ body ∧
        Forall (λ w, name_ok w = true) names ∧
        length names = length (variable_sites t) + (if initial then 0 else 1)
  | Raise _ => ¬ nonempty_roots t
  end.
Proof.
  unfold lambdaRealizationOfTree, allVarsOfCopy. rewrite !M_bind_eq.
  destruct (deepcopy_copies t σ) as (t' & new & -> & Hcopy).
  rewrite !M_bind_eq.
  pose proof (varTraverse_post t' (mkVarState [] [] 0) (σ ++ new)) as Hvar.
  destruct (varTraverse t' _ _) as [[st σ2]|]; unfold var_post in Hvar;
    rewrite flat_map_one in Hvar;
    [|intros Ht; by apply Hvar, (copies_nonempty_roots σ t t' new)].
  destruct Hvar as (Hlen & Hframe & Hst).
  pose proof Hcopy as (_ & _ & Hrefs). rewrite flat_map_one in Hrefs.
  rewrite Hst; [|eapply Forall_impl; [exact Hrefs|]; intros a; rewrite length_app; cbn beta; lia].
  destruct (foldl_var_step (nodes t') (mkVarState [] [] 0)) as (Hi & Hs & Hcount);
    [constructor | constructor |].
  set (st' := foldl var_step _ _) in *. cbn [interiorVars substitutionVars length] in Hcount.
  cbv [mret M_ret].
  destruct (is_name_values (interiorVars st' ++ substitutionVars st' ++
                            (if initial then [] else [Some "lvar"]))) as (names & Hall & Hnames).
  { rewrite !Forall_app. split_and!; [done | done |].
    destruct initial; repeat constructor. by exists "lvar". }
  rewrite M_bind_eq, Hall, join_values_Some. unfold lift. rewrite M_bind_eq.
  pose proof (constructExpression_post t' σ2) as Hexpr.
  destruct (constructExpression t' σ2) as [[body σ3]|]; unfold expr_post in Hexpr;
    rewrite ?flat_map_one in Hexpr;
    [|intros Ht; by apply Hexpr, (copies_nonempty_roots σ t t' new)].
  subst σ3. split.
  - apply store_extension.
    + rewrite Hlen, length_app. lia.
    + intros a Ha. rewrite Hframe; [by rewrite lookup_app_l|].
      intros Hin. eapply Forall_forall in Hrefs; [|done]. cbn beta in Hrefs. lia.
  - exists names, body. split_and!; [done | done |].
    rewrite <-(length_fmap Some names), <-Hall.
    rewrite !length_app, <-(copies_variable_sites σ t t' new Hcopy).
    unfold variable_sites. destruct initial; cbn [length]; lia.
Qed.

(** C2, as the code has it: the lambda prefix of the realized term binds one
    variable for every nonterminal node that is not marked nonadjoining
    (footnodes included), and one more, the footnode binder [lvar], exactly
    when the tree is auxiliary. *)
Theorem lambdaRealizationOfTree_bound_variables
    (t : Tree) (initial : bool) (σ : store) :
  nonempty_roots t →
  ∃ expr σ',
    lambdaRealizationOfTree t initial σ = Ok (expr, σ') ∧
    length (bound_variables expr) =
      length (variable_sites t) + (if initial then 0 else 1).
Proof.
  intros Ht. pose proof (lambdaRealizationOfTree_run t initial σ) as Hrun.
  destruct (lambdaRealizationOfTree t initial σ) as [[expr σ']|]; [|done].
  destruct Hrun as (_ & names & body & -> & Hnames & Hlen).
  eexists _, σ'. split; [done|].
  by rewrite bound_variables_lambda.
Qed.

Lemma lambdaRealizationOfTree_bound_variables_witness :
  nonempty_roots tree_VP_adv_foot ∧
  ∃ expr σ',
    lambdaRealizationOfTree tree_VP_adv_foot false store4 = Ok (expr, σ') ∧
    length (bound_variables expr) = length (variable_sites tree_VP_adv_foot) + 1.
Proof.
  assert (H : nonempty_roots tree_VP_adv_foot) by (by repeat constructor).
  split; [exact H|].
  exact (lambdaRealizationOfTree_bound_variables tree_VP_adv_foot false store4 H).
Defined.

(** C2 as stated fails on an auxiliary tree whose footnode is not marked
    nonadjoining: the footnode of [VP (adv) (VP* )] has a variable of its
    own, so that the term binds three variables, where the count of the
    nodes that are neither footnodes nor nonadjoining, plus one, is two. *)
Lemma lambdaRealizationOfTree_footnode_variable :
  lambdaRealizationOfTree tree_VP_adv_foot false store4 =
    Ok ("lambda lvar0 lvar1 lvar. lvar0 (VP_2 (adv) (lvar1 lvar))",
        store4 ++ [mkCell None (Some "lvar0"); mkCell None (Some "lvar1");
                   mkCell None (Some "lvar1")]) ∧
  bound_variables "lambda lvar0 lvar1 lvar. lvar0 (VP_2 (adv) (lvar1 lvar))" =
    ["lvar0"; "lvar1"; "lvar"] ∧
  length (plain_sites tree_VP_adv_foot) + 1 = 2.
Proof. split_and!; by vm_compute. Qed.

(** C8: term realization leaves the store it is given as it is, and with it
    every object of the tree: the names are written to new objects. *)
Theorem lambdaRealizationOfTree_frame
    (t : Tree) (initial : bool) (σ σ' : store) (expr : string) :
  allocated σ t →
  lambdaRealizationOfTree t initial σ = Ok (expr, σ') →
  (∃ new, σ' = σ ++ new) ∧
  Forall (λ n, σ' !! ref n = σ !! ref n) (nodes t).
Proof.
  intros Ht Hrun. pose proof (lambdaRealizationOfTree_run t initial σ) as H.
  rewrite Hrun in H. destruct H as ((new & ->) & _).
  split; [by exists new|].
  unfold allocated, refs in Ht. rewrite Forall_fmap in Ht.
  eapply Forall_impl; [exact Ht|]. intros n Hn. cbn beta in *.
  by rewrite lookup_app_l.
Qed.

Lemma lambdaRealizationOfTree_frame_witness :
  ∃ expr σ',
    allocated store4 tree_VP_adv_foot ∧
    lambdaRealizationOfTree tree_VP_adv_foot false store4 = Ok (expr, σ') ∧
    (∃ new, σ' = store4 ++ new) ∧
    Forall (λ n, σ' !! ref n = store4 !! ref n) (nodes tree_VP_adv_foot).
Proof.
  eexists _, _.
  assert (Ha : allocated store4 tree_VP_adv_foot) by (repeat constructor).
  split; [exact Ha|]. split; [by vm_compute|].
  eapply (lambdaRealizationOfTree_frame tree_VP_adv_foot false store4 _ _ Ha).
  by vm_compute.
Defined.

(** Without the copy the traversal writes the names on the tree itself. *)
Example varTraverse_writes :
  varTraverse tree_VP_adv_foot (mkVarState [] [] 0) store4 =
    Ok (mkVarState [Some "lvar0"] [Some "lvar1"] 2,
        [mkCell None (Some "lvar1"); mkCell None (Some "lvar1");
         mkCell None (Some "lvar0"); mkCell None None]).
Proof. by vm_compute. Qed.

(** ** Branching analysis (C6, C10) *)

Section dict_lemmas.
Context {V : Type}.
Implicit Types (d : dict V) (k : string) (v : V).

Lemma dict_get_set d k v k' :
  dict_get (dict_set d k v) k' = if decide (k = k') then Ok v else dict_get d k'.
Proof.
  induction d as [|[k0 v0] d IH]; cbn [dict_set dict_get].
  - destruct (String.eqb_spec k' k) as [->|]; case_decide; congruence.
  - destruct (String.eqb_spec k k0) as [->|Hk]; cbn [dict_get].
    + destruct (String.eqb_spec k' k0) as [->|]; case_decide; congruence.
    + rewrite IH. destruct (String.eqb_spec k' k0) as [->|]; [|done].
      by rewrite decide_False.
Qed.

Lemma dict_get_Ok d k : k ∈ d.*1 → ∃ v, dict_get d k = Ok v.
Proof.
  induction d as [|[k0 v0] d IH]; cbn [dict_get fmap list_fmap fst].
  - by intros ?%elem_of_nil.
  - destruct (String.eqb_spec k k0) as [->|Hk]; [by eexists|].
    intros [?|?]%elem_of_cons; [done | by apply IH].
Qed.

Lemma dict_get_Raise d k : k ∉ d.*1 → dict_get d k = Raise KeyError.
Proof.
  induction d as [|[k0 v0] d IH]; cbn [dict_get fmap list_fmap fst]; [done|].
  rewrite not_elem_of_cons. intros [Hk Hd].
  destruct (String.eqb_spec k k0); [done | by apply IH].
Qed.

Lemma dict_get_elem_of d k v : dict_get d k = Ok v → (k, v) ∈ d.
Proof.
  induction d as [|[k0 v0] d IH]; cbn [dict_get]; [done|].
  destruct (String.eqb_spec k k0) as [->|].
  - intros [= ->]. by left.
  - intros ?. right. by apply IH.
Qed.

Lemma dict_elem_of_get d k v : NoDup d.*1 → (k, v) ∈ d → dict_get d k = Ok v.
Proof.
  induction d as [|[k0 v0] d IH]; cbn [dict_get fmap list_fmap fst].
  - by intros _ ?%elem_of_nil.
  - intros [Hk0 Hd]%NoDup_cons [[= -> ->]|Hin]%elem_of_cons.
    + by rewrite String.eqb_refl.
    + destruct (String.eqb_spec k k0) as [->|]; [|by apply IH].
      destruct Hk0. apply list_elem_of_fmap. by exists (k0, v).
Qed.

Lemma dict_set_keys_in d k v : k ∈ d.*1 → (dict_set d k v).*1 = d.*1.
Proof.
  induction d as [|[k0 v0] d IH]; cbn [dict_set fmap list_fmap fst].
  - by intros ?%elem_of_nil.
  - destruct (String.eqb_spec k k0) as [->|Hk]; [done|].
    intros [?|?]%elem_of_cons; [done|]. cbn [fmap list_fmap fst].
    f_equal. by apply IH.
Qed.

Lemma dict_set_keys_notin d k v : k ∉ d.*1 → (dict_set d k v).*1 = d.*1 ++ [k].
Proof.
  induction d as [|[k0 v0] d IH]; cbn [dict_set fmap list_fmap fst]; [done|].
  rewrite not_elem_of_cons. intros [Hk Hd].
  destruct (String.eqb_spec k k0); [done|]. cbn [fmap list_fmap fst app].
  f_equal. by apply IH.
Qed.
End dict_lemmas.

Lemma max_arity_cons n ns N :
  max_arity (n :: ns) N =
    if decide (root n = N) then length (children n) `max` max_arity ns N
    else max_arity ns N.
Proof. unfold max_arity. rewrite filter_cons. by case_decide. Qed.

Lemma max_arity_app ns1 ns2 N :
  max_arity (ns1 ++ ns2) N = max_arity ns1 N `max` max_arity ns2 N.
Proof.
  induction ns1 as [|n ns1 IH]; [done|].
  cbn [app]. rewrite !max_arity_cons, IH. case_decide; lia.
Qed.


Lemma analysed_eq t :
  analysed t = if upper_initial (root t) then t :: flat_map analysed (children t) else [].
Proof. by destruct t. Qed.

Lemma bval_set d k v N :
  bval (dict_set d k v) N = if decide (k = N) then v else bval d N.
Proof. unfold bval. rewrite dict_get_set. by case_decide. Qed.

Lemma traverseBranching_eq t b :
  traverseBranching t b =
    match is_nonterminal (root t) with
    | Raise e => Raise e
    | Ok nt =>
        if (nt : bool) then
          match dict_get b (root t) with
          | Raise e => Raise e
          | Ok cur =>
              foldR traverseBranching (children t)
                (if cur <? length (children t)
                 then dict_set b (root t) (length (children t)) else b)
          end
        else Ok b
    end.
Proof.
  destruct t as [a cs na fn r]. cbn [traverseBranching root children].
  rewrite res_bind_eq. destruct (is_nonterminal r) as [[]|]; [| done | done].
  rewrite res_bind_eq. by destruct (dict_get b r).
Qed.

Lemma foldR_traverseBranching ts :
  Forall (λ t, ∀ b, branching_post [t] b (traverseBranching t b)) ts →
  ∀ b, branching_post ts b (foldR traverseBranching ts b).
Proof.
  induction 1 as [|t ts Ht _ IH]; intros b.
  - cbn. split_and!; [done | intros N; cbn; lia | done].
  - rewrite foldR_cons. specialize (Ht b).
    destruct (traverseBranching t b) as [b1|e]; unfold branching_post in Ht |- *;
      rewrite !flat_map_one in Ht; rewrite !flat_map_cons_eq.
    + destruct Ht as (Hk1 & Hv1 & Hd1). specialize (IH b1).
      destruct (foldR traverseBranching ts b1) as [b2|e]; unfold branching_post in IH.
      * destruct IH as (Hk2 & Hv2 & Hd2). split_and!.
        -- congruence.
        -- intros N. rewrite Hv2, Hv1, max_arity_app. lia.
        -- rewrite Forall_app. split; [done|]. by rewrite <-Hk1.
      * destruct e; try done.
        -- rewrite Forall_app. tauto.
        -- rewrite Exists_app, <-Hk1. by right.
    + destruct e; try done.
      * rewrite Forall_app. tauto.
      * rewrite Exists_app. by left.
Qed.

Lemma traverseBranching_post t : ∀ b, branching_post [t] b (traverseBranching t b).
Proof.
  induction t as [a cs na fn r IH] using Tree_ind'. intros b.
  rewrite traverseBranching_eq. cbn [root children].
  unfold branching_post. rewrite !flat_map_one, analysed_eq, nodes_eq. cbn [root children].
  destruct r as [|c r]; cbn [is_nonterminal upper_initial].
  { rewrite Forall_cons. cbn [root]. tauto. }
  set (r' := String c r). set (t := mkTree a cs na fn r').
  destruct (Py.isupper c).
  2:{ split_and!; [done | intros N; cbn; lia | done]. }
  destruct (decide (r' ∈ b.*1)) as [Hin|Hnotin].
  2:{ rewrite dict_get_Raise by done. by left. }
  destruct (dict_get_Ok b r' Hin) as [cur Hcur]. rewrite Hcur.
  set (b1 := if cur <? length cs then _ else b).
  assert (Hk1 : b1.*1 = b.*1).
  { unfold b1. destruct (cur <? length cs); [by apply dict_set_keys_in | done]. }
  assert (Hv1 : ∀ N, bval b1 N = if decide (r' = N) then cur `max` length cs else bval b N).
  { intros N. unfold b1. destruct (Nat.ltb_spec cur (length cs)).
    - rewrite bval_set. case_decide; [lia | done].
    - case_decide as HN; [|done]. subst N. unfold bval. rewrite Hcur. lia. }
  pose proof (foldR_traverseBranching cs IH b1) as Hcs.
  destruct (foldR traverseBranching cs b1) as [b2|e]; unfold branching_post in Hcs.
  - destruct Hcs as (Hk2 & Hv2 & Hd2). split_and!.
    + congruence.
    + intros N. rewrite Hv2, Hv1, max_arity_cons. unfold t. cbn [root children].
      case_decide as HN; [|done]. subst N. unfold bval. rewrite Hcur. lia.
    + constructor; [done|]. by rewrite <-Hk1.
  - destruct e; try done.
    + rewrite Forall_cons. tauto.
    + right. by rewrite <-Hk1.
Qed.

Lemma init_branching nts : ∀ d : dict nat,
  NoDup d.*1 → (∀ N, bval d N = 0) →
  let b := foldl (λ d nonterminal, dict_set d nonterminal 0) d nts in
  NoDup b.*1 ∧ (∀ k, k ∈ b.*1 ↔ k ∈ d.*1 ∨ k ∈ nts) ∧ (∀ N, bval b N = 0).
Proof.
  induction nts as [|nt nts IH]; intros d Hd H0; cbn [foldl].
  - split_and!; [done | | done]. intros k. rewrite elem_of_nil. tauto.
  - destruct (IH (dict_set d nt 0)) as (Hnd & Hkeys & Hval).
    + destruct (decide (nt ∈ d.*1)).
      * by rewrite dict_set_keys_in.
      * rewrite dict_set_keys_notin by done. apply NoDup_app. split_and!; [done | | ].
        -- intros x ? ->%list_elem_of_singleton. done.
        -- apply NoDup_singleton.
    + intros N. rewrite bval_set. by case_decide.
    + split_and!; [done | | done].
      intros k. rewrite Hkeys, elem_of_cons.
      destruct (decide (nt ∈ d.*1)).
      * rewrite dict_set_keys_in by done.
        split; [tauto | intros [?|[->|?]]; tauto].
      * rewrite dict_set_keys_notin, elem_of_app, list_elem_of_singleton by done.
        tauto.
Qed.

(** The dictionary [branching] after the analysis. *)
Lemma maximalBranching_post self :
  let nts := nonterminals (tag self) in
  let trees := initials (tag self) ++ auxiliaries (tag self) in
  match maximalBranching self with
  | Ok b =>
      NoDup b.*1 ∧ (∀ k, k ∈ b.*1 ↔ k ∈ nts) ∧
      (∀ N, bval b N = maxChildren self N) ∧
      Forall (λ n, root n ∈ nts) (flat_map analysed trees)
  | Raise KeyError => Exists (λ n, root n ∉ nts) (flat_map analysed trees)
  | Raise IndexError => ¬ Forall nonempty_roots trees
  | Raise _ => False
  end.
Proof.
  intros nts trees. unfold maximalBranching. fold nts trees.
  destruct (init_branching nts []) as (Hnd & Hkeys & Hval);
    [constructor | done |]. cbv zeta in Hnd, Hkeys, Hval.
  set (b0 := foldl _ _ nts) in *.
  assert (Hk : ∀ k, k ∈ b0.*1 ↔ k ∈ nts).
  { intros k. rewrite Hkeys, elem_of_nil. tauto. }
  pose proof (foldR_traverseBranching trees) as Hpost.
  specialize (Hpost (proj2 (Forall_forall _ _) (λ t _, traverseBranching_post t)) b0).
  destruct (foldR traverseBranching trees b0) as [b|e]; unfold branching_post in Hpost.
  - destruct Hpost as (Hk' & Hv' & Hd'). split_and!.
    + by rewrite Hk'.
    + intros k. by rewrite Hk'.
    + intros N. rewrite Hv', Hval. done.
    + eapply Forall_impl; [exact Hd'|]. intros n. apply Hk.
  - destruct e; try done.
    + unfold nonempty_roots. by rewrite <-Forall_flat_map.
    + eapply Exists_impl; [exact Hpost|]. intros n Hn Hin. by apply Hn, Hk.
Qed.

Lemma elem_of_flat_map {A B} (f : A → list B) (l : list A) (y : B) :
  y ∈ flat_map f l ↔ ∃ x, x ∈ l ∧ y ∈ f x.
Proof.
  rewrite list_elem_of_In, in_flat_map. setoid_rewrite list_elem_of_In. done.
Qed.

Lemma foldl_addConstant {A} (g : A → option string) (h : A → string) l sig :
  foldl (λ signature x, addConstant signature (g x) (h x)) sig l =
    mkSignature (sig_name sig) (types sig) (constants sig ++ ((λ x, (g x, h x)) <$> l)).
Proof.
  revert sig. induction l as [|x l IH]; intros sig; cbn [foldl fmap list_fmap].
  - rewrite app_nil_r. by destruct sig.
  - rewrite IH. unfold addConstant. cbn [sig_name types constants].
    by rewrite <-(assoc_L (++)).
Qed.

Lemma join_cons2 sep x y l :
  Py.join sep (x :: y :: l) = x +:+ sep +:+ Py.join sep (y :: l).
Proof. reflexivity. Qed.

Lemma arrow_words_cons2 x y l :
  arrow_words (x :: y :: l) = x :: "->" :: arrow_words (y :: l).
Proof. reflexivity. Qed.

Lemma arrow_words_cons x l : ∃ z l', arrow_words (x :: l) = z :: l'.
Proof. destruct l; by eexists _, _. Qed.

Lemma join_arrow l : Py.join " -> " l = Py.join " " (arrow_words l).
Proof.
  destruct l as [|x l]; [done|]. revert x.
  induction l as [|y l IH]; intros x; [done|].
  rewrite join_cons2, IH, arrow_words_cons2.
  destruct (arrow_words_cons y l) as (z & l' & ->).
  by rewrite !join_cons2.
Qed.

Lemma arrow_words_trees n :
  filter (λ w, w = "tree") (arrow_words (replicate n "tree")) = replicate n "tree" ∧
  Forall (λ w, name_ok w = true) (arrow_words (replicate n "tree")).
Proof.
  induction n as [|[|n] [IH1 IH2]]; [by split | by split; repeat constructor |].
  change (replicate (S (S n)) "tree") with ("tree" :: "tree" :: replicate n "tree").
  change (replicate (S n) "tree") with ("tree" :: replicate n "tree") in IH1, IH2.
  rewrite arrow_words_cons2. split.
  - rewrite filter_cons_True, filter_cons_False by done. by rewrite IH1.
  - by repeat constructor.
Qed.

Lemma treeTypeOfLength_trees k :
  length (filter (λ w, w = "tree") (words (treeTypeOfLength (k + 1)))) = k + 1.
Proof.
  unfold treeTypeOfLength. destruct (arrow_words_trees (k + 1)) as [H1 H2].
  by rewrite join_arrow, words_join, H1, length_replicate.
Qed.

Lemma generateDerivedTreeConstants_eq self :
  generateDerivedTreeConstants self =
    match maximalBranching self with
    | Ok branching =>
        Ok (mkACG (tag self) (signatures self) (lexicons self)
              (dict_set (metadata self) "derivedTreeConstants"
                 (flat_map (λ '(nonterminal, n),
                      (λ i, mkConstant (nonterminal +:+ "_" +:+ Py.str i) i) <$> seq 1 n)
                    branching)))
    | Raise e => Raise e
    end.
Proof. unfold generateDerivedTreeConstants. by rewrite res_bind_eq. Qed.

Lemma generateDerivedTrees_eq self derived :
  dict_get (metadata self) "derivedTreeConstants" = Ok derived →
  generateDerivedTrees self =
    Ok (mkACG (tag self)
          (signatures self ++
           [mkSignature "Derived_trees" ["tree"]
              (((λ t, (Some t, "tree")) <$> terminals (tag self)) ++
               ((λ c, (Some (symbol c), treeTypeOfLength (size c + 1))) <$> derived) ++
               [(Some "Empty", "tree")])])
          (lexicons self) (metadata self)).
Proof.
  intros Hd. unfold generateDerivedTrees. rewrite Hd, res_bind_eq.
  rewrite !foldl_addConstant. unfold addConstant, addType, Signature_init.
  cbn [sig_name types constants app]. by rewrite <-(assoc_L (++)).
Qed.

(** C6, as the code has it: for every declared nonterminal [N] the
    constructor constants are the [N_k] for [1 <= k <= maxChildren(N)],
    where the maximum is over the nodes labelled [N] that the analysis
    visits (those all of whose ancestors are nonterminals); they enter the
    [Derived_trees] signature between the terminals and [Empty], each with
    a type of [k + 1] occurrences of [tree]. *)
Theorem derivedTreeConstants_arities (self s1 : ACG) :
  generateDerivedTreeConstants self = Ok s1 →
  ∃ derived s2,
    dict_get (metadata s1) "derivedTreeConstants" = Ok derived ∧
    (∀ c, c ∈ derived ↔
          ∃ N k, N ∈ nonterminals (tag self) ∧ 1 ≤ k ≤ maxChildren self N ∧
                 c = mkConstant (N +:+ "_" +:+ Py.str k) k) ∧
    generateDerivedTrees s1 = Ok s2 ∧
    signatures s2 =
      signatures self ++
      [mkSignature "Derived_trees" ["tree"]
         (((λ t, (Some t, "tree")) <$> terminals (tag self)) ++
          ((λ c, (Some (symbol c), treeTypeOfLength (size c + 1))) <$> derived) ++
          [(Some "Empty", "tree")])] ∧
    ∀ k, length (filter (λ w, w = "tree") (words (treeTypeOfLength (k + 1)))) = k + 1.
Proof.
  rewrite generateDerivedTreeConstants_eq.
  pose proof (maximalBranching_post self) as Hb. cbv zeta in Hb.
  destruct (maximalBranching self) as [b|]; [|done].
  destruct Hb as (Hnd & Hkeys & Hval & _). intros [= <-].
  cbn [metadata tag signatures]. eexists _, _.
  split; [by rewrite dict_get_set, decide_True|].
  split; [|split; [by apply generateDerivedTrees_eq; cbn [metadata];
                      rewrite dict_get_set, decide_True|]].
  - intros c. rewrite elem_of_flat_map. split.
    + intros ([N n] & Hin & Hc). apply list_elem_of_fmap in Hc as (k & -> & Hk).
      apply elem_of_seq in Hk. exists N, k. split_and!; try lia.
      * apply Hkeys, list_elem_of_fmap. by exists (N, n).
      * rewrite <-Hval. unfold bval. rewrite (dict_elem_of_get b N n) by done. lia.
      * done.
    + intros (N & k & HN & Hk & ->). apply Hkeys in HN.
      destruct (dict_get_Ok b N HN) as [n Hn]. exists (N, n).
      split; [by apply dict_get_elem_of|].
      apply list_elem_of_fmap. exists k. split; [done|].
      apply elem_of_seq. rewrite <-Hval in Hk. unfold bval in Hk. rewrite Hn in Hk. lia.
  - split; [done | apply treeTypeOfLength_trees].
Qed.

Lemma derivedTreeConstants_arities_witness :
  ∃ s1, generateDerivedTreeConstants (mkACG tag_john_sleeps [] [] []) = Ok s1 ∧
  ∃ derived s2,
    dict_get (metadata s1) "derivedTreeConstants" = Ok derived ∧
    (∀ c, c ∈ derived ↔
          ∃ N k, N ∈ nonterminals tag_john_sleeps ∧
                 1 ≤ k ≤ maxChildren (mkACG tag_john_sleeps [] [] []) N ∧
                 c = mkConstant (N +:+ "_" +:+ Py.str k) k) ∧
    generateDerivedTrees s1 = Ok s2.
Proof.
  eexists. split; [by vm_compute|].
  edestruct (derivedTreeConstants_arities (mkACG tag_john_sleeps [] [] []))
    as (derived & s2 & H1 & H2 & H3 & _); [by vm_compute|].
  exists derived, s2. exact (conj H1 (conj H2 H3)).
Defined.

Example derivedTreeConstants_john_sleeps :
  ∃ s1, generateDerivedTreeConstants (mkACG tag_john_sleeps [] [] []) = Ok s1 ∧
        dict_get (metadata s1) "derivedTreeConstants" =
          Ok [mkConstant "S_1" 1; mkConstant "S_2" 2; mkConstant "NP_1" 1;
              mkConstant "VP_1" 1].
Proof. eexists. split; by vm_compute. Qed.

(** C6 as stated fails when a nonterminal lies below a lowercase symbol: in
    [a (NP (b) (c))] the node [NP] has two children, and no constant is
    made for [NP]. *)
Lemma derivedTreeConstants_below_terminal :
  ∃ s1, generateDerivedTreeConstants (mkACG tag_below_terminal [] [] []) = Ok s1 ∧
        dict_get (metadata s1) "derivedTreeConstants" = Ok [] ∧
        "NP" ∈ nonterminals tag_below_terminal ∧
        maxChildrenAll (mkACG tag_below_terminal [] [] []) "NP" = 2.
Proof.
  eexists. split; [by vm_compute|]. split; [by vm_compute|].
  split; [by left | by vm_compute].
Qed.

Lemma analysed_nodes t :
  Forall (λ n, n ∈ nodes t ∧ upper_initial (root n) = true) (analysed t).
Proof.
  induction t as [a cs na fn r IH] using Tree_ind'.
  rewrite analysed_eq, nodes_eq. cbn [root children].
  destruct (upper_initial r) eqn:Hr; [|constructor].
  constructor; [split; [by left | done]|].
  apply Forall_flat_map, Forall_forall. intros c Hc.
  rewrite Forall_forall in IH. specialize (IH c Hc).
  eapply Forall_impl; [exact IH|]. intros n [Hn Hup]. split; [|done].
  right. apply elem_of_flat_map. eauto.
Qed.

(** C10, as the code has it: when no symbol of a tree is empty, the
    analysis is total if every uppercase-initial symbol of the trees is
    declared, and it aborts with the error of the lookup if some node that it
    visits (a node all of whose ancestors are nonterminals) has a symbol that
    is not declared. *)
Theorem branching_analysis_total (self : ACG) :
  let trees := initials (tag self) ++ auxiliaries (tag self) in
  Forall nonempty_roots trees →
  (Forall (λ n, upper_initial (root n) = true → root n ∈ nonterminals (tag self))
          (flat_map nodes trees) →
   ∃ s1, generateDerivedTreeConstants self = Ok s1) ∧
  (Exists (λ n, root n ∉ nonterminals (tag self)) (flat_map analysed trees) →
   generateDerivedTreeConstants self = Raise KeyError).
Proof.
  intros trees Hne. rewrite generateDerivedTreeConstants_eq.
  pose proof (maximalBranching_post self) as Hb. cbv zeta in Hb. fold trees in Hb.
  destruct (maximalBranching self) as [b|e].
  - destruct Hb as (_ & _ & _ & Hd). split; [by eexists|].
    intros Hex. apply Exists_exists in Hex as (n & Hn & Hnot).
    rewrite Forall_forall in Hd. destruct Hnot. by apply Hd.
  - destruct e; try done. split; [|done].
    intros Hall. apply Exists_exists in Hb as (n & Hn & Hnot). destruct Hnot.
    apply elem_of_flat_map in Hn as (t & Ht & Hn).
    pose proof (analysed_nodes t) as Han. rewrite Forall_forall in Han.
    destruct (Han n Hn) as [Hnt Hup].
    rewrite Forall_forall in Hall. apply Hall; [|done].
    apply elem_of_flat_map. eauto.
Qed.

Lemma branching_analysis_total_witness :
  Forall nonempty_roots (initials tag_john_sleeps ++ auxiliaries tag_john_sleeps) ∧
  (∃ s1, generateDerivedTreeConstants (mkACG tag_john_sleeps [] [] []) = Ok s1) ∧
  Forall nonempty_roots (initials tag_undeclared ++ auxiliaries tag_undeclared) ∧
  generateDerivedTreeConstants (mkACG tag_undeclared [] [] []) = Raise KeyError.
Proof.
  assert (H1 : Forall nonempty_roots
                 (initials tag_john_sleeps ++ auxiliaries tag_john_sleeps))
    by (by repeat constructor).
  assert (H2 : Forall nonempty_roots (initials tag_undeclared ++ auxiliaries tag_undeclared))
    by (by repeat constructor).
  split; [exact H1|]. split.
  - apply (proj1 (branching_analysis_total (mkACG tag_john_sleeps [] [] []) H1)).
    cbn. repeat (once constructor); done.
  - split; [exact H2|].
    apply (proj2 (branching_analysis_total (mkACG tag_undeclared [] [] []) H2)).
    cbn. right. left. cbn. by intros ?%list_elem_of_singleton.
Defined.

(** C10 as stated fails in both halves: an undeclared uppercase-initial
    symbol below a lowercase symbol is never looked up, so that the analysis
    of [a (B)] returns; and a tree with an empty symbol, which meets the
    precondition, makes the analysis raise [IndexError]. *)
Lemma branching_analysis_below_terminal :
  (∃ n, n ∈ flat_map nodes (initials tag_undeclared_below_terminal) ∧
        upper_initial (root n) = true ∧
        root n ∉ nonterminals tag_undeclared_below_terminal) ∧
  (∃ s1, generateDerivedTreeConstants (mkACG tag_undeclared_below_terminal [] [] []) = Ok s1 ∧
         dict_get (metadata s1) "derivedTreeConstants" = Ok []) ∧
  Forall (λ n, upper_initial (root n) = true → root n ∈ nonterminals tag_empty_symbol)
         (flat_map nodes (initials tag_empty_symbol)) ∧
  generateDerivedTreeConstants (mkACG tag_empty_symbol [] [] []) = Raise IndexError.
Proof.
  split_and!.
  - exists (mkTree 0 [] false false "B"). split_and!; [| done | by intros ?%elem_of_nil].
    cbn. right. by left.
  - eexists. split; by vm_compute.
  - by repeat constructor.
  - by vm_compute.
Qed.


(** ** Parsing and numbering (C7) *)

Lemma sexp_ind' (P : sexp → Prop) :
  (∀ s, P (Symbol s)) → (∀ l, Forall P l → P (SList l)) → P Atom → ∀ x, P x.
Proof.
  intros Hs Hl Ha. fix IH 1. intros [s|l|]; [apply Hs | | apply Ha].
  apply Hl. induction l as [|x l IHl]; constructor; [apply IH | apply IHl].
Qed.

Lemma Tree_init_inv sym cs σ t σ' :
  Tree_init sym cs σ = Ok (t, σ') →
  ref t = length σ ∧ children t = cs ∧ σ' = σ ++ [mkCell None None].
Proof.
  destruct sym as [|c sym]; [done|]. rewrite Tree_init_eq by done. cbv zeta.
  by intros [= <- <-].
Qed.

Lemma parseSymList_eq symList σ :
  parseSymList symList σ =
    match symList with
    | SList [] => Raise IndexError
    | SList (hd :: tl) =>
        match value_of hd with
        | Raise e => Raise e
        | Ok root =>
            match forM parseSymList tl σ with
            | Raise e => Raise e
            | Ok (children, σ1) => Tree_init root children σ1
            end
        end
    | _ =>
        match value_of symList with
        | Raise e => Raise e
        | Ok root => Tree_init root [] σ
        end
    end.
Proof.
  destruct symList as [s|[|hd tl]|]; cbn [parseSymList]; try done.
  rewrite M_bind_eq. unfold lift at 1. destruct (value_of hd); [|done].
  rewrite M_bind_eq. by destruct (forM parseSymList tl σ) as [[]|].
Qed.

(** The trees that a loop builds one after the other: each root is a new
    object, after those of the trees before it. *)
Lemma forM_roots {A} (f : A → M Tree) l :
  Forall (λ x, ∀ σ t σ', f x σ = Ok (t, σ') → length σ ≤ ref t < length σ') l →
  ∀ σ ts σ', forM f l σ = Ok (ts, σ') →
    length σ ≤ length σ' ∧ length ts = length l ∧
    Forall (λ t, length σ ≤ ref t < length σ') ts ∧ NoDup (ref <$> ts).
Proof.
  induction 1 as [|x l Hx _ IH]; intros σ ts σ'.
  - intros [= <- <-]. split_and!; [done | done | constructor | constructor].
  - rewrite forM_cons. destruct (f x σ) as [[t σ1]|] eqn:E1; [|done].
    destruct (forM f l σ1) as [[ts' σ2]|] eqn:E2; [|done]. intros [= <- <-].
    specialize (Hx _ _ _ E1). destruct (IH _ _ _ E2) as (Hlen & Hl & Hrefs & Hnd).
    split_and!; [lia | by cbn [length]; rewrite Hl | | ].
    + constructor; [lia|]. eapply Forall_impl; [exact Hrefs|]. intros y; cbn beta; lia.
    + rewrite fmap_cons. apply NoDup_cons. split; [|done].
      intros (y & Hy & Hin)%list_elem_of_fmap.
      rewrite Forall_forall in Hrefs. specialize (Hrefs y Hin). cbn beta in Hrefs. lia.
Qed.

Lemma forM_lookup {A B} (f : A → M B) l :
  ∀ σ ys σ', forM f l σ = Ok (ys, σ') →
  ∀ n x, l !! n = Some x → ∃ y σa σb, ys !! n = Some y ∧ f x σa = Ok (y, σb).
Proof.
  induction l as [|x0 l IH]; intros σ ys σ'.
  - intros _ n x. by rewrite lookup_nil.
  - rewrite forM_cons. destruct (f x0 σ) as [[y0 σ1]|] eqn:E1; [|done].
    destruct (forM f l σ1) as [[ys' σ2]|] eqn:E2; [|done]. intros [= <- <-].
    intros [|n] x; cbn [lookup list_lookup].
    + intros [= <-]. by exists y0, σ, σ1.
    + apply (IH _ _ _ E2).
Qed.

Lemma parseSymList_root symList :
  ∀ σ t σ', parseSymList symList σ = Ok (t, σ') → length σ ≤ ref t < length σ'.
Proof.
  induction symList as [s|l IH|] using sexp_ind'; intros σ t σ';
    rewrite parseSymList_eq.
  - cbn [value_of]. intros (-> & _ & ->)%Tree_init_inv. rewrite length_app. cbn; lia.
  - destruct l as [|hd tl]; [done|]. destruct (value_of hd); [|done].
    apply Forall_cons in IH as [_ IH].
    destruct (forM parseSymList tl σ) as [[cs σ1]|] eqn:E; [|done].
    apply (forM_roots _ _ IH) in E as (Hlen & _).
    intros (-> & _ & ->)%Tree_init_inv. rewrite length_app. cbn; lia.
  - done.
Qed.

Lemma parseTree_root loads tree σ t σ' :
  parseTree loads tree σ = Ok (t, σ') → length σ ≤ ref t < length σ'.
Proof.
  unfold parseTree. rewrite M_bind_eq. unfold lift.
  destruct (loads _); [|done]. apply parseSymList_root.
Qed.

Lemma parseTrees_roots loads trees σ ts σ' :
  parseTrees loads trees σ = Ok (ts, σ') →
  length σ ≤ length σ' ∧ length ts = length trees ∧
  Forall (λ t, length σ ≤ ref t < length σ') ts ∧ NoDup (ref <$> ts).
Proof.
  apply forM_roots, Forall_forall. intros tree _ σ0 t σ0'. apply parseTree_root.
Qed.

(** One loop of [numberTrees]. *)
Lemma number_loop (prefix : string) (f : Tree → nat → M nat) :
  (∀ t c σ, f t c σ =
            Ok (c + 1, alter (λ c0, mkCell (Some (prefix +:+ Py.str c)) (varname c0))
                             (ref t) σ)) →
  ∀ ts count σ,
  ∃ σ',
    foldM f ts count σ = Ok (count + length ts, σ') ∧
    length σ' = length σ ∧
    (∀ a, a ∉ ref <$> ts → σ' !! a = σ !! a) ∧
    (NoDup (ref <$> ts) → Forall (λ t, ref t < length σ) ts →
     ∀ n t, ts !! n = Some t →
            σ' !! ref t ≫= identifier = Some (prefix +:+ Py.str (count + n))).
Proof.
  intros Hf. induction ts as [|t ts IH]; intros count σ.
  - exists σ. cbn [foldM length]. rewrite Nat.add_0_r.
    split_and!; [done | done | done |].
    intros _ _ n t. by rewrite lookup_nil.
  - rewrite foldM_cons, Hf.
    set (σ1 := alter _ (ref t) σ).
    destruct (IH (count + 1) σ1) as (σ' & -> & Hlen & Hframe & Hids).
    assert (Hlen1 : length σ1 = length σ) by apply length_alter.
    exists σ'. split_and!.
    + f_equal. f_equal. cbn [length]. lia.
    + congruence.
    + intros a. rewrite fmap_cons, not_elem_of_cons. intros [Ha Hts].
      rewrite Hframe by done. by apply list_lookup_alter_ne.
    + rewrite fmap_cons, NoDup_cons, Forall_cons. intros [Ht Hnd] [Hlt Hall] n t'.
      destruct n as [|n]; cbn [lookup list_lookup].
      * intros [= <-]. rewrite Hframe by done. unfold σ1.
        rewrite list_lookup_alter_eq, Nat.add_0_r.
        by destruct (lookup_lt_is_Some_2 σ (ref t) Hlt) as [c ->].
      * intros Hn. fold (ts !! n) in Hn.
        replace (count + S n) with (count + 1 + n) by lia.
        apply Hids; [done | | done].
        eapply Forall_impl; [exact Hall|]. intros y; cbn beta; lia.
Qed.

(** [numberTrees] on trees that are distinct objects of the store. *)
Lemma numberTrees_spec (self : TAG) (σ : store) :
  NoDup (ref <$> initials self ++ auxiliaries self) →
  Forall (λ t, ref t < length σ) (initials self ++ auxiliaries self) →
  ∃ σ', numberTrees self σ = Ok (tt, σ') ∧
    length σ' = length σ ∧
    (∀ n t, initials self !! n = Some t →
            σ' !! ref t ≫= identifier = Some ("C_TI" +:+ Py.str n)) ∧
    (∀ n t, auxiliaries self !! n = Some t →
            σ' !! ref t ≫= identifier =
              Some ("C_TA" +:+ Py.str (length (initials self) + n))).
Proof.
  rewrite fmap_app, NoDup_app, Forall_app. intros (Hnd1 & Hdisj & Hnd2) [Hall1 Hall2].
  unfold numberTrees. rewrite M_bind_eq.
  destruct (number_loop "C_TI"
              (λ tree count,
                 _ ← set_identifier tree ("C_TI" +:+ Py.str count); mret (count + 1))
              (λ _ _ _, eq_refl) (initials self) 0 σ)
    as (σ1 & -> & Hlen1 & Hframe1 & Hids1).
  rewrite M_bind_eq.
  destruct (number_loop "C_TA"
              (λ tree count,
                 _ ← set_identifier tree ("C_TA" +:+ Py.str count); mret (count + 1))
              (λ _ _ _, eq_refl) (auxiliaries self)
              (0 + length (initials self)) σ1)
    as (σ2 & -> & Hlen2 & Hframe2 & Hids2).
  exists σ2. split_and!.
  - done.
  - congruence.
  - intros n t Hn. rewrite Hframe2.
    + by apply (Hids1 Hnd1 Hall1 n t Hn).
    + apply Hdisj, list_elem_of_fmap. exists t. split; [done|].
      by apply list_elem_of_lookup_2 in Hn.
  - intros n t Hn. apply (Hids2 Hnd2); [|done].
    eapply Forall_impl; [exact Hall2|]. intros y; cbn beta; lia.
Qed.

(** C7: the grammar that [TAG.__init__] builds has one tree for each tree
    description, in the order of the descriptions; its initial trees are
    numbered [C_TI0] to [C_TI(m-1)] and its auxiliary trees [C_TA(m)] to
    [C_TA(m+k-1)], each family in the order of the grammar. *)
Theorem numberTrees_identifiers
    (loads : string → res sexp) (contents : Contents) (σ σ' : store) (tag : TAG) :
  TAG_init loads contents σ = Ok (tag, σ') →
  length (initials tag) = length (c_initials contents) ∧
  length (auxiliaries tag) = length (c_auxiliaries contents) ∧
  (∀ n text, c_initials contents !! n = Some text →
     ∃ t σa σb, initials tag !! n = Some t ∧ parseTree loads text σa = Ok (t, σb)) ∧
  (∀ n text, c_auxiliaries contents !! n = Some text →
     ∃ t σa σb, auxiliaries tag !! n = Some t ∧ parseTree loads text σa = Ok (t, σb)) ∧
  (∀ n t, initials tag !! n = Some t →
          σ' !! ref t ≫= identifier = Some ("C_TI" +:+ Py.str n)) ∧
  (∀ n t, auxiliaries tag !! n = Some t →
          σ' !! ref t ≫= identifier =
            Some ("C_TA" +:+ Py.str (length (initials tag) + n))).
Proof.
  unfold TAG_init. rewrite M_bind_eq.
  destruct (parseTrees loads (c_initials contents) σ) as [[ts1 σ1]|] eqn:E1; [|done].
  rewrite M_bind_eq.
  destruct (parseTrees loads (c_auxiliaries contents) σ1) as [[ts2 σ2]|] eqn:E2; [|done].
  pose proof (forM_lookup _ _ _ _ _ E1) as Hord1.
  pose proof (forM_lookup _ _ _ _ _ E2) as Hord2.
  apply parseTrees_roots in E1 as (Hlen1 & Hl1 & Hrefs1 & Hnd1).
  apply parseTrees_roots in E2 as (Hlen2 & Hl2 & Hrefs2 & Hnd2).
  rewrite M_bind_eq.
  set (self := mkTAG _ _ ts1 ts2 _).
  destruct (numberTrees_spec self σ2) as (σ3 & -> & _ & Hids1 & Hids2).
  - cbn [initials auxiliaries self]. rewrite fmap_app. apply NoDup_app.
    split_and!; [done | | done].
    intros a (t1 & -> & Hin1)%list_elem_of_fmap (t2 & Heq & Hin2)%list_elem_of_fmap.
    rewrite Forall_forall in Hrefs1, Hrefs2.
    specialize (Hrefs1 _ Hin1). specialize (Hrefs2 _ Hin2). cbn beta in *. lia.
  - cbn [initials auxiliaries self]. apply Forall_app. split.
    + eapply Forall_impl; [exact Hrefs1|]. intros y; cbn beta; lia.
    + eapply Forall_impl; [exact Hrefs2|]. intros y; cbn beta; lia.
  - cbv [mret M_ret]. intros [= <- <-]. by split_and!.
Qed.

Lemma numberTrees_identifiers_witness :
  ∃ tag σ',
    TAG_init loads_scenarios contents_with_auxiliary [] = Ok (tag, σ') ∧
    length (initials tag) = 2 ∧ length (auxiliaries tag) = 1 ∧
    (∀ n t, initials tag !! n = Some t →
            σ' !! ref t ≫= identifier = Some ("C_TI" +:+ Py.str n)) ∧
    (∀ n t, auxiliaries tag !! n = Some t →
            σ' !! ref t ≫= identifier =
              Some ("C_TA" +:+ Py.str (length (initials tag) + n))).
Proof.
  eexists _, _. split; [by vm_compute|].
  edestruct (numberTrees_identifiers loads_scenarios contents_with_auxiliary [])
    as (H1 & H2 & _ & _ & H3 & H4); [by vm_compute|].
  exact (conj H1 (conj H2 (conj H3 H4))).
Defined.

Example numberTrees_with_auxiliary :
  ∃ tag σ',
    TAG_init loads_scenarios contents_with_auxiliary [] = Ok (tag, σ') ∧
    (λ t, σ' !! ref t ≫= identifier) <$> (initials tag ++ auxiliaries tag) =
      [Some "C_TI0"; Some "C_TI1"; Some "C_TA2"].
Proof. eexists _, _. split; by vm_compute. Qed.

(** ** Independence of the store (C9) *)

Section shift.
Variable pre : store.
Local Abbreviation k := (length pre).

Lemma shift_eq t :
  shift k t =
    mkTree (k + ref t) (shift k <$> children t) (nonadjoining t) (footnode t) (root t).
Proof. by destruct t. Qed.

Lemma lookup_shift (σ : store) a : (pre ++ σ) !! (k + a) = σ !! a.
Proof. rewrite lookup_app_r by lia. f_equal. lia. Qed.

Lemma alter_shift (f : cell → cell) (σ : store) a :
  alter f (k + a) (pre ++ σ) = pre ++ alter f a σ.
Proof. apply alter_app_r. Qed.

Lemma bind_shifted {A B} (m m' : M A) (f f' : A → M B) (hA : A → A) (hB : B → B) :
  (∀ σ, m' (pre ++ σ) = shifted_run pre hA (m σ)) →
  (∀ a σ, f' (hA a) (pre ++ σ) = shifted_run pre hB (f a σ)) →
  ∀ σ, (m' ≫= f') (pre ++ σ) = shifted_run pre hB ((m ≫= f) σ).
Proof.
  intros Hm Hf σ. rewrite !M_bind_eq, Hm.
  destruct (m σ) as [[a σ']|]; cbn [shifted_run]; [apply Hf | done].
Qed.

Lemma ret_shifted {A} (h : A → A) (a : A) σ :
  mret (M := M) (h a) (pre ++ σ) = shifted_run pre h (mret (M := M) a σ).
Proof. reflexivity. Qed.

Lemma lift_shifted {A} (r : res A) σ :
  lift r (pre ++ σ) = shifted_run pre id (lift r σ).
Proof. by destruct r. Qed.

Lemma forM_shifted {A B} (f : A → M B) (g : A → A) (h : B → B) l :
  Forall (λ x, ∀ σ, f (g x) (pre ++ σ) = shifted_run pre h (f x σ)) l →
  ∀ σ, forM f (g <$> l) (pre ++ σ) = shifted_run pre (fmap h) (forM f l σ).
Proof.
  induction 1 as [|x l Hx _ IH]; intros σ; [done|].
  rewrite fmap_cons, !forM_cons, Hx.
  destruct (f x σ) as [[y σ1]|]; cbn [shifted_run]; [|done].
  rewrite IH. by destruct (forM f l σ1) as [[ys σ2]|].
Qed.

Lemma foldM_shifted {A B} (f : A → B → M B) (g : A → A) l :
  Forall (λ x, ∀ b σ, f (g x) b (pre ++ σ) = shifted_run pre id (f x b σ)) l →
  ∀ b σ, foldM f (g <$> l) b (pre ++ σ) = shifted_run pre id (foldM f l b σ).
Proof.
  induction 1 as [|x l Hx _ IH]; intros b σ; [done|].
  rewrite fmap_cons, !foldM_cons, Hx.
  destruct (f x b σ) as [[b' σ1]|]; cbn [shifted_run id]; [apply IH | done].
Qed.

Lemma foldR_shift {A B} (f : A → B → res B) (g : A → A) l :
  Forall (λ x, ∀ b, f (g x) b = f x b) l →
  ∀ b, foldR f (g <$> l) b = foldR f l b.
Proof.
  induction 1 as [|x l Hx _ IH]; intros b; [done|].
  rewrite fmap_cons, !foldR_cons, Hx. destruct (f x b); [apply IH | done].
Qed.

Lemma get_identifier_shifted t σ :
  get_identifier (shift k t) (pre ++ σ) = shifted_run pre id (get_identifier t σ).
Proof. unfold get_identifier. rewrite shift_eq. cbn [ref]. by rewrite lookup_shift. Qed.

Lemma traverse_shift t : ∀ st, traverse (shift k t) st = traverse t st.
Proof.
  induction t as [a cs na fn r IH] using Tree_ind'. intros st.
  rewrite shift_eq. cbn [traverse root children footnode nonadjoining].
  destruct (is_nonterminal r) as [nt|]; [|done]. rewrite !res_bind_eq.
  by rewrite length_fmap, (foldR_shift _ _ _ IH).
Qed.

Lemma typeForTree_shift t initial : typeForTree (shift k t) initial = typeForTree t initial.
Proof.
  unfold typeForTree, typeNodes. rewrite traverse_shift, shift_eq. by cbn [root].
Qed.

Lemma traverseBranching_shift t : ∀ b, traverseBranching (shift k t) b = traverseBranching t b.
Proof.
  induction t as [a cs na fn r IH] using Tree_ind'. intros b.
  rewrite shift_eq, !traverseBranching_eq. cbn [root children].
  destruct (is_nonterminal r) as [[]|]; [| done | done].
  destruct (dict_get b r); [|done].
  by rewrite length_fmap, (foldR_shift _ _ _ IH).
Qed.

Lemma deepcopy_shifted t :
  ∀ σ, deepcopy (shift k t) (pre ++ σ) = shifted_run pre (shift k) (deepcopy t σ).
Proof.
  induction t as [a cs na fn r IH] using Tree_ind'. intros σ.
  rewrite !deepcopy_eq, shift_eq. cbn [ref children nonadjoining footnode root].
  rewrite lookup_shift, <-(assoc_L (++)), (forM_shifted _ _ _ _ IH).
  destruct (forM deepcopy cs _) as [[cs' σ']|]; cbn [shifted_run]; [|done].
  by rewrite length_app.
Qed.

Lemma varTraverse_shifted t :
  ∀ st σ, varTraverse (shift k t) st (pre ++ σ) = shifted_run pre id (varTraverse t st σ).
Proof.
  induction t as [a cs na fn r IH] using Tree_ind'. intros st σ.
  rewrite !varTraverse_eq, shift_eq. cbn [ref children nonadjoining footnode root]. cbv zeta.
  destruct (is_nonterminal r) as [nt|]; [|done].
  rewrite alter_shift, lookup_shift, length_fmap.
  apply (foldM_shifted _ _ _ IH).
Qed.

Lemma constructExpression_shifted t :
  ∀ σ, constructExpression (shift k t) (pre ++ σ)
       = shifted_run pre id (constructExpression t σ).
Proof.
  induction t as [a cs na fn r IH] using Tree_ind'. intros σ.
  rewrite !constructExpression_eq, shift_eq.
  cbn [ref children nonadjoining footnode root].
  destruct (is_nonterminal r) as [nt|]; [|done].
  destruct (negb nt); [done|]. rewrite lookup_shift.
  destruct fn; [by destruct na|].
  rewrite (forM_shifted _ _ id).
  - destruct (forM _ cs σ) as [[es σ']|]; cbn [shifted_run]; [|done].
    rewrite list_fmap_id, lookup_shift. by destruct na.
  - eapply Forall_impl; [exact IH|]. intros c Hc σ0.
    apply (bind_shifted _ _ _ _ id id); [apply Hc|]. intros e σ1. apply (ret_shifted id).
Qed.
End shift.

Section shift_pipeline.
Variable pre : store.
Local Abbreviation k := (length pre).

Lemma set_identifier_shifted t v σ :
  set_identifier (shift k t) v (pre ++ σ) = shifted_run pre id (set_identifier t v σ).
Proof.
  unfold set_identifier. rewrite shift_eq. cbn [ref shifted_run id].
  by rewrite alter_shift.
Qed.

Lemma Tree_init_shifted sym cs σ :
  Tree_init sym (shift k <$> cs) (pre ++ σ) = shifted_run pre (shift k) (Tree_init sym cs σ).
Proof.
  destruct sym as [|c sym]; [done|]. rewrite !Tree_init_eq by done. cbv zeta.
  cbn [shifted_run shift ref children nonadjoining footnode root].
  by rewrite length_app, (assoc_L (++)).
Qed.

Lemma parseSymList_shifted symList :
  ∀ σ, parseSymList symList (pre ++ σ) = shifted_run pre (shift k) (parseSymList symList σ).
Proof.
  induction symList as [s|l IH|] using sexp_ind'; intros σ; rewrite !parseSymList_eq.
  - cbn [value_of]. apply (Tree_init_shifted s []).
  - destruct l as [|hd tl]; [done|]. destruct (value_of hd) as [r|]; [|done].
    apply Forall_cons in IH as [_ IH].
    rewrite <-(list_fmap_id tl) at 1. rewrite (forM_shifted pre _ id (shift k) tl IH).
    destruct (forM parseSymList tl σ) as [[cs σ1]|]; cbn [shifted_run]; [|done].
    apply Tree_init_shifted.
  - done.
Qed.

Lemma parseTrees_shifted loads trees σ :
  parseTrees loads trees (pre ++ σ)
  = shifted_run pre (fmap (shift k)) (parseTrees loads trees σ).
Proof.
  unfold parseTrees. rewrite <-(list_fmap_id trees) at 1.
  apply forM_shifted, Forall_forall. intros tree _ σ0. unfold parseTree.
  apply (bind_shifted pre _ _ _ _ id (shift k)); [apply lift_shifted|].
  intros data σ1. apply parseSymList_shifted.
Qed.

Lemma numberTrees_shifted self σ :
  numberTrees (shift_tag k self) (pre ++ σ) = shifted_run pre id (numberTrees self σ).
Proof.
  unfold numberTrees. cbn [shift_tag initials auxiliaries].
  apply (bind_shifted pre _ _ _ _ id id).
  { intros σ0. apply foldM_shifted, Forall_forall. intros t _ count σ1.
    apply (bind_shifted pre _ _ _ _ id id); [apply set_identifier_shifted|].
    intros _ σ2. apply (ret_shifted pre id). }
  intros count σ0. apply (bind_shifted pre _ _ _ _ id id).
  { intros σ1. apply foldM_shifted, Forall_forall. intros t _ count' σ2.
    apply (bind_shifted pre _ _ _ _ id id); [apply set_identifier_shifted|].
    intros _ σ3. apply (ret_shifted pre id). }
  intros _ σ1. apply (ret_shifted pre id).
Qed.

Lemma TAG_init_shifted loads contents σ :
  TAG_init loads contents (pre ++ σ)
  = shifted_run pre (shift_tag k) (TAG_init loads contents σ).
Proof.
  unfold TAG_init.
  apply (bind_shifted pre _ _ _ _ (fmap (shift k)) (shift_tag k));
    [intros σ0; apply parseTrees_shifted|].
  intros ts1 σ1.
  apply (bind_shifted pre _ _ _ _ (fmap (shift k)) (shift_tag k));
    [intros σ0; apply parseTrees_shifted|].
  intros ts2 σ2. cbv zeta.
  apply (bind_shifted pre _ _ _ _ id (shift_tag k)).
  - intros σ0. apply (numberTrees_shifted (mkTAG _ _ ts1 ts2 _)).
  - intros _ σ3. reflexivity.
Qed.

Lemma lambdaRealizationOfTree_shifted t initial σ :
  lambdaRealizationOfTree (shift k t) initial (pre ++ σ)
  = shifted_run pre id (lambdaRealizationOfTree t initial σ).
Proof.
  unfold lambdaRealizationOfTree.
  apply (bind_shifted pre _ _ _ _ (shift k) id); [apply deepcopy_shifted|].
  intros t' σ1. apply (bind_shifted pre _ _ _ _ id id).
  { intros σ2. unfold allVarsOfCopy.
    apply (bind_shifted pre _ _ _ _ id id); [apply varTraverse_shifted|].
    intros st σ3. apply (ret_shifted pre id). }
  intros allVars σ2. apply (bind_shifted pre _ _ _ _ id id); [apply lift_shifted|].
  intros joined σ3. cbv zeta.
  apply (bind_shifted pre _ _ _ _ id id); [apply constructExpression_shifted|].
  intros expr σ4. apply (ret_shifted pre id).
Qed.
Lemma generateDerivationTrees_shifted self σ :
  generateDerivationTrees (shift_acg k self) (pre ++ σ)
  = shifted_run pre (shift_acg k) (generateDerivationTrees self σ).
Proof.
  unfold generateDerivationTrees.
  cbn [shift_acg shift_tag tag nonterminals initials auxiliaries signatures lexicons metadata].
  cbv zeta. apply (bind_shifted pre _ _ _ _ id (shift_acg k)).
  { intros σ0. apply foldM_shifted, Forall_forall. intros t _ signature σ1.
    apply (bind_shifted pre _ _ _ _ id id); [apply get_identifier_shifted|].
    intros constant σ2. rewrite typeForTree_shift.
    apply (bind_shifted pre _ _ _ _ id id); [apply lift_shifted|].
    intros ty σ3. apply (ret_shifted pre id). }
  intros signature σ0. apply (bind_shifted pre _ _ _ _ id (shift_acg k)).
  { intros σ1. apply foldM_shifted, Forall_forall. intros t _ signature' σ2.
    apply (bind_shifted pre _ _ _ _ id id); [apply get_identifier_shifted|].
    intros constant σ3. rewrite typeForTree_shift.
    apply (bind_shifted pre _ _ _ _ id id); [apply lift_shifted|].
    intros ty σ4. apply (ret_shifted pre id). }
  intros signature' σ1. reflexivity.
Qed.

Lemma generateDerivedTreeConstants_shift self :
  generateDerivedTreeConstants (shift_acg k self)
  = res_map (shift_acg k) (generateDerivedTreeConstants self).
Proof.
  rewrite !generateDerivedTreeConstants_eq. unfold maximalBranching.
  cbn [shift_acg shift_tag tag nonterminals initials auxiliaries signatures lexicons metadata].
  rewrite <-fmap_app, foldR_shift.
  - by destruct (foldR traverseBranching _ _).
  - apply Forall_forall. intros t _. apply traverseBranching_shift.
Qed.

Lemma generateDerivedTrees_shift self :
  generateDerivedTrees (shift_acg k self) = res_map (shift_acg k) (generateDerivedTrees self).
Proof.
  unfold generateDerivedTrees.
  cbn [shift_acg shift_tag tag terminals signatures lexicons metadata].
  rewrite !res_bind_eq. by destruct (dict_get (metadata self) _).
Qed.

Lemma generateStringSignature_shift self :
  generateStringSignature (shift_acg k self) = shift_acg k (generateStringSignature self).
Proof. reflexivity. Qed.

Lemma generateYieldLexicons_shift self :
  generateYieldLexicons (shift_acg k self)
  = res_map (shift_acg k) (generateYieldLexicons self).
Proof.
  unfold generateYieldLexicons.
  cbn [shift_acg shift_tag tag terminals signatures lexicons metadata].
  rewrite !res_bind_eq. by destruct (dict_get (metadata self) _).
Qed.


Lemma generateAbsLexicon_shifted self σ :
  generateAbsLexicon (shift_acg k self) (pre ++ σ)
  = shifted_run pre (shift_acg k) (generateAbsLexicon self σ).
Proof.
  unfold generateAbsLexicon.
  cbn [shift_acg shift_tag tag nonterminals initials auxiliaries signatures lexicons metadata].
  cbv zeta. apply (bind_shifted pre _ _ _ _ id (shift_acg k)).
  { intros σ0. apply foldM_shifted, Forall_forall. intros t _ lexicon σ1.
    apply (bind_shifted pre _ _ _ _ id id); [apply lambdaRealizationOfTree_shifted|].
    intros expr σ2.
    apply (bind_shifted pre _ _ _ _ id id); [apply get_identifier_shifted|].
    intros identifier σ3. apply (ret_shifted pre id). }
  intros lexicon σ0. apply (bind_shifted pre _ _ _ _ id (shift_acg k)).
  { intros σ1. apply foldM_shifted, Forall_forall. intros t _ lexicon' σ2.
    apply (bind_shifted pre _ _ _ _ id id); [apply lambdaRealizationOfTree_shifted|].
    intros expr σ3.
    apply (bind_shifted pre _ _ _ _ id id); [apply get_identifier_shifted|].
    intros identifier σ4. apply (ret_shifted pre id). }
  intros lexicon' σ1. reflexivity.
Qed.

Lemma lift_res_map_shifted {A} (h : A → A) (r : res A) σ :
  lift (res_map h r) (pre ++ σ) = shifted_run pre h (lift r σ).
Proof. by destruct r. Qed.

Lemma generateACG_shifted self σ :
  generateACG (shift_acg k self) (pre ++ σ)
  = shifted_run pre (shift_acg k) (generateACG self σ).
Proof.
  unfold generateACG.
  apply (bind_shifted pre _ _ _ _ (shift_acg k) (shift_acg k));
    [apply generateDerivationTrees_shifted|].
  intros s1 σ1. apply (bind_shifted pre _ _ _ _ (shift_acg k) (shift_acg k)).
  { intros σ0. rewrite generateDerivedTreeConstants_shift. apply lift_res_map_shifted. }
  intros s2 σ2. apply (bind_shifted pre _ _ _ _ (shift_acg k) (shift_acg k)).
  { intros σ0. rewrite generateDerivedTrees_shift. apply lift_res_map_shifted. }
  intros s3 σ3. cbv zeta. rewrite generateStringSignature_shift.
  apply (bind_shifted pre _ _ _ _ (shift_acg k) (shift_acg k));
    [apply generateAbsLexicon_shifted|].
  intros s4 σ4. apply (bind_shifted pre _ _ _ _ (shift_acg k) (shift_acg k)).
  { intros σ0. rewrite generateYieldLexicons_shift. apply lift_res_map_shifted. }
  intros s5 σ5. reflexivity.
Qed.

Lemma main_shifted loads contents σ :
  main loads contents (pre ++ σ) = shifted_run pre id (main loads contents σ).
Proof.
  unfold main.
  apply (bind_shifted pre _ _ _ _ (shift_tag k) id); [apply TAG_init_shifted|].
  intros tag σ1. apply (bind_shifted pre _ _ _ _ (shift_acg k) id).
  { intros σ0. apply (generateACG_shifted (mkACG tag [] [] [])). }
  intros acg σ2. reflexivity.
Qed.

Lemma document_shifted loads contents σ :
  document loads contents (pre ++ σ) = document loads contents σ.
Proof.
  unfold document. rewrite main_shifted.
  by destruct (main loads contents σ) as [[]|].
Qed.

Lemma compile_shifted loads contents σ :
  (tag ← TAG_init loads contents; ACG_init tag) (pre ++ σ)
  = shifted_run pre (shift_acg k) ((tag ← TAG_init loads contents; ACG_init tag) σ).
Proof.
  apply (bind_shifted pre _ _ _ _ (shift_tag k) (shift_acg k));
    [apply TAG_init_shifted|].
  intros tag σ0. apply (generateACG_shifted (mkACG tag [] [] [])).
Qed.

Lemma compiled_shifted loads contents σ :
  compiled loads contents (pre ++ σ) = compiled loads contents σ.
Proof.
  unfold compiled. rewrite compile_shifted.
  by destruct ((tag ← TAG_init loads contents; ACG_init tag) σ) as [[]|].
Qed.
End shift_pipeline.

(** C9: the output of the compiler is a function of the input grammar
    alone: two runs on the same input, from any two stores, build the same
    signatures and lexicons in the same order and write the same text, or
    raise the same exception. *)
Theorem document_deterministic
    (loads : string → res sexp) (contents : Contents) (σ1 σ2 : store) :
  document loads contents σ1 = document loads contents σ2 ∧
  compiled loads contents σ1 = compiled loads contents σ2.
Proof.
  rewrite <-(app_nil_r σ1), <-(app_nil_r σ2).
  by rewrite !document_shifted, !compiled_shifted.
Qed.

(** The text of scenario 1 begins with the [Derivation_trees] signature. *)
Example document_scenario1 :
  ∃ text, document loads_scenarios contents_scenario1 [] = Ok text ∧
          Py.startswith text ("signature Derivation_trees = " +:+ nl +:+
                               "    S_S: type;" +:+ nl) = true.
Proof. eexists. split; by vm_compute. Qed.

(** ** Scenario 1 (C1) *)

Lemma forM_ext {A B} (f g : A → M B) l :
  Forall (λ x, ∀ σ, f x σ = g x σ) l → ∀ σ, forM f l σ = forM g l σ.
Proof.
  induction 1 as [|x l Hx _ IH]; intros σ; [done|].
  rewrite !forM_cons, Hx. destruct (g x σ) as [[y σ1]|]; [|done]. by rewrite IH.
Qed.

(** [TAG.__init__] reads [loads] at the tree descriptions only. *)
Lemma TAG_init_ext loads loads' contents :
  Forall (λ tree, ∀ σ, parseTree loads tree σ = parseTree loads' tree σ)
         (c_initials contents ++ c_auxiliaries contents) →
  ∀ σ, TAG_init loads contents σ = TAG_init loads' contents σ.
Proof.
  intros [H1 H2]%Forall_app σ. unfold TAG_init, parseTrees.
  rewrite !M_bind_eq, (forM_ext _ _ _ H1).
  destruct (forM (parseTree loads') (c_initials contents) σ) as [[ts1 σ1]|]; [|done].
  by rewrite !M_bind_eq, (forM_ext _ _ _ H2).
Qed.

Lemma parseTree_loads loads tree text data σ :
  (if negb (Py.startswith tree "(" && Py.endswith tree ")")
   then "(" +:+ tree +:+ ")" else tree) = text →
  loads text = Ok data →
  parseTree loads tree σ = parseSymList data σ.
Proof. intros Htext Hdata. unfold parseTree. cbv zeta. by rewrite Htext, M_bind_eq, Hdata. Qed.

(** The [Derivation_trees] signature of scenario 1, from any store. *)
Lemma scenario1_run (σ : store) :
  ∃ tag σ1 acg σ2 rest,
    TAG_init loads_scenarios contents_scenario1 σ = Ok (tag, σ1) ∧
    ACG_init tag σ1 = Ok (acg, σ2) ∧
    signatures acg =
      mkSignature "Derivation_trees"
        ["S_S"; "S_A"; "NP_S"; "NP_A"; "VP_S"; "VP_A"]
        [(Some "C_TI0", "S_A -> VP_A -> NP_S -> S_S");
         (Some "C_TI1", "NP_A -> NP_S");
         (Some "I_S", "S_A"); (Some "I_NP", "NP_A"); (Some "I_VP", "VP_A")]
      :: rest.
Proof.
  destruct (TAG_init loads_scenarios contents_scenario1 []) as [[tag0 σ0]|] eqn:E0;
    [|by vm_compute in E0].
  destruct (ACG_init tag0 σ0) as [[acg0 σ0']|] eqn:E1.
  2:{ vm_compute in E0. injection E0 as <- <-. by vm_compute in E1. }
  exists (shift_tag (length σ) tag0), (σ ++ σ0), (shift_acg (length σ) acg0), (σ ++ σ0').
  eexists. split_and!.
  - rewrite <-(app_nil_r σ) at 1. by rewrite TAG_init_shifted, E0.
  - unfold ACG_init. rewrite (generateACG_shifted σ (mkACG tag0 [] [] [])).
    unfold ACG_init in E1. by rewrite E1.
  - cbn [shift_acg signatures].
    vm_compute in E0. injection E0 as <- <-.
    vm_compute in E1. injection E1 as <- _. reflexivity.
Qed.

(** C1, as the code has it: in scenario 1 the [Derivation_trees] signature
    has the constants [C_TI0] and [C_TI1]; the type of [C_TI1], the tree
    [NP (john)], is [NP_A -> NP_S], because its root has a child and is an
    adjunction site, and the type of [C_TI0] is
    [S_A -> VP_A -> NP_S -> S_S]. *)
Theorem scenario1_derivation_trees (loads : string → res sexp) (σ : store) :
  loads "(S (NP) (VP (sleeps)))" =
    Ok (SList [Symbol "S"; SList [Symbol "NP"];
               SList [Symbol "VP"; SList [Symbol "sleeps"]]]) →
  loads "(NP (john))" = Ok (SList [Symbol "NP"; SList [Symbol "john"]]) →
  ∃ tag σ1 acg σ2 rest,
    TAG_init loads contents_scenario1 σ = Ok (tag, σ1) ∧
    ACG_init tag σ1 = Ok (acg, σ2) ∧
    signatures acg =
      mkSignature "Derivation_trees"
        ["S_S"; "S_A"; "NP_S"; "NP_A"; "VP_S"; "VP_A"]
        [(Some "C_TI0", "S_A -> VP_A -> NP_S -> S_S");
         (Some "C_TI1", "NP_A -> NP_S");
         (Some "I_S", "S_A"); (Some "I_NP", "NP_A"); (Some "I_VP", "VP_A")]
      :: rest.
Proof.
  intros H1 H2.
  destruct (scenario1_run σ) as (tag & σ1 & acg & σ2 & rest & Htag & Hacg & Hsig).
  exists tag, σ1, acg, σ2, rest. split_and!; [|done | done].
  rewrite <-Htag. apply TAG_init_ext.
  cbn [contents_scenario1 c_initials c_auxiliaries app]. repeat constructor; intros σ0.
  - by rewrite (parseTree_loads loads "S (NP) (VP (sleeps))" "(S (NP) (VP (sleeps)))"
                  _ σ0 eq_refl H1),
               (parseTree_loads loads_scenarios "S (NP) (VP (sleeps))"
                  "(S (NP) (VP (sleeps)))" _ σ0 eq_refl eq_refl).
  - by rewrite (parseTree_loads loads "NP (john)" "(NP (john))" _ σ0 eq_refl H2),
               (parseTree_loads loads_scenarios "NP (john)" "(NP (john))"
                  _ σ0 eq_refl eq_refl).
Qed.

Lemma scenario1_derivation_trees_witness :
  loads_scenarios "(S (NP) (VP (sleeps)))" =
    Ok (SList [Symbol "S"; SList [Symbol "NP"];
               SList [Symbol "VP"; SList [Symbol "sleeps"]]]) ∧
  loads_scenarios "(NP (john))" = Ok (SList [Symbol "NP"; SList [Symbol "john"]]) ∧
  ∃ tag σ1 acg σ2 rest,
    TAG_init loads_scenarios contents_scenario1 [] = Ok (tag, σ1) ∧
    ACG_init tag σ1 = Ok (acg, σ2) ∧
    signatures acg =
      mkSignature "Derivation_trees"
        ["S_S"; "S_A"; "NP_S"; "NP_A"; "VP_S"; "VP_A"]
        [(Some "C_TI0", "S_A -> VP_A -> NP_S -> S_S");
         (Some "C_TI1", "NP_A -> NP_S");
         (Some "I_S", "S_A"); (Some "I_NP", "NP_A"); (Some "I_VP", "VP_A")]
      :: rest.
Proof.
  split; [reflexivity|]. split; [reflexivity|].
  exact (scenario1_derivation_trees loads_scenarios [] eq_refl eq_refl).
Defined.

(** C1 as stated fails: the type inferred for the second tree, the
    constant [C_TI1], is [NP_A -> NP_S], not [NP_S]. *)
Lemma scenario1_type_of_C_TI1 :
  ∃ tag σ1 t,
    TAG_init loads_scenarios contents_scenario1 [] = Ok (tag, σ1) ∧
    initials tag !! 1 = Some t ∧
    σ1 !! ref t ≫= identifier = Some "C_TI1" ∧
    typeForTree t true = Ok "NP_A -> NP_S" ∧
    typeForTree t true ≠ Ok "NP_S".
Proof. eexists _, _, _. split_and!; [by vm_compute | by vm_compute ..]. Qed.

(** * Further properties of the code *)

(** ** [Tree.__init__] and [rstrip] *)

Lemma rstrip_clean_end s chars : clean_end (Py.rstrip s chars) chars = true.
Proof.
  unfold clean_end. induction s as [|c s IH]; [done|].
  cbn [Py.rstrip]. destruct (Py.rstrip s chars) as [|d r] eqn:E.
  - destruct (Py.char_in c chars) eqn:Hc; [done|]. cbn [last_char]. by rewrite Hc.
  - cbn [last_char] in IH |- *. by destruct (last_char r).
Qed.

(** [Tree.__init__] raises exactly on the empty symbol.  Otherwise the new
    node is a new object with the children it was given; its root is the
    symbol without a run of trailing characters among [_], [N], [A] and [*];
    the root of a footnode never ends in [*], and the root of a
    nonadjoining node that is not a footnode never ends in [_], [N] or [A]:
    a base name that ends in one of them is cut short. *)
Theorem Tree_init_root (sym : string) (cs : list Tree) (σ : store) :
  match Tree_init sym cs σ with
  | Raise e => sym = "" ∧ e = IndexError
  | Ok (t, σ') =>
      sym ≠ "" ∧ ref t = length σ ∧ children t = cs ∧
      σ' = σ ++ [mkCell None None] ∧
      (∃ stripped, sym = root t +:+ stripped ∧
                   all_chars (λ c, Py.char_in c "_NA*") stripped = true) ∧
      (nonadjoining t = false → footnode t = false → root t = sym) ∧
      (footnode t = true → clean_end (root t) "*" = true) ∧
      (nonadjoining t = true → footnode t = false → clean_end (root t) "_NA" = true)
  end.
Proof.
  destruct sym as [|c sym]; [done|]. set (s := String c sym).
  rewrite Tree_init_eq by done. cbv zeta.
  cbn [ref children root nonadjoining footnode].
  assert (Hwiden : ∀ chars x, all_chars (λ c, Py.char_in c chars) x = true →
            (∀ c, Py.char_in c chars = true → Py.char_in c "_NA*" = true) →
            all_chars (λ c, Py.char_in c "_NA*") x = true).
  { intros chars x Hx Himp. revert Hx. by apply all_chars_impl. }
  assert (HNA : ∀ c, Py.char_in c "_NA" = true → Py.char_in c "_NA*" = true).
  { intros c0. cbn [Py.char_in]. by repeat destruct (Ascii.eqb c0 _). }
  assert (Hst : ∀ c, Py.char_in c "*" = true → Py.char_in c "_NA*" = true).
  { intros c0. cbn [Py.char_in]. by repeat destruct (Ascii.eqb c0 _). }
  split_and!; try done.
  - destruct (upper_initial s && Py.endswith s "_NA").
    + destruct (rstrip_suffix s "_NA") as (suf1 & H1 & Hs1).
      destruct (Py.endswith (Py.rstrip s "_NA") "*").
      * destruct (rstrip_suffix (Py.rstrip s "_NA") "*") as (suf2 & H2 & Hs2).
        exists (suf2 +:+ suf1). split.
        -- by rewrite <-app_assoc, <-H2.
        -- rewrite all_chars_app, (Hwiden "*"), (Hwiden "_NA"); done.
      * exists suf1. split; [done|]. by apply (Hwiden "_NA").
    + destruct (Py.endswith s "*").
      * destruct (rstrip_suffix s "*") as (suf2 & H2 & Hs2).
        exists suf2. split; [done|]. by apply (Hwiden "*").
      * exists "". split; [|done]. clear. induction s; [done|]. cbn. by f_equal.
  - destruct (upper_initial s && Py.endswith s "_NA"); [done|].
    by destruct (Py.endswith s "*").
  - destruct (upper_initial s && Py.endswith s "_NA");
      (destruct (Py.endswith _ "*"); [intros _; apply rstrip_clean_end | done]).
  - destruct (upper_initial s && Py.endswith s "_NA"); [|done].
    destruct (Py.endswith _ "*"); [done|]. intros _ _. apply rstrip_clean_end.
Qed.

(** ** The parser *)

Lemma Tree_init_Ok sym cs σ :
  sym ≠ "" → ∃ t, Tree_init sym cs σ = Ok (t, σ ++ [mkCell None None]) ∧
                  ref t = length σ ∧ children t = cs.
Proof.
  intros Hsym. destruct sym as [|c sym]; [done|].
  rewrite Tree_init_eq by done. cbv zeta. by eexists.
Qed.

Lemma forM_parse_succeeds l :
  Forall (λ s, ∀ σ,
            match parseSymList s σ with
            | Ok _ => wf_sexp s = true
            | Raise e => wf_sexp s = false ∧ (e = IndexError ∨ e = AttributeError)
            end) l →
  ∀ σ, match forM parseSymList l σ with
       | Ok _ => forallb wf_sexp l = true
       | Raise e => forallb wf_sexp l = false ∧ (e = IndexError ∨ e = AttributeError)
       end.
Proof.
  induction 1 as [|s l Hs _ IH]; intros σ; [done|].
  rewrite forM_cons. cbn [forallb]. specialize (Hs σ).
  destruct (parseSymList s σ) as [[t σ1]|e].
  - rewrite Hs. specialize (IH σ1). by destruct (forM parseSymList l σ1) as [[]|].
  - by destruct Hs as [-> ?].
Qed.

Lemma parseSymList_outcome (symList : sexp) (σ : store) :
  match parseSymList symList σ with
  | Ok _ => wf_sexp symList = true
  | Raise e => wf_sexp symList = false ∧ (e = IndexError ∨ e = AttributeError)
  end.
Proof.
  revert σ. induction symList as [x|l IH|] using sexp_ind'; intros σ;
    rewrite parseSymList_eq.
  - cbn [value_of wf_sexp]. destruct (decide (x = "")) as [->|Hx].
    + rewrite Tree_init_empty. split; [done | by left].
    + destruct (Tree_init_Ok x [] σ Hx) as (t & -> & _). by destruct x.
  - destruct l as [|hd tl]; [split; [done | by left]|].
    apply Forall_cons in IH as [_ IH].
    destruct hd as [x|l'|]; cbn [value_of wf_sexp];
      [|split; [done | by right] ..].
    pose proof (forM_parse_succeeds tl IH σ) as Htl.
    destruct (forM parseSymList tl σ) as [[cs σ1]|e].
    + rewrite Htl, andb_true_r. destruct (decide (x = "")) as [->|Hx].
      * rewrite Tree_init_empty. split; [done | by left].
      * destruct (Tree_init_Ok x cs σ1 Hx) as (t & -> & _). by destruct x.
    + destruct Htl as [-> ?]. by rewrite andb_false_r.
  - split; [done | by right].
Qed.

Lemma forM_fresh {A} (f : A → M Tree) l :
  Forall (λ s, ∀ σ t σ', f s σ = Ok (t, σ') →
            σ' = σ ++ replicate (length (nodes t)) (mkCell None None) ∧
            NoDup (refs t) ∧
            Forall (λ a, length σ ≤ a < length σ') (refs t)) l →
  ∀ σ ts σ', forM f l σ = Ok (ts, σ') →
    σ' = σ ++ replicate (length (flat_map nodes ts)) (mkCell None None) ∧
    NoDup (ref <$> flat_map nodes ts) ∧
    Forall (λ a, length σ ≤ a < length σ') (ref <$> flat_map nodes ts).
Proof.
  induction 1 as [|s l Hs _ IH]; intros σ ts σ'.
  - intros [= <- <-]. cbn. rewrite app_nil_r. split_and!; [done | constructor | constructor].
  - rewrite forM_cons. destruct (f s σ) as [[t σ1]|] eqn:E1; [|done].
    destruct (forM f l σ1) as [[ts' σ2]|] eqn:E2; [|done]. intros [= <- <-].
    destruct (Hs _ _ _ E1) as (Hσ1 & Hnd1 & Hr1).
    destruct (IH _ _ _ E2) as (Hσ2 & Hnd2 & Hr2).
    assert (Hlen1 : length σ ≤ length σ1) by (rewrite Hσ1, length_app; lia).
    assert (Hlen2 : length σ1 ≤ length σ2) by (rewrite Hσ2, length_app; lia).
    rewrite flat_map_cons_eq, fmap_app, length_app. split_and!.
    + by rewrite Hσ2, Hσ1 at 1; rewrite <-(assoc_L (++)), <-replicate_add.
    + apply NoDup_app. split_and!; [done | | done].
      intros a Ha1 Ha2. rewrite Forall_forall in Hr1, Hr2.
      specialize (Hr1 a Ha1). specialize (Hr2 a Ha2). cbn beta in *. lia.
    + apply Forall_app. split.
      * eapply Forall_impl; [exact Hr1|]. intros a; cbn beta; lia.
      * eapply Forall_impl; [exact Hr2|]. intros a; cbn beta; lia.
Qed.

Lemma parseSymList_fresh_nodes (symList : sexp) (σ σ' : store) (t : Tree) :
  parseSymList symList σ = Ok (t, σ') →
  σ' = σ ++ replicate (length (nodes t)) (mkCell None None) ∧
  NoDup (refs t) ∧
  Forall (λ a, length σ ≤ a < length σ') (refs t).
Proof.
  revert σ t σ'. induction symList as [x|l IH|] using sexp_ind'; intros σ t σ';
    rewrite parseSymList_eq.
  - cbn [value_of]. intros (Hr & Hc & ->)%Tree_init_inv.
    unfold refs. rewrite nodes_eq, Hc, fmap_cons, Hr. cbn. rewrite length_app. cbn.
    split_and!; [done | apply NoDup_singleton | repeat constructor; lia].
  - destruct l as [|hd tl]; [done|]. destruct (value_of hd) as [x|]; [|done].
    apply Forall_cons in IH as [_ IH].
    destruct (forM parseSymList tl σ) as [[cs σ1]|] eqn:E; [|done].
    destruct (forM_fresh parseSymList tl IH _ _ _ E) as (Hσ1 & Hnd & Hrs).
    intros (Hr & Hc & ->)%Tree_init_inv.
    unfold refs. rewrite nodes_eq, Hc, fmap_cons, Hr. cbn [length].
    assert (Hlen : length σ ≤ length σ1) by (rewrite Hσ1, length_app; lia).
    split_and!.
    + rewrite Hσ1 at 1. rewrite <-(assoc_L (++)). f_equal.
      change (mkCell None None :: replicate ?n ?x) with (replicate (S n) x).
      by rewrite replicate_S_end.
    + apply NoDup_cons. split; [|done]. intros Hin.
      rewrite Forall_forall in Hrs. specialize (Hrs _ Hin). cbn beta in Hrs. lia.
    + rewrite length_app. cbn [length]. constructor; [lia|].
      eapply Forall_impl; [exact Hrs|]. intros a; cbn beta; lia.
  - done.
Qed.

(** ** The grammar object *)

Lemma parseTree_eq loads tree σ :
  parseTree loads tree σ =
    match loads (parenthesised tree) with
    | Ok data => parseSymList data σ
    | Raise e => Raise e
    end.
Proof.
  unfold parseTree, parenthesised. cbv zeta. rewrite M_bind_eq. unfold lift.
  destruct (Py.startswith tree "(" && Py.endswith tree ")"); cbn [negb];
    by destruct (loads _).
Qed.

Lemma startswith_paren s : Py.startswith ("(" +:+ s) "(" = true.
Proof.
  change ("(" +:+ s) with (String "(" s). unfold Py.startswith.
  cbn [String.prefix]. destruct (ascii_dec "(" "("); [by destruct s | done].
Qed.

Lemma parenthesised_parens tree :
  Py.startswith (parenthesised tree) "(" && Py.endswith (parenthesised tree) ")" = true.
Proof.
  unfold parenthesised.
  destruct (Py.startswith tree "(" && Py.endswith tree ")") eqn:E; [done|].
  rewrite startswith_paren. cbn [andb].
  change ("(" +:+ tree +:+ ")") with (String "(" (tree +:+ ")")).
  cbn [Py.endswith]. destruct (String.eqb _ ")"); [done|]. apply endswith_app.
Qed.

(** [TAG.parseTree] calls [sexpdata.loads] on texts that start with an
    opening and end with a closing parenthesis only: two parsers that agree
    on these texts give the same trees. *)
Theorem parseTree_parenthesised (loads loads' : string → res sexp) (tree : string) (σ : store) :
  (∀ text, Py.startswith text "(" && Py.endswith text ")" = true →
           loads text = loads' text) →
  parseTree loads tree σ = parseTree loads' tree σ.
Proof.
  intros Hagree. rewrite !parseTree_eq.
  by rewrite (Hagree _ (parenthesised_parens tree)).
Qed.

Lemma parseTree_parenthesised_witness :
  let loads' text :=
    if Py.startswith text "(" && Py.endswith text ")" then loads_scenarios text
    else Raise TypeError in
  (∀ text, Py.startswith text "(" && Py.endswith text ")" = true →
           loads_scenarios text = loads' text) ∧
  parseTree loads_scenarios "NP (john)" [] = parseTree loads' "NP (john)" [].
Proof.
  intros loads'.
  assert (H : ∀ text, Py.startswith text "(" && Py.endswith text ")" = true →
                      loads_scenarios text = loads' text).
  { intros text Htext. unfold loads'. by rewrite Htext. }
  split; [exact H|].
  exact (parseTree_parenthesised loads_scenarios loads' "NP (john)" [] H).
Defined.

Lemma forM_app {A B} (f : A → M B) l1 l2 σ :
  forM f (l1 ++ l2) σ =
    match forM f l1 σ with
    | Ok (ys1, σ1) =>
        match forM f l2 σ1 with
        | Ok (ys2, σ2) => Ok (ys1 ++ ys2, σ2)
        | Raise e => Raise e
        end
    | Raise e => Raise e
    end.
Proof.
  revert σ. induction l1 as [|x l1 IH]; intros σ.
  - cbn [app]. change (forM f [] σ) with (Ok ([] : list B, σ)). cbv beta iota.
    by destruct (forM f l2 σ) as [[]|].
  - cbn [app]. rewrite !forM_cons. destruct (f x σ) as [[y σ1]|]; [|done].
    rewrite IH. destruct (forM f l1 σ1) as [[ys1 σ2]|]; [|done].
    by destruct (forM f l2 σ2) as [[]|].
Qed.

Lemma parseTrees_fresh loads texts σ ts σ' :
  parseTrees loads texts σ = Ok (ts, σ') →
  σ' = σ ++ replicate (length (flat_map nodes ts)) (mkCell None None) ∧
  NoDup (ref <$> flat_map nodes ts) ∧
  Forall (λ a, length σ ≤ a < length σ') (ref <$> flat_map nodes ts).
Proof.
  apply forM_fresh, Forall_forall. intros text _ σ0 t σ0'. rewrite parseTree_eq.
  destruct (loads _); [|done]. apply parseSymList_fresh_nodes.
Qed.

Lemma number_loop_varname (prefix : string) (f : Tree → nat → M nat) :
  (∀ t c σ, f t c σ =
            Ok (c + 1, alter (λ c0, mkCell (Some (prefix +:+ Py.str c)) (varname c0))
                             (ref t) σ)) →
  ∀ ts count σ c' σ', foldM f ts count σ = Ok (c', σ') →
  ∀ a, σ' !! a ≫= varname = σ !! a ≫= varname.
Proof.
  intros Hf. induction ts as [|t ts IH]; intros count σ c' σ'.
  - by intros [= <- <-].
  - rewrite foldM_cons, Hf. intros Hrun a. rewrite (IH _ _ _ _ Hrun a).
    destruct (decide (a = ref t)) as [->|Hne].
    + rewrite list_lookup_alter_eq. by destruct (σ !! ref t).
    + by rewrite list_lookup_alter_ne.
Qed.

(** [numberTrees] never raises and writes identifiers only, on the roots
    of the trees only. *)
Lemma numberTrees_frame (self : TAG) (σ : store) :
  ∃ σ', numberTrees self σ = Ok (tt, σ') ∧
    length σ' = length σ ∧
    (∀ a, a ∉ ref <$> trees self → σ' !! a = σ !! a) ∧
    (∀ a, σ' !! a ≫= varname = σ !! a ≫= varname).
Proof.
  unfold numberTrees. rewrite M_bind_eq.
  pose proof (number_loop_varname "C_TI"
              (λ tree count,
                 _ ← set_identifier tree ("C_TI" +:+ Py.str count); mret (count + 1))
              (λ _ _ _, eq_refl) (initials self) 0 σ) as Hv1.
  destruct (number_loop "C_TI"
              (λ tree count,
                 _ ← set_identifier tree ("C_TI" +:+ Py.str count); mret (count + 1))
              (λ _ _ _, eq_refl) (initials self) 0 σ)
    as (σ1 & E1 & Hlen1 & Hframe1 & _).
  specialize (Hv1 _ _ E1). rewrite E1, M_bind_eq.
  pose proof (number_loop_varname "C_TA"
              (λ tree count,
                 _ ← set_identifier tree ("C_TA" +:+ Py.str count); mret (count + 1))
              (λ _ _ _, eq_refl) (auxiliaries self)
              (0 + length (initials self)) σ1) as Hv2.
  destruct (number_loop "C_TA"
              (λ tree count,
                 _ ← set_identifier tree ("C_TA" +:+ Py.str count); mret (count + 1))
              (λ _ _ _, eq_refl) (auxiliaries self)
              (0 + length (initials self)) σ1)
    as (σ2 & E2 & Hlen2 & Hframe2 & _).
  specialize (Hv2 _ _ E2). rewrite E2.
  exists σ2. split_and!; [done | congruence | |].
  - intros a. unfold trees. rewrite fmap_app, not_elem_of_app. intros [Ha1 Ha2].
    by rewrite Hframe2, Hframe1.
  - intros a. by rewrite Hv2, Hv1.
Qed.

Lemma TAG_init_eq loads contents σ :
  TAG_init loads contents σ =
    match parseTrees loads (c_initials contents ++ c_auxiliaries contents) σ with
    | Ok (ts, σ2) =>
        let self := mkTAG (c_terminals contents) (c_nonterminals contents)
                          (take (length (c_initials contents)) ts)
                          (drop (length (c_initials contents)) ts)
                          (c_distinguished contents) in
        match numberTrees self σ2 with
        | Ok (_, σ3) => Ok (self, σ3)
        | Raise e => Raise e
        end
    | Raise e => Raise e
    end.
Proof.
  unfold TAG_init. rewrite M_bind_eq. unfold parseTrees at 3. rewrite forM_app.
  change (forM (parseTree loads)) with (parseTrees loads).
  destruct (parseTrees loads (c_initials contents) σ) as [[ts1 σ1]|] eqn:E1; [|done].
  rewrite M_bind_eq.
  destruct (parseTrees loads (c_auxiliaries contents) σ1) as [[ts2 σ2]|]; [|done].
  apply parseTrees_roots in E1 as (_ & Hl1 & _).
  cbv zeta. rewrite <-Hl1, take_app_length, drop_app_length, M_bind_eq.
  by destruct (numberTrees _ σ2) as [[[] σ3]|].
Qed.

(** A run of [TAG.__init__] that returns: the parser, then the numbering. *)
Lemma TAG_init_run loads contents σ tag σ' :
  TAG_init loads contents σ = Ok (tag, σ') →
  ∃ σ2,
    parseTrees loads (c_initials contents ++ c_auxiliaries contents) σ =
      Ok (trees tag, σ2) ∧
    length (initials tag) = length (c_initials contents) ∧
    length (auxiliaries tag) = length (c_auxiliaries contents) ∧
    numberTrees tag σ2 = Ok (tt, σ').
Proof.
  rewrite TAG_init_eq.
  destruct (parseTrees loads _ σ) as [[ts σ2]|] eqn:E; [|done]. cbv zeta.
  destruct (numberTrees _ σ2) as [[[] σ3]|] eqn:En; [|done]. intros [= <- <-].
  exists σ2. unfold trees. cbn [initials auxiliaries]. rewrite take_drop.
  apply parseTrees_roots in E as (_ & Hl & _). rewrite length_app in Hl.
  split_and!; [done | | | done].
  - rewrite length_take. lia.
  - rewrite length_drop. lia.
Qed.

Lemma parseTrees_outcome loads texts : ∀ σ,
  match parseTrees loads texts σ with
  | Ok _ => Forall (λ tree, accepted loads tree = true) texts
  | Raise e =>
      Exists (λ tree,
                loads (parenthesised tree) = Raise e ∨
                ∃ data, loads (parenthesised tree) = Ok data ∧ wf_sexp data = false ∧
                        (e = IndexError ∨ e = AttributeError)) texts
  end.
Proof.
  unfold parseTrees. induction texts as [|tree texts IH]; intros σ; [by constructor|].
  rewrite forM_cons, parseTree_eq. unfold accepted at 1.
  destruct (loads (parenthesised tree)) as [data|e] eqn:El.
  - pose proof (parseSymList_outcome data σ) as Hd.
    destruct (parseSymList data σ) as [[t σ1]|e].
    + specialize (IH σ1). destruct (forM (parseTree loads) texts σ1) as [[ts σ2]|e].
      * constructor; [|done]. unfold accepted. by rewrite El.
      * by apply Exists_cons_tl.
    + apply Exists_cons_hd. right. exists data. by destruct Hd.
  - apply Exists_cons_hd. by left.
Qed.

(** [TAG.__init__] returns a grammar exactly when [sexpdata.loads] reads
    every tree description, parenthesised, as an S-expression in which every
    list starts with a symbol and no symbol is empty.  Otherwise it raises
    what [loads] raised on some description, or [IndexError] or
    [AttributeError] on a description whose S-expression is not of this
    form; the numbering of the trees never raises. *)
Theorem TAG_init_succeeds (loads : string → res sexp) (contents : Contents) (σ : store) :
  let texts := c_initials contents ++ c_auxiliaries contents in
  match TAG_init loads contents σ with
  | Ok (tag, _) =>
      Forall (λ tree, accepted loads tree = true) texts ∧
      terminals tag = c_terminals contents ∧
      nonterminals tag = c_nonterminals contents ∧
      length (initials tag) = length (c_initials contents) ∧
      length (auxiliaries tag) = length (c_auxiliaries contents)
  | Raise e =>
      Exists (λ tree,
                loads (parenthesised tree) = Raise e ∨
                ∃ data, loads (parenthesised tree) = Ok data ∧ wf_sexp data = false ∧
                        (e = IndexError ∨ e = AttributeError)) texts
  end.
Proof.
  intros texts. rewrite TAG_init_eq. fold texts.
  pose proof (parseTrees_outcome loads texts σ) as Hparse.
  destruct (parseTrees loads texts σ) as [[ts σ2]|e] eqn:E; [|done]. cbv zeta.
  destruct (numberTrees_frame
              (mkTAG (c_terminals contents) (c_nonterminals contents)
                     (take (length (c_initials contents)) ts)
                     (drop (length (c_initials contents)) ts)
                     (c_distinguished contents)) σ2) as (σ3 & -> & _).
  cbn [terminals nonterminals initials auxiliaries].
  apply parseTrees_roots in E as (_ & Hl & _). unfold texts in Hl. rewrite length_app in Hl.
  split_and!; [done | done | done | |].
  - rewrite length_take. lia.
  - rewrite length_drop. lia.
Qed.

(** The objects of a grammar that [TAG.__init__] returns: every node of
    every tree is a new object of its own, so that no two trees, and no two
    nodes of a tree, share an object; the store grows by one cell for each
    node and the cells it had are kept; no node has a variable name, and
    only the roots of the trees have an identifier. *)
Theorem TAG_init_objects
    (loads : string → res sexp) (contents : Contents) (σ σ' : store) (tag : TAG) :
  TAG_init loads contents σ = Ok (tag, σ') →
  let ns := flat_map nodes (trees tag) in
  NoDup (ref <$> ns) ∧
  Forall (λ a, length σ ≤ a < length σ') (ref <$> ns) ∧
  length σ' = length σ + length ns ∧
  (∃ new, σ' = σ ++ new) ∧
  Forall (λ n, σ' !! ref n ≫= varname = None) ns ∧
  Forall (λ n, ref n ∉ ref <$> trees tag → σ' !! ref n ≫= identifier = None) ns.
Proof.
  intros (σ2 & Hparse & _ & _ & Hnum)%TAG_init_run ns.
  destruct (numberTrees_frame tag σ2) as (σ3 & Hnum' & Hlen & Hframe & Hvar).
  rewrite Hnum in Hnum'. injection Hnum' as <-.
  pose proof (parseTrees_roots _ _ _ _ _ Hparse) as (_ & _ & Hroots & _).
  apply parseTrees_fresh in Hparse as (Hσ2 & Hnd & Hrefs). fold ns in Hσ2, Hnd, Hrefs.
  assert (Hlen2 : length σ2 = length σ + length ns).
  { by rewrite Hσ2, length_app, length_replicate. }
  assert (Hblank : ∀ a, length σ ≤ a < length σ2 → σ2 !! a = Some (mkCell None None)).
  { intros a Ha. rewrite Hσ2, lookup_app_r by lia. apply lookup_replicate_2. lia. }
  split_and!.
  - done.
  - by rewrite Hlen.
  - by rewrite Hlen.
  - apply store_extension; [lia|]. intros a Ha. rewrite Hframe.
    + by rewrite Hσ2, lookup_app_l.
    + intros (t & -> & Ht)%list_elem_of_fmap.
      rewrite Forall_forall in Hroots. specialize (Hroots t Ht). cbn beta in Hroots. lia.
  - rewrite Forall_fmap in Hrefs. eapply Forall_impl; [exact Hrefs|].
    intros n Hn. cbn beta in *. by rewrite Hvar, Hblank.
  - rewrite Forall_fmap in Hrefs. eapply Forall_impl; [exact Hrefs|].
    intros n Hn Hroot. cbn beta in *. by rewrite Hframe, Hblank.
Qed.

Lemma TAG_init_objects_witness :
  ∃ tag σ',
    TAG_init loads_scenarios contents_with_auxiliary [] = Ok (tag, σ') ∧
    NoDup (ref <$> flat_map nodes (trees tag)) ∧
    length σ' = 9 ∧
    Forall (λ n, σ' !! ref n ≫= varname = None) (flat_map nodes (trees tag)).
Proof.
  eexists _, _. split; [by vm_compute|].
  edestruct (TAG_init_objects loads_scenarios contents_with_auxiliary [])
    as (H1 & _ & H3 & _ & H5 & _); [by vm_compute|].
  exact (conj H1 (conj H3 H5)).
Defined.

Lemma fmap_lookup_seq {A B} (g : A → B) (h : nat → B) (l : list A) : ∀ c,
  (∀ n x, l !! n = Some x → g x = h (c + n)) → g <$> l = h <$> seq c (length l).
Proof.
  induction l as [|x l IH]; intros c Hl; [done|].
  cbn [length seq]. rewrite !fmap_cons. f_equal.
  - rewrite (Hl 0 x eq_refl). f_equal. lia.
  - apply IH. intros n y Hn. rewrite (Hl (S n) y Hn). f_equal. lia.
Qed.

Lemma identifier_inj (prefix : string) : Inj (=) (=) (λ n, prefix +:+ Py.str n).
Proof.
  intros n1 n2. induction prefix as [|c prefix IH]; cbn [String.append].
  - apply pretty_nat_inj.
  - intros [= H]. by apply IH.
Qed.

(** The identifiers of the trees of a grammar that [TAG.__init__] returns. *)
Lemma TAG_init_identifier_list loads contents σ σ' tag :
  TAG_init loads contents σ = Ok (tag, σ') →
  identifier_of σ' <$> trees tag =
    Some <$> (((λ n, "C_TI" +:+ Py.str n) <$> seq 0 (length (initials tag))) ++
              ((λ n, "C_TA" +:+ Py.str n) <$> seq (length (initials tag))
                                                  (length (auxiliaries tag)))) ∧
  Forall (λ t, ref t < length σ') (trees tag).
Proof.
  intros (σ2 & Hparse & _ & _ & Hnum)%TAG_init_run.
  apply parseTrees_roots in Hparse as (_ & _ & Hroots & Hnd).
  destruct (numberTrees_spec tag σ2) as (σ3 & Hnum' & Hlen & Hids1 & Hids2).
  - done.
  - eapply Forall_impl; [exact Hroots|]. intros t; cbn beta; lia.
  - rewrite Hnum in Hnum'. injection Hnum' as <-. split.
    + unfold trees. rewrite !fmap_app, <-!list_fmap_compose. f_equal.
      * apply (fmap_lookup_seq _ (λ n, Some ("C_TI" +:+ Py.str n)) _ 0).
        intros n t Hn. by apply Hids1.
      * apply (fmap_lookup_seq _ (λ n, Some ("C_TA" +:+ Py.str n))).
        intros n t Hn. by apply Hids2.
    + eapply Forall_impl; [exact Hroots|]. intros t; cbn beta; lia.
Qed.

Lemma identifier_list_NoDup m k :
  NoDup (((λ n, "C_TI" +:+ Py.str n) <$> seq 0 m) ++
         ((λ n, "C_TA" +:+ Py.str n) <$> seq m k)).
Proof.
  apply NoDup_app. split_and!.
  - apply (NoDup_fmap_2 _ (Inj0 := identifier_inj "C_TI")), NoDup_seq.
  - intros id (n1 & -> & _)%list_elem_of_fmap (n2 & Heq & _)%list_elem_of_fmap.
    cbn [String.append] in Heq. done.
  - apply (NoDup_fmap_2 _ (Inj0 := identifier_inj "C_TA")), NoDup_seq.
Qed.

(** The identifiers that [TAG.__init__] gives to the trees of the grammar
    are pairwise distinct: no two constants of the grammar have one name. *)
Theorem TAG_init_unique_identifiers
    (loads : string → res sexp) (contents : Contents) (σ σ' : store) (tag : TAG) :
  TAG_init loads contents σ = Ok (tag, σ') →
  ∃ ids, identifier_of σ' <$> trees tag = Some <$> ids ∧ NoDup ids.
Proof.
  intros [Hids _]%TAG_init_identifier_list.
  eexists. split; [exact Hids | apply identifier_list_NoDup].
Qed.

Lemma TAG_init_unique_identifiers_witness :
  ∃ tag σ' ids,
    TAG_init loads_scenarios contents_with_auxiliary [] = Ok (tag, σ') ∧
    identifier_of σ' <$> trees tag = Some <$> ids ∧ NoDup ids.
Proof.
  destruct (TAG_init loads_scenarios contents_with_auxiliary []) as [[tag σ']|] eqn:E;
    [|by vm_compute in E].
  destruct (TAG_init_unique_identifiers loads_scenarios contents_with_auxiliary [] σ' tag E)
    as (ids & H1 & H2).
  by exists tag, σ', ids.
Defined.

(** ** The binder of a realized term *)

Lemma pretty_N_go_nonempty x s : s ≠ "" → pretty_N_go x s ≠ "".
Proof.
  revert s. induction (N.lt_wf_0 x) as [x _ IH]; intros s Hs.
  assert (x = 0 ∨ 0 < x)%N as [->|Hx] by lia.
  - by rewrite pretty_N_go_0.
  - rewrite pretty_N_go_step by done. apply IH; [by apply N.div_lt | done].
Qed.

Lemma str_nonempty n : Py.str n ≠ "".
Proof.
  unfold Py.str, pretty, pretty_nat, pretty, pretty_N.
  case_decide; [done|]. rewrite pretty_N_go_step by lia.
  by apply pretty_N_go_nonempty.
Qed.

Lemma ranked_cons c n ns :
  ranked c (n :: ns) =
    if upper_initial (root n) then (c, n) :: ranked (S c) ns else ranked c ns.
Proof.
  unfold ranked. cbv zeta. rewrite filter_cons.
  destruct (upper_initial (root n)); by case_decide.
Qed.

(** The variables that [varTraverse] collects over the nodes [ns]. *)
Lemma foldl_var_step_ranked ns : ∀ st,
  foldl var_step st ns =
    mkVarState
      (interiorVars st ++
       (Some ∘ lvar_of <$> filter (λ p, is_interior_var p = true) (ranked (i st) ns)))
      (substitutionVars st ++
       (Some ∘ lvar_of <$> filter (λ p, is_leaf_var p = true) (ranked (i st) ns)))
      (i st + length (ranked (i st) ns)).
Proof.
  induction ns as [|n ns IH]; intros st.
  - cbn. rewrite !app_nil_r, Nat.add_0_r. by destruct st.
  - cbn [foldl]. rewrite IH, ranked_cons. unfold var_step.
    destruct (upper_initial (root n)) eqn:Hup; [|done].
    assert (Hi : is_interior_var (i st, n)
                 = negb (nonadjoining n) && (0 <? length (children n))) by done.
    assert (Hl : is_leaf_var (i st, n)
                 = negb (nonadjoining n) && negb (0 <? length (children n))) by done.
    destruct (nonadjoining n); [|destruct (0 <? length (children n))];
      cbn [andb negb] in Hi, Hl; cbn [interiorVars substitutionVars i].
    + rewrite !filter_cons_False by (by rewrite ?Hi, ?Hl).
      rewrite Nat.add_1_r. cbn [length]. f_equal. lia.
    + rewrite filter_cons_True, filter_cons_False by (by rewrite ?Hi, ?Hl).
      rewrite Nat.add_1_r, fmap_cons, <-(assoc_L (++)). cbn [length]. f_equal. lia.
    + rewrite filter_cons_False, filter_cons_True by (by rewrite ?Hi, ?Hl).
      rewrite Nat.add_1_r, fmap_cons, <-(assoc_L (++)). cbn [length]. f_equal. lia.
Qed.

Lemma foldl_var_step_labels ns : ∀ ns' st,
  label <$> ns = label <$> ns' → foldl var_step st ns = foldl var_step st ns'.
Proof.
  induction ns as [|n ns IH]; intros [|n' ns'] st; try done.
  rewrite !fmap_cons. intros [= Hr Hna Hfn Hlen Hrest]. cbn [foldl].
  rewrite (IH ns' _ Hrest). f_equal. unfold var_step. by rewrite Hr, Hna, Hlen.
Qed.

Lemma ranked_fst c ns : NoDup (ranked c ns).*1.
Proof.
  unfold ranked. cbv zeta. rewrite fst_zip by (by rewrite length_seq).
  apply NoDup_seq.
Qed.

Lemma NoDup_filter_split {A B} (f : A → B) (P Q : A → Prop)
    `{∀ x, Decision (P x)} `{∀ x, Decision (Q x)} (l : list A) :
  (∀ x, P x → Q x → False) → NoDup (f <$> l) →
  NoDup ((f <$> filter P l) ++ (f <$> filter Q l)).
Proof.
  intros Hdisj. induction l as [|x l IH]; [constructor|].
  rewrite fmap_cons, NoDup_cons. intros [Hx Hnd]. specialize (IH Hnd).
  assert (Hsub : ∀ R `{∀ x, Decision (R x)}, f x ∉ f <$> filter R l).
  { intros R ? (y & Hy & Hin)%list_elem_of_fmap. apply Hx, list_elem_of_fmap.
    exists y. split; [done|]. by apply list_elem_of_filter in Hin as [_ ?]. }
  rewrite !filter_cons. destruct (decide (P x)) as [HP|HP], (decide (Q x)) as [HQ|HQ].
  - destruct (Hdisj x HP HQ).
  - rewrite fmap_cons. cbn [app]. apply NoDup_cons. split; [|done].
    rewrite elem_of_app. intros [?|?]; by eapply Hsub.
  - rewrite fmap_cons. apply NoDup_app in IH as (H1 & H2 & H3).
    apply NoDup_app. split_and!; [done | |].
    + intros y Hy. rewrite elem_of_cons. intros [->|Hin]; [by eapply Hsub | by eapply H2].
    + apply NoDup_cons. split; [by apply Hsub | done].
  - done.
Qed.

Lemma binder_NoDup t initial : NoDup (binder t initial).
Proof.
  unfold binder. cbv zeta. rewrite (assoc_L (++)). apply NoDup_app. split_and!.
  - assert (Hname : ∀ l : list (nat * Tree),
              lvar_of <$> l = (λ k, "lvar" +:+ Py.str k) <$> l.*1).
    { intros l. by rewrite <-list_fmap_compose. }
    rewrite !Hname, <-fmap_app.
    apply (NoDup_fmap_2 _ (Inj0 := identifier_inj "lvar")).
    apply NoDup_filter_split; [|apply ranked_fst].
    intros p. unfold is_interior_var, is_leaf_var.
    destruct (nonadjoining p.2), (0 <? length (children p.2)); done.
  - intros x Hx Hfoot. destruct initial; [by apply elem_of_nil in Hfoot|].
    apply list_elem_of_singleton in Hfoot as ->.
    assert (∃ p, "lvar" = lvar_of p) as [p Hp].
    { apply elem_of_app in Hx as [(p & ? & _)%list_elem_of_fmap|(p & ? & _)%list_elem_of_fmap];
        by exists p. }
    unfold lvar_of in Hp. cbn [String.append] in Hp. injection Hp as Hp.
    by destruct (str_nonempty p.1).
  - destruct initial; [constructor | apply NoDup_singleton].
Qed.

Lemma binder_names t initial : Forall (λ w, name_ok w = true) (binder t initial).
Proof.
  unfold binder. cbv zeta. rewrite !Forall_app. split_and!.
  - apply Forall_fmap, Forall_forall. intros p _. apply lvar_name_ok.
  - apply Forall_fmap, Forall_forall. intros p _. apply lvar_name_ok.
  - destruct initial; by repeat constructor.
Qed.

(** A run of [lambdaRealizationOfTree]: the prefix of the term. *)
Lemma lambdaRealizationOfTree_prefix t initial σ :
  match lambdaRealizationOfTree t initial σ with
  | Ok (expr, σ') =>
      ∃ t' new st σ1 body,
        copies σ [t] [t'] new ∧
        varTraverse t' (mkVarState [] [] 0) (σ ++ new) = Ok (st, σ1) ∧
        constructExpression t' σ1 = Ok (body, σ') ∧
        expr = ("lambda " +:+ Py.join " " (binder t initial) +:+ ".") +:+ " " +:+ body
  | Raise _ => ¬ nonempty_roots t
  end.
Proof.
  unfold lambdaRealizationOfTree, allVarsOfCopy. rewrite !M_bind_eq.
  destruct (deepcopy_copies t σ) as (t' & new & -> & Hcopy).
  rewrite !M_bind_eq.
  pose proof (varTraverse_post t' (mkVarState [] [] 0) (σ ++ new)) as Hvar.
  destruct (varTraverse t' _ _) as [[st σ2]|] eqn:Evar; unfold var_post in Hvar;
    rewrite flat_map_one in Hvar;
    [|intros Ht; by apply Hvar, (copies_nonempty_roots σ t t' new)].
  destruct Hvar as (_ & _ & Hst).
  pose proof Hcopy as (_ & Hlab & Hrefs).
  rewrite (flat_map_one nodes t), (flat_map_one nodes t') in Hlab.
  rewrite flat_map_one in Hrefs.
  rewrite Hst; [|eapply Forall_impl; [exact Hrefs|]; intros a; rewrite length_app; cbn beta; lia].
  rewrite (foldl_var_step_labels _ _ _ Hlab), foldl_var_step_ranked.
  cbn [interiorVars substitutionVars i app]. cbv [mret M_ret].
  assert (Hall : ∀ foot,
            (Some ∘ lvar_of <$> filter (λ p, is_interior_var p = true) (ranked 0 (nodes t))) ++
            (Some ∘ lvar_of <$> filter (λ p, is_leaf_var p = true) (ranked 0 (nodes t))) ++
            (Some <$> foot) =
            Some <$> ((lvar_of <$> filter (λ p, is_interior_var p = true) (ranked 0 (nodes t))) ++
                      (lvar_of <$> filter (λ p, is_leaf_var p = true) (ranked 0 (nodes t))) ++
                      foot)).
  { intros foot. by rewrite !fmap_app, <-!list_fmap_compose. }
  assert (Hvars : (Some ∘ lvar_of <$> filter (λ p, is_interior_var p = true) (ranked 0 (nodes t))) ++
                  (Some ∘ lvar_of <$> filter (λ p, is_leaf_var p = true) (ranked 0 (nodes t))) ++
                  (if initial then [] else [Some "lvar"]) = Some <$> binder t initial).
  { unfold binder. cbv zeta. rewrite <-Hall. by destruct initial. }
  rewrite M_bind_eq, Hvars, join_values_Some. unfold lift. rewrite M_bind_eq.
  pose proof (constructExpression_post t' σ2) as Hexpr.
  destruct (constructExpression t' σ2) as [[body σ3]|] eqn:Ebody; unfold expr_post in Hexpr;
    rewrite ?flat_map_one in Hexpr;
    [|intros Ht; by apply Hexpr, (copies_nonempty_roots σ t t' new)].
  by exists t', new, st, σ2, body.
Qed.

(** The binder of the realized term lists the nonterminal nodes that are
    not marked nonadjoining, those with children before the leaves, each
    family in depth-first order; the variable of a node is [lvar<k>], where
    [k] counts the nonterminal nodes before it in depth-first pre-order;
    [lvar] comes last for an auxiliary tree.  No variable is bound twice. *)
Theorem lambdaRealizationOfTree_binder (t : Tree) (initial : bool) (σ : store) :
  nonempty_roots t →
  ∃ expr σ',
    lambdaRealizationOfTree t initial σ = Ok (expr, σ') ∧
    bound_variables expr = binder t initial ∧
    NoDup (bound_variables expr).
Proof.
  intros Ht. pose proof (lambdaRealizationOfTree_prefix t initial σ) as Hrun.
  destruct (lambdaRealizationOfTree t initial σ) as [[expr σ']|]; [|done].
  destruct Hrun as (t' & new & st & σ1 & body & _ & _ & _ & ->). eexists _, σ'. split; [done|].
  rewrite bound_variables_lambda by apply binder_names.
  split; [done | apply binder_NoDup].
Qed.

Lemma lambdaRealizationOfTree_binder_witness :
  nonempty_roots tree_S_VP_adv_footNA ∧
  ∃ expr σ',
    lambdaRealizationOfTree tree_S_VP_adv_footNA false store4 = Ok (expr, σ') ∧
    bound_variables expr = ["lvar0"; "lvar1"; "lvar"] ∧
    NoDup (bound_variables expr).
Proof.
  assert (H : nonempty_roots tree_S_VP_adv_footNA) by (by repeat constructor).
  split; [exact H|].
  exact (lambdaRealizationOfTree_binder tree_S_VP_adv_footNA false store4 H).
Defined.

(** ** Types and binders *)

Lemma ranked_sites (P : nat * Tree → bool) (Q : Tree → bool) ns :
  (∀ c n, upper_initial (root n) = true → P (c, n) = Q n) →
  (∀ n, Q n = true → upper_initial (root n) = true) →
  ∀ c, (filter (λ p, P p = true) (ranked c ns)).*2 = filter (λ n, Q n = true) ns.
Proof.
  intros HPQ HQ. induction ns as [|n ns IH]; intros c; [done|].
  rewrite ranked_cons, (filter_cons _ n). destruct (upper_initial (root n)) eqn:Hup.
  - rewrite filter_cons, (HPQ c n Hup).
    destruct (Q n); repeat case_decide; try done; rewrite ?fmap_cons, IH; done.
  - case_decide as HQn; [|apply IH]. apply HQ in HQn. congruence.
Qed.

Lemma filter_filter_bool {A} (P Q : A → bool) (l : list A) :
  filter (λ x, P x = true) (filter (λ x, Q x = true) l) =
    filter (λ x, Q x && P x = true) l.
Proof.
  induction l as [|x l IH]; [done|].
  rewrite (filter_cons (λ x, Q x = true)), (filter_cons (λ x, Q x && P x = true)).
  destruct (Q x); cbn [andb].
  - rewrite decide_True by done. rewrite filter_cons.
    destruct (P x); [rewrite !decide_True by done | rewrite !decide_False by done];
      by rewrite IH.
  - rewrite !decide_False by done. apply IH.
Qed.

(** The constant of a tree and its term go together: the argument types of
    the constant are those of the variables of the binder, in the same
    order (first the nodes with children, with a type [<root>_A], then the
    leaves, with a type [<root>_S]), except that the variable of a footnode
    has no argument type of its own. *)
Theorem typeForTree_binder (t : Tree) (initial : bool) (σ : store) :
  nonempty_roots t →
  let interior := filter (λ p, is_interior_var p = true) (ranked 0 (nodes t)) in
  let leaves := filter (λ p, is_leaf_var p = true) (ranked 0 (nodes t)) in
  ∃ result expr σ',
    typeNodes t initial =
      Ok (((λ p, root p.2 +:+ "_A") <$> filter (λ p, negb (footnode p.2) = true) interior) ++
          ((λ p, root p.2 +:+ "_S") <$> filter (λ p, negb (footnode p.2) = true) leaves) ++
          [result]) ∧
    lambdaRealizationOfTree t initial σ = Ok (expr, σ') ∧
    bound_variables expr =
      (lvar_of <$> interior) ++ (lvar_of <$> leaves) ++ (if initial then [] else ["lvar"]).
Proof.
  intros Ht interior leaves.
  pose proof (lambdaRealizationOfTree_prefix t initial σ) as Hrun.
  destruct (lambdaRealizationOfTree t initial σ) as [[expr σ']|]; [|done].
  destruct Hrun as (t' & new & st & σ1 & body & _ & _ & _ & ->). rewrite typeNodes_eq by done. eexists _, _, σ'.
  split; [|split; [done | by rewrite bound_variables_lambda by apply binder_names]].
  rewrite adjunction_types_eq, substitution_types_eq. unfold interior, leaves.
  rewrite !filter_filter_bool. f_equal. f_equal; [|f_equal].
  - unfold adjunction_sites.
    rewrite <-(ranked_sites (λ p, is_interior_var p && negb (footnode p.2))
                 is_adjunction_site (nodes t)) with (c := 0).
    + by rewrite <-list_fmap_compose.
    + intros c n Hup. unfold is_interior_var, is_adjunction_site. cbn [snd]. rewrite Hup.
      by destruct (nonadjoining n), (footnode n), (0 <? length (children n)).
    + intros n. unfold is_adjunction_site. by destruct (upper_initial (root n)).
  - unfold substitution_sites.
    rewrite <-(ranked_sites (λ p, is_leaf_var p && negb (footnode p.2))
                 is_substitution_site (nodes t)) with (c := 0).
    + by rewrite <-list_fmap_compose.
    + intros c n Hup. unfold is_leaf_var, is_substitution_site. cbn [snd]. rewrite Hup.
      destruct (nonadjoining n), (footnode n), (length (children n)); done.
    + intros n. unfold is_substitution_site. by destruct (upper_initial (root n)).
Qed.

Lemma typeForTree_binder_witness :
  nonempty_roots tree_S_NP_VP ∧
  ∃ expr σ',
    typeNodes tree_S_NP_VP true = Ok ["S_A"; "VP_A"; "NP_S"; "S_S"] ∧
    lambdaRealizationOfTree tree_S_NP_VP true store4 = Ok (expr, σ') ∧
    bound_variables expr = ["lvar0"; "lvar2"; "lvar1"].
Proof.
  assert (H : nonempty_roots tree_S_NP_VP) by (by repeat constructor).
  split; [exact H|].
  destruct (typeForTree_binder tree_S_NP_VP true store4 H) as (result & expr & σ' & H1 & H2 & H3).
  exists expr, σ'. split; [by vm_compute | by split].
Defined.

(** ** Constructor constants *)

Lemma constant_name_inj N1 : ∀ N2 d1 d2,
  all_chars is_digit d1 = true → all_chars is_digit d2 = true →
  N1 +:+ "_" +:+ d1 = N2 +:+ "_" +:+ d2 → N1 = N2 ∧ d1 = d2.
Proof.
  induction N1 as [|c N1 IH]; intros [|c' N2] d1 d2 Hd1 Hd2; cbn [String.append].
  - by intros [= ->].
  - intros [= <- ->]. rewrite all_chars_app in Hd1. cbn [all_chars] in Hd1.
    change (is_digit "_") with false in Hd1. by rewrite andb_false_r in Hd1.
  - intros [= -> <-]. rewrite all_chars_app in Hd2. cbn [all_chars] in Hd2.
    change (is_digit "_") with false in Hd2. by rewrite andb_false_r in Hd2.
  - intros [= -> H]. by destruct (IH _ _ _ Hd1 Hd2 H) as [-> ->].
Qed.

Lemma constants_NoDup (b : dict nat) :
  NoDup b.*1 →
  NoDup (symbol <$> flat_map (λ '(nonterminal, n),
                      (λ i, mkConstant (nonterminal +:+ "_" +:+ Py.str i) i) <$> seq 1 n) b).
Proof.
  induction b as [|[N n] b IH]; [constructor|].
  rewrite fmap_cons, NoDup_cons. cbn [fst]. intros [HN Hnd].
  rewrite flat_map_cons_eq, fmap_app. apply NoDup_app. split_and!.
  - rewrite <-list_fmap_compose.
    assert (Hinj : Inj (=) (=) (symbol ∘ (λ i, mkConstant (N +:+ "_" +:+ Py.str i) i))).
    { intros i j. cbn [compose symbol]. intros H.
      apply constant_name_inj in H as [_ H]; [|apply str_digits ..].
      by apply pretty_nat_inj in H. }
    apply (NoDup_fmap_2 _), NoDup_seq.
  - intros x (c & -> & (i & -> & _)%list_elem_of_fmap)%list_elem_of_fmap
             (c' & Heq & ([N' n'] & Hin & (j & -> & _)%list_elem_of_fmap)%elem_of_flat_map)%list_elem_of_fmap.
    cbn [symbol] in Heq. apply constant_name_inj in Heq as [-> _]; [|apply str_digits ..].
    apply HN, list_elem_of_fmap. by exists (N', n').
  - by apply IH.
Qed.

(** The constructor constants that [generateDerivedTreeConstants] records
    have pairwise distinct names: [N_k] never reads as [N'_k'] for another
    nonterminal or another arity. *)
Theorem derivedTreeConstants_distinct (self s1 : ACG) :
  generateDerivedTreeConstants self = Ok s1 →
  ∃ derived,
    dict_get (metadata s1) "derivedTreeConstants" = Ok derived ∧
    NoDup (symbol <$> derived).
Proof.
  rewrite generateDerivedTreeConstants_eq.
  pose proof (maximalBranching_post self) as Hb. cbv zeta in Hb.
  destruct (maximalBranching self) as [b|]; [|done].
  destruct Hb as (Hnd & _). intros [= <-]. cbn [metadata]. eexists.
  split; [by rewrite dict_get_set, decide_True|]. by apply constants_NoDup.
Qed.

Lemma derivedTreeConstants_distinct_witness :
  ∃ s1 derived,
    generateDerivedTreeConstants (mkACG tag_john_sleeps [] [] []) = Ok s1 ∧
    dict_get (metadata s1) "derivedTreeConstants" = Ok derived ∧
    NoDup (symbol <$> derived).
Proof.
  eexists.
  edestruct (derivedTreeConstants_distinct (mkACG tag_john_sleeps [] [] []))
    as (derived & H1 & H2); [by vm_compute|].
  exists derived. split; [reflexivity|]. exact (conj H1 H2).
Defined.

Lemma xvar_name_ok n : name_ok ("x" +:+ Py.str n) = true.
Proof.
  unfold name_ok. cbn [String.append String.eqb Ascii.eqb Bool.eqb negb andb all_chars].
  change (name_char "x") with true. cbn [andb].
  eapply all_chars_impl; [|apply str_digits]. apply digit_name_char.
Qed.

(** The yield of a constructor of arity [n] binds the [n] pairwise distinct
    variables [x0] to [x(n-1)], one for each argument of its type, which has
    [n + 1] occurrences of [tree]. *)
Theorem concatFunctionOfLength_variables (n : nat) :
  bound_variables (concatFunctionOfLength n) = (λ i, "x" +:+ Py.str i) <$> seq 0 n ∧
  NoDup (bound_variables (concatFunctionOfLength n)) ∧
  length (bound_variables (concatFunctionOfLength n)) + 1 =
    length (filter (λ w, w = "tree") (words (treeTypeOfLength (n + 1)))).
Proof.
  assert (H : bound_variables (concatFunctionOfLength n)
              = (λ i, "x" +:+ Py.str i) <$> seq 0 n).
  { unfold concatFunctionOfLength. cbv zeta.
    set (variables := (λ i, "x" +:+ Py.str i) <$> seq 0 n).
    replace ("lambda " +:+ Py.join " " variables +:+ ". " +:+ Py.join " + " variables)
      with (("lambda " +:+ Py.join " " variables +:+ ".") +:+ " " +:+ Py.join " + " variables)
      by (by rewrite !app_assoc).
    apply bound_variables_lambda, Forall_fmap, Forall_forall. intros i _. apply xvar_name_ok. }
  rewrite H, treeTypeOfLength_trees, length_fmap, length_seq. split_and!; [done | | done].
  apply (NoDup_fmap_2 _ (Inj0 := identifier_inj "x")), NoDup_seq.
Qed.

(** ** The pipeline *)

Lemma foldR_traverse_Raise ts :
  Forall (λ t, ∀ st e, traverse t st = Raise e → e = IndexError) ts →
  ∀ st e, foldR traverse ts st = Raise e → e = IndexError.
Proof.
  induction 1 as [|t ts Ht _ IH]; intros st e; [done|].
  rewrite foldR_cons. destruct (traverse t st) as [st1|e1] eqn:E.
  - apply IH.
  - intros [= <-]. by eapply Ht.
Qed.

Lemma traverse_Raise t : ∀ st e, traverse t st = Raise e → e = IndexError.
Proof.
  induction t as [a cs na fn r IH] using Tree_ind'. intros st e.
  cbn [traverse root children footnode nonadjoining].
  destruct r as [|c r]; [by intros [= <-]|]. cbn [is_nonterminal]. rewrite !res_bind_eq.
  destruct (foldR traverse cs _) as [st1|e1] eqn:E; [done|].
  intros [= <-]. by eapply foldR_traverse_Raise.
Qed.

Lemma typeForTree_outcome t initial :
  match typeForTree t initial with
  | Ok ty => nonempty_roots t ∧ ty = type_text t initial
  | Raise e => e = IndexError ∧ ¬ nonempty_roots t
  end.
Proof.
  pose proof (typeForTree_returns t initial) as Hret. unfold type_text.
  destruct (typeForTree t initial) as [ty|e] eqn:E.
  - split; [|done]. apply Hret. by exists ty.
  - split; [|by intros [ty Hty]%Hret].
    unfold typeForTree, typeNodes in E. rewrite !res_bind_eq in E.
    destruct (traverse t _) as [st|e1] eqn:Et; [done|].
    injection E as <-. by eapply traverse_Raise.
Qed.

Lemma foldl_addType nts : ∀ sig,
  foldl (λ signature nonterminal,
           addType (addType signature (nonterminal +:+ "_S")) (nonterminal +:+ "_A"))
        sig nts =
    mkSignature (sig_name sig)
      (types sig ++ flat_map (λ N, [N +:+ "_S"; N +:+ "_A"]) nts) (constants sig).
Proof.
  induction nts as [|N nts IH]; intros sig; cbn [foldl flat_map].
  - rewrite app_nil_r. by destruct sig.
  - rewrite IH. unfold addType. cbn [sig_name types constants].
    by rewrite <-!(assoc_L (++)).
Qed.

Lemma derivation_loop (b : bool) ts : ∀ sig σ,
  match foldM (λ tree signature,
                 constant ← get_identifier tree;
                 t ← lift (typeForTree tree b);
                 mret (addConstant signature constant t)) ts sig σ with
  | Ok (sig', σ') =>
      σ' = σ ∧ Forall nonempty_roots ts ∧
      sig' = mkSignature (sig_name sig) (types sig)
               (constants sig ++ ((λ t, (identifier_of σ t, type_text t b)) <$> ts))
  | Raise e => e = IndexError ∧ ¬ Forall nonempty_roots ts
  end.
Proof.
  induction ts as [|t ts IH]; intros sig σ.
  - cbn. rewrite app_nil_r. split_and!; [done | constructor | by destruct sig].
  - rewrite foldM_cons. cbv beta. rewrite M_bind_eq. unfold get_identifier at 1.
    rewrite M_bind_eq. unfold lift at 1.
    pose proof (typeForTree_outcome t b) as Ht.
    destruct (typeForTree t b) as [ty|e].
    + destruct Ht as [Ht ->]. cbv [mret M_ret].
      specialize (IH (addConstant sig (σ !! ref t ≫= identifier) (type_text t b)) σ).
      destruct (foldM _ ts _ σ) as [[sig' σ']|e].
      * destruct IH as (-> & Hts & ->). split_and!; [done | by constructor |].
        cbn [addConstant sig_name types constants]. by rewrite <-(assoc_L (++)).
      * destruct IH as [-> Hts]. split; [done|]. by intros [_ ?]%Forall_cons.
    + destruct Ht as [-> Ht]. split; [done|]. by intros [? _]%Forall_cons.
Qed.

(** A run of [generateDerivationTrees]. *)
Lemma generateDerivationTrees_run self σ :
  match generateDerivationTrees self σ with
  | Ok (s1, σ1) =>
      σ1 = σ ∧ Forall nonempty_roots (trees (tag self)) ∧
      s1 = mkACG (tag self) (signatures self ++ [derivation_signature (tag self) σ])
                 (lexicons self) (metadata self)
  | Raise e => e = IndexError ∧ ¬ Forall nonempty_roots (trees (tag self))
  end.
Proof.
  unfold generateDerivationTrees. cbv zeta. rewrite foldl_addType, M_bind_eq.
  cbn [Signature_init sig_name types constants app].
  pose proof (derivation_loop true (initials (tag self))
                (mkSignature "Derivation_trees"
                   (flat_map (λ N, [N +:+ "_S"; N +:+ "_A"]) (nonterminals (tag self))) [])
                σ) as H1.
  destruct (foldM _ (initials (tag self)) _ σ) as [[sig1 σ1]|e].
  - destruct H1 as (-> & Hts1 & ->). rewrite M_bind_eq.
    cbn [sig_name types constants app].
    pose proof (derivation_loop false (auxiliaries (tag self))
                (mkSignature "Derivation_trees"
                   (flat_map (λ N, [N +:+ "_S"; N +:+ "_A"]) (nonterminals (tag self)))
                   ((λ t, (identifier_of σ t, type_text t true)) <$> initials (tag self)))
                σ) as H2.
    destruct (foldM _ (auxiliaries (tag self)) _ σ) as [[sig2 σ2]|e].
    + destruct H2 as (-> & Hts2 & ->). cbv [mret M_ret].
      split_and!; [done | by apply Forall_app |].
      rewrite foldl_addConstant. cbn [sig_name types constants].
      unfold derivation_signature. by rewrite <-(assoc_L (++)).
    + destruct H2 as [-> Hts2]. split; [done|]. by intros [_ ?]%Forall_app.
  - destruct H1 as [-> Hts1]. split; [done|]. by intros [? _]%Forall_app.
Qed.

Lemma foldl_addMapping {A} (g : A → option string) (h : A → string) l n f s m :
  foldl (λ lexicon x, addMapping lexicon (g x) (h x)) (Lexicon n f s m) l =
    Lexicon n f s (m ++ ((λ x, (g x, h x)) <$> l)).
Proof.
  revert m. induction l as [|x l IH]; intros m; cbn [foldl fmap list_fmap].
  - by rewrite app_nil_r.
  - cbn [addMapping]. by rewrite IH, <-(assoc_L (++)).
Qed.

Lemma foldl_addMapping2 nts n f s m :
  foldl (λ lexicon nonterminal,
           addMapping (addMapping lexicon (Some (nonterminal +:+ "_S")) "tree")
                      (Some (nonterminal +:+ "_A")) "tree -> tree")
        (Lexicon n f s m) nts =
    Lexicon n f s
      (m ++ flat_map (λ N, [(Some (N +:+ "_S"), "tree"); (Some (N +:+ "_A"), "tree -> tree")])
                     nts).
Proof.
  revert m. induction nts as [|N nts IH]; intros m; cbn [foldl flat_map].
  - by rewrite app_nil_r.
  - cbn [addMapping]. by rewrite IH, <-!(assoc_L (++)).
Qed.

Lemma identifier_of_app σ new t : ref t < length σ → identifier_of (σ ++ new) t = identifier_of σ t.
Proof. intros Ht. unfold identifier_of. by rewrite lookup_app_l. Qed.

Lemma foldM_varTraverse_Ok ts :
  Forall (λ t, ∀ st σ st' σ', varTraverse t st σ = Ok (st', σ') → nonempty_roots t) ts →
  ∀ st σ st' σ', foldM varTraverse ts st σ = Ok (st', σ') → Forall nonempty_roots ts.
Proof.
  induction 1 as [|t ts Ht _ IH]; intros st σ st' σ'; [constructor|].
  rewrite foldM_cons. destruct (varTraverse t st σ) as [[st1 σ1]|] eqn:E; [|done].
  intros Hts. constructor; [by eapply Ht | by eapply IH].
Qed.

Lemma varTraverse_Ok t : ∀ st σ st' σ',
  varTraverse t st σ = Ok (st', σ') → nonempty_roots t.
Proof.
  induction t as [a cs na fn r IH] using Tree_ind'. intros st σ st' σ'.
  rewrite varTraverse_eq. cbn [ref children nonadjoining footnode root]. cbv zeta.
  destruct r as [|c r]; [done|]. cbn [is_nonterminal]. intros Hcs.
  apply nonempty_roots_eq. split; [done|]. cbn [children].
  by eapply foldM_varTraverse_Ok.
Qed.

(** [lambdaRealizationOfTree] returns only on a tree without an empty
    symbol. *)
Lemma lambdaRealizationOfTree_Ok t initial σ expr σ' :
  lambdaRealizationOfTree t initial σ = Ok (expr, σ') → nonempty_roots t.
Proof.
  unfold lambdaRealizationOfTree, allVarsOfCopy. rewrite !M_bind_eq.
  destruct (deepcopy_copies t σ) as (t' & new & -> & Hcopy).
  rewrite !M_bind_eq.
  destruct (varTraverse t' _ _) as [[st σ2]|] eqn:E; [|done]. intros _.
  apply varTraverse_Ok in E. destruct Hcopy as (_ & Hlab & _).
  rewrite (flat_map_one nodes t), (flat_map_one nodes t') in Hlab.
  unfold nonempty_roots in *.
  assert (∀ l, Forall (λ n, root n ≠ "") l
               ↔ Forall (λ lb : string * bool * bool * nat, lb.1.1.1 ≠ "") (label <$> l)) as Hall.
  { intros l. by rewrite Forall_fmap. }
  by rewrite Hall, <-Hlab, <-Hall.
Qed.

(** One loop of [generateAbsLexicon]: the terms are those of the trees, in
    order, and the store it is given is kept. *)
Lemma abs_loop (b : bool) ts : ∀ n f s m σ,
  match foldM (λ tree lexicon,
                 expr ← lambdaRealizationOfTree tree b;
                 identifier ← get_identifier tree;
                 mret (addMapping lexicon identifier expr)) ts (Lexicon n f s m) σ with
  | Ok (lexicon, σ') =>
      (∃ new, σ' = σ ++ new) ∧ Forall nonempty_roots ts ∧
      ∃ keys terms,
        lexicon = Lexicon n f s (m ++ zip keys terms) ∧
        length keys = length ts ∧
        Forall2 (λ t term, ∃ σa σb, lambdaRealizationOfTree t b σa = Ok (term, σb)) ts terms ∧
        (Forall (λ t, ref t < length σ) ts → keys = identifier_of σ <$> ts)
  | Raise _ => ¬ Forall nonempty_roots ts
  end.
Proof.
  induction ts as [|t ts IH]; intros n f s m σ.
  - cbn. split_and!; [by exists []; rewrite app_nil_r | constructor |].
    exists [], []. split_and!; [by rewrite app_nil_r | done | constructor | done].
  - rewrite foldM_cons. cbv beta. rewrite M_bind_eq.
    pose proof (lambdaRealizationOfTree_run t b σ) as Ht.
    destruct (lambdaRealizationOfTree t b σ) as [[term σ1]|e] eqn:Et;
      [|by intros [? _]%Forall_cons].
    destruct Ht as ((new & ->) & _).
    assert (Hne : nonempty_roots t) by (by eapply lambdaRealizationOfTree_Ok).
    unfold get_identifier at 1. rewrite M_bind_eq. cbv [mret M_ret]. cbn [addMapping].
    specialize (IH n f s (m ++ [(identifier_of (σ ++ new) t, term)]) (σ ++ new)).
    fold (identifier_of (σ ++ new) t).
    destruct (foldM _ ts _ (σ ++ new)) as [[lexicon σ']|e]; [|by intros [_ ?]%Forall_cons].
    destruct IH as ((new' & ->) & Hts & keys & terms & -> & Hlen & Hterms & Hkeys).
    split_and!; [by exists (new ++ new'); rewrite (assoc_L (++)) | by constructor |].
    exists (identifier_of (σ ++ new) t :: keys), (term :: terms). split_and!.
    + cbn [zip zip_with]. by rewrite <-(assoc_L (++)).
    + cbn [length]. by rewrite Hlen.
    + constructor; [by exists σ, (σ ++ new) | done].
    + intros [Ht Hall]%Forall_cons. rewrite fmap_cons, identifier_of_app by done.
      rewrite Hkeys.
      * f_equal. apply list_fmap_ext. intros j t' Hj%list_elem_of_lookup_2.
        rewrite Forall_forall in Hall. by apply identifier_of_app, Hall.
      * eapply Forall_impl; [exact Hall|]. intros t'. rewrite length_app. cbn beta. lia.
Qed.

(** A run of [generateAbsLexicon]. *)
Lemma generateAbsLexicon_run self σ :
  match generateAbsLexicon self σ with
  | Ok (s1, σ1) =>
      (∃ new, σ1 = σ ++ new) ∧ Forall nonempty_roots (trees (tag self)) ∧
      ∃ keys1 keys2 terms1 terms2,
        s1 = mkACG (tag self) (signatures self)
               (lexicons self ++
                [Lexicon "Abs" "Derivation_trees" "Derived_trees"
                   (flat_map (λ N, [(Some (N +:+ "_S"), "tree");
                                    (Some (N +:+ "_A"), "tree -> tree")])
                             (nonterminals (tag self)) ++
                    zip keys1 terms1 ++ zip keys2 terms2 ++
                    ((λ N, (Some ("I_" +:+ N), "lambda lvar. lvar"))
                       <$> nonterminals (tag self)))])
               (metadata self) ∧
        length keys1 = length (initials (tag self)) ∧
        length keys2 = length (auxiliaries (tag self)) ∧
        Forall2 (λ t term, ∃ σa σb, lambdaRealizationOfTree t true σa = Ok (term, σb))
                (initials (tag self)) terms1 ∧
        Forall2 (λ t term, ∃ σa σb, lambdaRealizationOfTree t false σa = Ok (term, σb))
                (auxiliaries (tag self)) terms2 ∧
        (Forall (λ t, ref t < length σ) (trees (tag self)) →
         keys1 = identifier_of σ <$> initials (tag self) ∧
         keys2 = identifier_of σ <$> auxiliaries (tag self))
  | Raise _ => ¬ Forall nonempty_roots (trees (tag self))
  end.
Proof.
  unfold generateAbsLexicon, Lexicon_init. cbv zeta. rewrite foldl_addMapping2, M_bind_eq.
  cbn [app].
  set (m0 := flat_map _ (nonterminals (tag self))).
  pose proof (abs_loop true (initials (tag self)) "Abs" "Derivation_trees" "Derived_trees"
                m0 σ) as H1.
  destruct (foldM _ (initials (tag self)) _ σ) as [[lex1 σ1]|e];
    [|by intros [? _]%Forall_app].
  destruct H1 as ((new1 & ->) & Hts1 & keys1 & terms1 & -> & Hlen1 & Hterms1 & Hkeys1).
  rewrite M_bind_eq.
  pose proof (abs_loop false (auxiliaries (tag self)) "Abs" "Derivation_trees" "Derived_trees"
                (m0 ++ zip keys1 terms1) (σ ++ new1)) as H2.
  destruct (foldM _ (auxiliaries (tag self)) _ (σ ++ new1)) as [[lex2 σ2]|e];
    [|by intros [_ ?]%Forall_app].
  destruct H2 as ((new2 & ->) & Hts2 & keys2 & terms2 & -> & Hlen2 & Hterms2 & Hkeys2).
  cbv [mret M_ret].
  split_and!; [by exists (new1 ++ new2); rewrite (assoc_L (++)) | by apply Forall_app |].
  exists keys1, keys2, terms1, terms2. split_and!; try done.
  - rewrite foldl_addMapping. by rewrite <-!(assoc_L (++)).
  - intros [Ha1 Ha2]%Forall_app. split; [by apply Hkeys1|].
    rewrite Hkeys2.
    + apply list_fmap_ext. intros j t' Hj%list_elem_of_lookup_2.
      rewrite Forall_forall in Ha2. by apply identifier_of_app, Ha2.
    + eapply Forall_impl; [exact Ha2|]. intros t'. rewrite length_app. cbn beta. lia.
Qed.

Lemma generateYieldLexicons_eq self derived :
  dict_get (metadata self) "derivedTreeConstants" = Ok derived →
  generateYieldLexicons self =
    Ok (mkACG (tag self) (signatures self)
          (lexicons self ++ [yield_lexicon (tag self) derived]) (metadata self)).
Proof.
  intros Hd. unfold generateYieldLexicons, Lexicon_init. cbv zeta.
  cbn [addMapping app]. rewrite foldl_addMapping, Hd, res_bind_eq, foldl_addMapping.
  cbn [addMapping]. unfold yield_lexicon. by rewrite <-!(assoc_L (++)).
Qed.

Lemma generateStringSignature_eq self :
  generateStringSignature self =
    mkACG (tag self) (signatures self ++ [strings_signature (tag self)])
          (lexicons self) (metadata self).
Proof.
  unfold generateStringSignature. cbv zeta. rewrite foldl_addConstant.
  unfold addConstant, addType, Signature_init, strings_signature.
  cbn [sig_name types constants app]. reflexivity.
Qed.

(** A run of [ACG.__init__]. *)
Lemma ACG_init_run g σ :
  match ACG_init g σ with
  | Ok (acg, σ') =>
      Forall nonempty_roots (trees g) ∧
      Forall (λ n, root n ∈ nonterminals g) (flat_map analysed (trees g)) ∧
      (∃ new, σ' = σ ++ new) ∧
      ∃ derived keys1 keys2 terms1 terms2,
        acg = mkACG g
                [derivation_signature g σ; derived_signature g derived;
                 strings_signature g]
                [Lexicon "Abs" "Derivation_trees" "Derived_trees"
                   (flat_map (λ N, [(Some (N +:+ "_S"), "tree");
                                    (Some (N +:+ "_A"), "tree -> tree")])
                             (nonterminals g) ++
                    zip keys1 terms1 ++ zip keys2 terms2 ++
                    ((λ N, (Some ("I_" +:+ N), "lambda lvar. lvar")) <$> nonterminals g));
                 yield_lexicon g derived;
                 ComposedLexicon "Full" "Abs" "Yield"]
                [("derivedTreeConstants", derived)] ∧
        NoDup (symbol <$> derived) ∧
        length keys1 = length (initials g) ∧
        length keys2 = length (auxiliaries g) ∧
        Forall2 (λ t term, ∃ σa σb, lambdaRealizationOfTree t true σa = Ok (term, σb))
                (initials g) terms1 ∧
        Forall2 (λ t term, ∃ σa σb, lambdaRealizationOfTree t false σa = Ok (term, σb))
                (auxiliaries g) terms2 ∧
        (Forall (λ t, ref t < length σ) (trees g) →
         keys1 = identifier_of σ <$> initials g ∧
         keys2 = identifier_of σ <$> auxiliaries g)
  | Raise e =>
      (e = IndexError ∧ ¬ Forall nonempty_roots (trees g)) ∨
      (e = KeyError ∧ Forall nonempty_roots (trees g) ∧
       Exists (λ n, root n ∉ nonterminals g) (flat_map analysed (trees g)))
  end.
Proof.
  unfold ACG_init, generateACG. rewrite M_bind_eq.
  pose proof (generateDerivationTrees_run (mkACG g [] [] []) σ) as H1.
  destruct (generateDerivationTrees _ σ) as [[s1 σ1]|e]; [|by left].
  cbn [tag signatures lexicons metadata app] in H1. destruct H1 as (-> & Hne & ->).
  rewrite M_bind_eq. unfold lift at 1. rewrite generateDerivedTreeConstants_eq.
  pose proof (maximalBranching_post
                (mkACG g [derivation_signature g σ] [] [])) as Hb.
  cbv zeta in Hb. cbn [tag] in Hb.
  destruct (maximalBranching _) as [b|e].
  2:{ destruct e; try done. right. by split_and!. }
  destruct Hb as (Hnd & _ & _ & Hdecl).
  cbn [tag signatures lexicons metadata dict_set].
  fold (constants_of b). set (derived := constants_of b).
  rewrite M_bind_eq. unfold lift at 1.
  rewrite (generateDerivedTrees_eq _ derived) by done.
  cbn [tag signatures lexicons metadata app].
  rewrite generateStringSignature_eq.
  cbn [tag signatures lexicons metadata app]. rewrite M_bind_eq.
  pose proof (generateAbsLexicon_run
                (mkACG g [derivation_signature g σ; derived_signature g derived;
                            strings_signature g] []
                       [("derivedTreeConstants", derived)]) σ) as Habs.
  fold (derived_signature g derived).
  destruct (generateAbsLexicon _ σ) as [[s4 σ4]|e]; [|done].
  cbn [tag signatures lexicons metadata app] in Habs.
  destruct Habs as (Hnew & _ & keys1 & keys2 & terms1 & terms2 & -> & Hl1 & Hl2 & Ht1 & Ht2 & Hk).
  rewrite M_bind_eq. unfold lift at 1.
  rewrite (generateYieldLexicons_eq _ derived) by done.
  cbn [tag signatures lexicons metadata app]. cbv [mret M_ret].
  unfold generateFullLexicon. cbn [tag signatures lexicons metadata app].
  split_and!; [done | done | done |].
  exists derived, keys1, keys2, terms1, terms2.
  split_and!; try done. by apply constants_NoDup.
Qed.

(** What the outcome of [ACG.__init__] tells about the grammar.  When it
    returns, no symbol of a tree is empty and every node that the branching
    analysis visits (a nonterminal all of whose ancestors are nonterminals)
    carries a declared nonterminal.  When it raises [IndexError], some
    symbol is empty.  When it raises [KeyError], no symbol is empty and
    some visited node carries a symbol that is not declared. *)
Theorem ACG_init_outcome (g : TAG) (σ : store) :
  (∀ acg σ', ACG_init g σ = Ok (acg, σ') →
     Forall nonempty_roots (trees g) ∧
     Forall (λ n, root n ∈ nonterminals g) (flat_map analysed (trees g))) ∧
  (ACG_init g σ = Raise IndexError → ¬ Forall nonempty_roots (trees g)) ∧
  (ACG_init g σ = Raise KeyError →
     Forall nonempty_roots (trees g) ∧
     Exists (λ n, root n ∉ nonterminals g) (flat_map analysed (trees g))).
Proof.
  pose proof (ACG_init_run g σ) as Hrun.
  destruct (ACG_init g σ) as [[acg σ']|e].
  - destruct Hrun as (Hne & Hdecl & _). split_and!; [by intros ? ? _ | done | done].
  - split_and!; [done | |].
    + intros [= ->]. by destruct Hrun as [[_ ?]|[? _]].
    + intros [= ->]. by destruct Hrun as [[? _]|[_ ?]].
Qed.

Lemma ACG_init_outcome_witness :
  (∃ acg σ', ACG_init tag_john_sleeps (replicate 6 (mkCell None None)) = Ok (acg, σ') ∧
             Forall nonempty_roots (trees tag_john_sleeps) ∧
             Forall (λ n, root n ∈ nonterminals tag_john_sleeps)
                    (flat_map analysed (trees tag_john_sleeps))) ∧
  (ACG_init tag_empty_symbol store4 = Raise IndexError ∧
   ¬ Forall nonempty_roots (trees tag_empty_symbol)) ∧
  (ACG_init tag_undeclared store4 = Raise KeyError ∧
   Forall nonempty_roots (trees tag_undeclared) ∧
   Exists (λ n, root n ∉ nonterminals tag_undeclared)
          (flat_map analysed (trees tag_undeclared))).
Proof.
  destruct (ACG_init_outcome tag_john_sleeps (replicate 6 (mkCell None None))) as (H1 & _ & _).
  destruct (ACG_init_outcome tag_empty_symbol store4) as (_ & H2 & _).
  destruct (ACG_init_outcome tag_undeclared store4) as (_ & _ & H3).
  split; [|split].
  - destruct (ACG_init tag_john_sleeps (replicate 6 (mkCell None None))) as [[acg σ']|] eqn:E; [|by vm_compute in E].
    exists acg, σ'. exact (conj eq_refl (H1 acg σ' eq_refl)).
  - assert (E : ACG_init tag_empty_symbol store4 = Raise IndexError) by (by vm_compute).
    exact (conj E (H2 E)).
  - assert (E : ACG_init tag_undeclared store4 = Raise KeyError) by (by vm_compute).
    exact (conj E (H3 E)).
Defined.

(** What [ACG.__init__] builds: the three signatures [Derivation_trees],
    [Derived_trees] and [Strings], in this order; the lexicon [Abs] from the
    first to the second, the lexicon [Yield] from the second to the third,
    and their composition [Full].  The grammar is kept, and so is every
    cell of the store: the compiler writes to new objects only. *)
Theorem ACG_init_shape (g : TAG) (σ σ' : store) (acg : ACG) :
  ACG_init g σ = Ok (acg, σ') →
  tag acg = g ∧
  (∃ new, σ' = σ ++ new) ∧
  sig_name <$> signatures acg = ["Derivation_trees"; "Derived_trees"; "Strings"] ∧
  ∃ abs yield,
    lexicons acg = [Lexicon "Abs" "Derivation_trees" "Derived_trees" abs;
                    Lexicon "Yield" "Derived_trees" "Strings" yield;
                    ComposedLexicon "Full" "Abs" "Yield"].
Proof.
  intros Hinit. pose proof (ACG_init_run g σ) as Hrun. rewrite Hinit in Hrun.
  destruct Hrun as (_ & _ & Hnew & derived & keys1 & keys2 & terms1 & terms2 & -> & _).
  split_and!; [done | done | done |]. by eexists _, _.
Qed.

Lemma ACG_init_shape_witness :
  ∃ acg σ',
    ACG_init tag_john_sleeps (replicate 6 (mkCell None None)) = Ok (acg, σ') ∧
    tag acg = tag_john_sleeps ∧
    (∃ new, σ' = replicate 6 (mkCell None None) ++ new) ∧
    sig_name <$> signatures acg = ["Derivation_trees"; "Derived_trees"; "Strings"].
Proof.
  destruct (ACG_init tag_john_sleeps (replicate 6 (mkCell None None)))
    as [[acg σ']|] eqn:E; [|by vm_compute in E].
  destruct (ACG_init_shape _ _ _ _ E) as (H1 & H2 & H3 & _).
  exists acg, σ'. exact (conj eq_refl (conj H1 (conj H2 H3))).
Defined.

Lemma flat_map_keys {A} (f g : A → string) (v w : string) (l : list A) :
  (flat_map (λ N, [(Some (f N), v); (Some (g N), w)]) l).*1 =
    Some <$> flat_map (λ N, [f N; g N]) l.
Proof. induction l as [|x l IH]; [done|]. cbn [flat_map app fmap list_fmap]. by rewrite <-IH. Qed.

Lemma Forall2_same_length {A B} (P : A → B → Prop) l k : Forall2 P l k → length l = length k.
Proof. induction 1; cbn [length]; congruence. Qed.

(** The lexicons are total on their abstract signatures: when the trees of
    the grammar are objects of the store, the lexicon [Abs] has one entry
    for each type and each constant of [Derivation_trees], and the lexicon
    [Yield] one for each type and each constant of [Derived_trees], in the
    order of their declaration; the entry of a tree in [Abs] is its
    realized term and its type in [Derivation_trees] is its inferred type. *)
Theorem ACG_init_lexicons (g : TAG) (σ σ' : store) (acg : ACG) :
  ACG_init g σ = Ok (acg, σ') →
  Forall (λ t, ref t < length σ) (trees g) →
  ∃ D T S abs yield full,
    signatures acg = [D; T; S] ∧
    lexicons acg = [Lexicon "Abs" (sig_name D) (sig_name T) abs;
                    Lexicon "Yield" (sig_name T) (sig_name S) yield; full] ∧
    abs.*1 = (Some <$> types D) ++ (constants D).*1 ∧
    yield.*1 = (Some <$> types T) ++ (constants T).*1 ∧
    (∀ k t, trees g !! k = Some t →
       ∃ ty term σa σb,
         constants D !! k = Some (identifier_of σ t, ty) ∧
         abs !! (length (types D) + k) = Some (identifier_of σ t, term) ∧
         typeForTree t (bool_decide (k < length (initials g))) = Ok ty ∧
         lambdaRealizationOfTree t (bool_decide (k < length (initials g))) σa = Ok (term, σb)).
Proof.
  intros Hinit Halloc. pose proof (ACG_init_run g σ) as Hrun. rewrite Hinit in Hrun.
  destruct Hrun as (Hne & _ & _ & derived & keys1 & keys2 & terms1 & terms2 & -> & _ &
                    Hl1 & Hl2 & Ht1 & Ht2 & Hkeys).
  destruct (Hkeys Halloc) as [-> ->].
  pose proof (Forall2_same_length _ _ _ Ht1) as Hlt1.
  pose proof (Forall2_same_length _ _ _ Ht2) as Hlt2.
  eexists _, _, _, _, _, _. cbn [signatures lexicons].
  split; [reflexivity|]. split; [reflexivity|].
  cbn [derivation_signature derived_signature types constants sig_name].
  split_and!.
  - rewrite !fmap_app, flat_map_keys, !fst_zip by (rewrite length_fmap; lia).
    by rewrite <-!list_fmap_compose.
  - cbn [fmap list_fmap app]. f_equal. rewrite !fmap_app, <-!list_fmap_compose. done.
  - intros k t Hk.
    assert (Hty : ∀ b, typeForTree t b = Ok (type_text t b)).
    { intros b. pose proof (typeForTree_outcome t b) as H.
      destruct (typeForTree t b) as [ty|e]; [by destruct H as [_ ->]|].
      destruct H as [_ H]. destruct H.
      rewrite Forall_forall in Hne. apply Hne. by eapply list_elem_of_lookup_2. }
    assert (Hlen : length (flat_map (λ N, [(Some (N +:+ "_S"), "tree");
                                            (Some (N +:+ "_A"), "tree -> tree")])
                                     (nonterminals g))
                   = length (flat_map (λ N, [N +:+ "_S"; N +:+ "_A"]) (nonterminals g))).
    { rewrite <-(length_fmap fst), flat_map_keys. by rewrite length_fmap. }
    unfold trees in Hk. apply lookup_app_Some in Hk as [Hk|[Hge Hk]].
    + pose proof (lookup_lt_Some _ _ _ Hk) as Hlt.
      rewrite bool_decide_eq_true_2 by done.
      destruct (Forall2_lookup_l _ _ _ _ _ Ht1 Hk) as (term & Hterm & σa & σb & Hrun).
      exists (type_text t true), term, σa, σb. split_and!; [| | done | done].
      * rewrite lookup_app_l by (by rewrite length_fmap).
        by rewrite list_lookup_fmap, Hk.
      * rewrite lookup_app_r by lia. rewrite Hlen, Nat.add_comm, Nat.add_sub.
        rewrite lookup_app_l by (rewrite length_zip, length_fmap; lia).
        apply lookup_zip_with_Some. exists (identifier_of σ t), term.
        split_and!; [done | by rewrite list_lookup_fmap, Hk | done].
    + rewrite bool_decide_eq_false_2 by lia.
      destruct (Forall2_lookup_l _ _ _ _ _ Ht2 Hk) as (term & Hterm & σa & σb & Hrun).
      pose proof (lookup_lt_Some _ _ _ Hk) as Hlt.
      exists (type_text t false), term, σa, σb. split_and!; [| | done | done].
      * rewrite lookup_app_r by (rewrite length_fmap; lia). rewrite length_fmap.
        rewrite lookup_app_l by (by rewrite length_fmap).
        by rewrite list_lookup_fmap, Hk.
      * rewrite lookup_app_r by lia. rewrite Hlen, Nat.add_comm, Nat.add_sub.
        rewrite lookup_app_r by (rewrite length_zip, length_fmap; lia).
        rewrite length_zip, length_fmap, <-Hlt1, Nat.min_id.
        rewrite lookup_app_l by (rewrite length_zip, length_fmap; lia).
        apply lookup_zip_with_Some. exists (identifier_of σ t), term.
        split_and!; [done | by rewrite list_lookup_fmap, Hk | done].
Qed.

Lemma ACG_init_lexicons_witness :
  ∃ acg σ' D T S abs yield full,
    ACG_init tag_john_sleeps (replicate 6 (mkCell None None)) = Ok (acg, σ') ∧
    Forall (λ t, ref t < length (replicate 6 (mkCell None None))) (trees tag_john_sleeps) ∧
    signatures acg = [D; T; S] ∧
    lexicons acg = [Lexicon "Abs" (sig_name D) (sig_name T) abs;
                    Lexicon "Yield" (sig_name T) (sig_name S) yield; full] ∧
    abs.*1 = (Some <$> types D) ++ (constants D).*1 ∧
    yield.*1 = (Some <$> types T) ++ (constants T).*1.
Proof.
  destruct (ACG_init tag_john_sleeps (replicate 6 (mkCell None None)))
    as [[acg σ']|] eqn:E; [|by vm_compute in E].
  assert (Ha : Forall (λ t, ref t < length (replicate 6 (mkCell None None)))
                      (trees tag_john_sleeps)).
  { repeat constructor. }
  destruct (ACG_init_lexicons _ _ _ _ E Ha)
    as (D & T & S & abs & yield & full & H1 & H2 & H3 & H4 & _).
  exists acg, σ', D, T, S, abs, yield, full.
  exact (conj eq_refl (conj Ha (conj H1 (conj H2 (conj H3 H4))))).
Defined.

(** ** The compiled grammar *)

Lemma TAG_init_fields loads contents σ σ' g :
  TAG_init loads contents σ = Ok (g, σ') →
  terminals g = c_terminals contents ∧ nonterminals g = c_nonterminals contents.
Proof.
  rewrite TAG_init_eq.
  destruct (parseTrees loads _ σ) as [[ts σ2]|]; [|done]. cbv zeta.
  destruct (numberTrees _ σ2) as [[[] σ3]|]; [|done]. by intros [= <- <-].
Qed.

(** In the output of a grammar whose declared nonterminals are pairwise
    distinct, the signature [Derivation_trees] declares no constant twice:
    its constants are [C_TI0], ..., [C_TA<m>], ..., then [I_<N>] for each
    nonterminal [N], and every one of them has a name. *)
Theorem compiled_constants_distinct
    (loads : string → res sexp) (contents : Contents) (σ : store)
    (sigs : list Signature) (lexs : list LexiconObj) :
  compiled loads contents σ = Ok (sigs, lexs) →
  NoDup (c_nonterminals contents) →
  ∃ D rest names,
    sigs = D :: rest ∧ sig_name D = "Derivation_trees" ∧
    (constants D).*1 = Some <$> names ∧ NoDup names.
Proof.
  unfold compiled. rewrite M_bind_eq.
  destruct (TAG_init loads contents σ) as [[g σ1]|] eqn:Etag; [|done].
  pose proof (ACG_init_run g σ1) as Hrun.
  destruct (ACG_init g σ1) as [[acg σ2]|]; [|done].
  intros [= <- <-] Hnts.
  destruct Hrun as (_ & _ & _ & derived & keys1 & keys2 & terms1 & terms2 & -> & _).
  destruct (TAG_init_identifier_list _ _ _ _ _ Etag) as [Hids _].
  destruct (TAG_init_fields _ _ _ _ _ Etag) as [_ Hn]. cbn [signatures].
  exists (derivation_signature g σ1), [derived_signature g derived; strings_signature g],
         ((((λ n, "C_TI" +:+ Py.str n) <$> seq 0 (length (initials g))) ++
           ((λ n, "C_TA" +:+ Py.str n) <$> seq (length (initials g))
                                               (length (auxiliaries g)))) ++
          ((λ N, "I_" +:+ N) <$> nonterminals g)).
  split; [reflexivity|]. split; [reflexivity|].
  split.
  - rewrite (fmap_app Some), <-Hids. cbn [derivation_signature constants].
    unfold trees. rewrite !fmap_app, <-!list_fmap_compose, <-(assoc_L (++)). reflexivity.
  - apply NoDup_app. split_and!.
    + apply identifier_list_NoDup.
    + intros id Hid (N & -> & _)%list_elem_of_fmap.
      apply elem_of_app in Hid as [(n & Heq & _)%list_elem_of_fmap|(n & Heq & _)%list_elem_of_fmap];
        cbn [String.append] in Heq; done.
    + rewrite Hn. apply NoDup_fmap_2; [|done].
      intros N1 N2. cbn [String.append]. by intros [= ->].
Qed.

Lemma compiled_constants_distinct_witness :
  ∃ sigs lexs D rest names,
    compiled loads_scenarios contents_with_auxiliary [] = Ok (sigs, lexs) ∧
    NoDup (c_nonterminals contents_with_auxiliary) ∧
    sigs = D :: rest ∧ (constants D).*1 = Some <$> names ∧ NoDup names.
Proof.
  destruct (compiled loads_scenarios contents_with_auxiliary []) as [[sigs lexs]|] eqn:E;
    [|by vm_compute in E].
  assert (Hn : NoDup (c_nonterminals contents_with_auxiliary)).
  { apply (bool_decide_unpack (NoDup _)). by vm_compute. }
  destruct (compiled_constants_distinct _ _ _ _ _ E Hn) as (D & rest & names & H1 & _ & H2 & H3).
  exists sigs, lexs, D, rest, names.
  exact (conj eq_refl (conj Hn (conj H1 (conj H2 H3)))).
Defined.

(** ** Parentheses of a realized term *)

Lemma paren_depth_app s1 s2 : ∀ d,
  paren_depth (s1 +:+ s2) d =
    match paren_depth s1 d with Some d' => paren_depth s2 d' | None => None end.
Proof.
  induction s1 as [|c s1 IH]; intros d; cbn [String.append paren_depth]; [done|].
  destruct (Ascii.eqb c "("); [apply IH|].
  destruct (Ascii.eqb c ")"); [|apply IH]. destruct d; [done | apply IH].
Qed.

Lemma paren_depth_free s d : paren_free s = true → paren_depth s d = Some d.
Proof.
  unfold paren_free. induction s as [|c s IH]; cbn [all_chars paren_depth]; [done|].
  unfold no_paren at 1. intros [[H1 H2]%andb_true_iff Hs]%andb_true_iff.
  apply negb_true_iff in H1, H2. rewrite H1, H2. by apply IH.
Qed.

Lemma paren_free_app s1 s2 :
  paren_free s1 = true → paren_free s2 = true → paren_free (s1 +:+ s2) = true.
Proof. unfold paren_free. rewrite all_chars_app. by intros -> ->. Qed.

Lemma paren_free_digits s : all_chars is_digit s = true → paren_free s = true.
Proof.
  apply all_chars_impl. intros c. unfold is_digit, no_paren. cbn [Py.char_in].
  destruct (Ascii.eqb_spec c "(") as [->|]; [done|].
  destruct (Ascii.eqb_spec c ")") as [->|]; done.
Qed.

Lemma paren_free_lvar k : paren_free ("lvar" +:+ Py.str k) = true.
Proof. apply (paren_free_app "lvar"); [done|]. apply paren_free_digits, str_digits. Qed.

Lemma paren_free_join names :
  Forall (λ w, paren_free w = true) names → paren_free (Py.join " " names) = true.
Proof.
  induction names as [|w [|w' names] IH]; [done | by intros [? _]%Forall_cons |].
  intros [Hw Hall]%Forall_cons. rewrite join_cons2.
  apply paren_free_app; [done|]. apply (paren_free_app " "); [done | by apply IH].
Qed.

Lemma depth_parens e :
  (∀ d, paren_depth e d = Some d) → ∀ d, paren_depth ("(" +:+ e +:+ ")") d = Some d.
Proof.
  intros He d. change ("(" +:+ e +:+ ")") with (String "(" (e +:+ ")")).
  cbn [paren_depth Ascii.eqb Bool.eqb]. by rewrite paren_depth_app, He.
Qed.

Lemma depth_join es :
  Forall (λ e, ∀ d, paren_depth e d = Some d) es →
  ∀ d, paren_depth (Py.join " " es) d = Some d.
Proof.
  induction es as [|e [|e' es] IH]; [done | by intros [? _]%Forall_cons |].
  intros [He Hall]%Forall_cons d. rewrite join_cons2, paren_depth_app, He.
  change (" " +:+ Py.join " " (e' :: es)) with (String " " (Py.join " " (e' :: es))).
  cbn [paren_depth Ascii.eqb Bool.eqb]. by apply IH.
Qed.

Lemma depth_application r k es :
  paren_free r = true → Forall (λ e, ∀ d, paren_depth e d = Some d) es →
  ∀ d, paren_depth ("(" +:+ r +:+ "_" +:+ Py.str k +:+ " " +:+ Py.join " " es +:+ ")") d
       = Some d.
Proof.
  intros Hr Hes d.
  change ("(" +:+ r +:+ "_" +:+ Py.str k +:+ " " +:+ Py.join " " es +:+ ")")
    with (String "(" (r +:+ String "_" (Py.str k +:+ String " " (Py.join " " es +:+ ")")))).
  cbn [paren_depth Ascii.eqb Bool.eqb].
  rewrite paren_depth_app, (paren_depth_free r) by done.
  cbn [paren_depth Ascii.eqb Bool.eqb].
  rewrite paren_depth_app, (paren_depth_free (Py.str k))
    by apply paren_free_digits, str_digits.
  cbn [paren_depth Ascii.eqb Bool.eqb].
  by rewrite paren_depth_app, depth_join.
Qed.

Lemma forM_constructExpression_depth ts :
  Forall (λ t, ∀ σ body σ',
            Forall (λ n, paren_free (root n) = true ∧ named σ (ref n)) (nodes t) →
            constructExpression t σ = Ok (body, σ') →
            ∀ d, paren_depth body d = Some d) ts →
  ∀ σ es σ',
    Forall (λ n, paren_free (root n) = true ∧ named σ (ref n)) (flat_map nodes ts) →
    forM (λ child, e ← constructExpression child; mret ("(" +:+ e +:+ ")")) ts σ
      = Ok (es, σ') →
    Forall (λ e, ∀ d, paren_depth e d = Some d) es.
Proof.
  induction 1 as [|t ts Ht _ IH]; intros σ es σ'.
  - intros _ [= <- <-]. constructor.
  - rewrite flat_map_cons_eq, Forall_app. intros [Hall1 Hall2].
    rewrite forM_cons, M_bind_eq.
    pose proof (constructExpression_post t σ) as Hpost.
    destruct (constructExpression t σ) as [[e σ1]|] eqn:E; [|done].
    unfold expr_post in Hpost. subst σ1. cbv [mret M_ret].
    destruct (forM _ ts σ) as [[es' σ2]|] eqn:E2; [|done]. intros [= <- <-].
    constructor; [|by eapply IH].
    apply depth_parens. by eapply Ht.
Qed.

Lemma constructExpression_depth t : ∀ σ body σ',
  Forall (λ n, paren_free (root n) = true ∧ named σ (ref n)) (nodes t) →
  constructExpression t σ = Ok (body, σ') →
  ∀ d, paren_depth body d = Some d.
Proof.
  induction t as [a cs na fn r IH] using Tree_ind'. intros σ body σ'.
  rewrite nodes_eq, Forall_cons. cbn [root ref children]. intros [[Hr Ha] Hcs].
  rewrite constructExpression_eq. cbn [ref children nonadjoining footnode root].
  destruct r as [|c r]; [done|]. cbn [is_nonterminal].
  destruct (negb (Py.isupper c)); [intros [= <- <-] d; by apply paren_depth_free|].
  destruct fn.
  { destruct na; intros [= <- <-] d; [done|].
    apply paren_depth_free, paren_free_app; done. }
  pose proof (forM_constructExpression cs
                (proj2 (Forall_forall _ _) (λ t _, constructExpression_post t)) σ) as Hpost.
  destruct (forM _ cs σ) as [[es σ1]|] eqn:E; [|done].
  unfold expr_post in Hpost. subst σ1. cbv zeta.
  pose proof (forM_constructExpression_depth cs IH σ es σ Hcs E) as Hes.
  destruct na; intros [= <- <-] d.
  - exact (depth_application (String c r) (length es) es Hr Hes d).
  - rewrite paren_depth_app, paren_depth_free by done.
    exact (depth_application (String c r) (length es) es Hr Hes d).
Qed.

Lemma alter_named (σ : store) a b v :
  paren_free v = true → (b = a ∨ named σ b) →
  named (alter (λ c, mkCell (identifier c) (Some v)) a σ) b.
Proof.
  intros Hv Hb. unfold named. destruct (decide (b = a)) as [->|Hne].
  - rewrite list_lookup_alter_eq. by destruct (σ !! a).
  - rewrite list_lookup_alter_ne by done. by destruct Hb.
Qed.

Lemma foldM_varTraverse_named ts :
  Forall (λ t, ∀ st σ st' σ', varTraverse t st σ = Ok (st', σ') →
            (∀ a, named σ a → named σ' a) ∧ Forall (λ n, named σ' (ref n)) (nodes t)) ts →
  ∀ st σ st' σ', foldM varTraverse ts st σ = Ok (st', σ') →
    (∀ a, named σ a → named σ' a) ∧ Forall (λ n, named σ' (ref n)) (flat_map nodes ts).
Proof.
  induction 1 as [|t ts Ht _ IH]; intros st σ st' σ'.
  - intros [= <- <-]. split; [done | constructor].
  - rewrite foldM_cons. destruct (varTraverse t st σ) as [[st1 σ1]|] eqn:E; [|done].
    intros Hts. destruct (Ht _ _ _ _ E) as [Hp1 He1].
    destruct (IH _ _ _ _ Hts) as [Hp2 He2]. split; [by auto|].
    rewrite flat_map_cons_eq. apply Forall_app. split; [|done].
    eapply Forall_impl; [exact He1|]. intros n. apply Hp2.
Qed.

(** After [varTraverse] every node of the tree has a variable name of the
    traversal, and every other name is as before. *)
Lemma varTraverse_named t : ∀ st σ st' σ',
  varTraverse t st σ = Ok (st', σ') →
  (∀ a, named σ a → named σ' a) ∧ Forall (λ n, named σ' (ref n)) (nodes t).
Proof.
  induction t as [a cs na fn r IH] using Tree_ind'. intros st σ st' σ'.
  rewrite varTraverse_eq. cbn [ref children nonadjoining footnode root]. cbv zeta.
  destruct r as [|c r]; [done|]. cbn [is_nonterminal]. intros Hcs.
  apply (foldM_varTraverse_named cs IH) in Hcs as [Hp He].
  split.
  - intros b Hb. apply Hp, alter_named; [apply paren_free_lvar | by right].
  - rewrite nodes_eq. cbn [children]. constructor; [|done]. cbn [ref].
    apply Hp, alter_named; [apply paren_free_lvar | by left].
Qed.

(** The parentheses of a realized term match, when no symbol of the tree
    has a parenthesis of its own. *)
Theorem lambdaRealizationOfTree_balanced (t : Tree) (initial : bool) (σ : store) :
  nonempty_roots t →
  Forall (λ n, paren_free (root n) = true) (nodes t) →
  ∃ expr σ', lambdaRealizationOfTree t initial σ = Ok (expr, σ') ∧ balanced expr.
Proof.
  intros Hne Hfree.
  pose proof (lambdaRealizationOfTree_prefix t initial σ) as Hpre.
  destruct (lambdaRealizationOfTree t initial σ) as [[expr σ']|]; [|done].
  destruct Hpre as (t' & new & st & σ1 & body & Hcopy & Evar & Eexpr & ->).
  eexists _, σ'. split; [done|].
  apply varTraverse_named in Evar as [_ Hnamed].
  assert (Hbody : ∀ d, paren_depth body d = Some d).
  { apply (constructExpression_depth t' σ1 body σ'); [|done].
    destruct Hcopy as (_ & Hlab & _).
    rewrite (flat_map_one nodes t), (flat_map_one nodes t') in Hlab.
    assert (Hroots : Forall (λ n, paren_free (root n) = true) (nodes t')).
    { assert (∀ l, Forall (λ n, paren_free (root n) = true) l
                   ↔ Forall (λ lb : string * bool * bool * nat, paren_free lb.1.1.1 = true)
                            (label <$> l)) as Hall.
      { intros l. by rewrite Forall_fmap. }
      by rewrite Hall, Hlab, <-Hall. }
    apply Forall_forall. intros n Hn. rewrite Forall_forall in Hroots, Hnamed. auto. }
  unfold balanced. rewrite paren_depth_app, paren_depth_free.
  - change (" " +:+ body) with (String " " body). cbn [paren_depth Ascii.eqb Bool.eqb].
    apply Hbody.
  - apply (paren_free_app "lambda "); [done|]. apply paren_free_app; [|done].
    apply paren_free_join. unfold binder. cbv zeta. rewrite !Forall_app. split_and!.
    + apply Forall_fmap, Forall_forall. intros p _. apply paren_free_lvar.
    + apply Forall_fmap, Forall_forall. intros p _. apply paren_free_lvar.
    + destruct initial; by repeat constructor.
Qed.

Lemma lambdaRealizationOfTree_balanced_witness :
  nonempty_roots tree_VP_adv_foot ∧
  Forall (λ n, paren_free (root n) = true) (nodes tree_VP_adv_foot) ∧
  ∃ expr σ',
    lambdaRealizationOfTree tree_VP_adv_foot false store4 = Ok (expr, σ') ∧ balanced expr.
Proof.
  assert (H : nonempty_roots tree_VP_adv_foot) by (by repeat constructor).
  assert (H' : Forall (λ n, paren_free (root n) = true) (nodes tree_VP_adv_foot))
    by (by repeat constructor).
  split; [exact H|]. split; [exact H'|].
  exact (lambdaRealizationOfTree_balanced tree_VP_adv_foot false store4 H H').
Defined.
